(** * OptimizeInstructions: the peephole pass of src/passes/OptimizeInstructions.cpp

    A shallow embedding of the pass (the wildcard matcher [Match], the
    hand-coded rules [handOptimize], the per-node loop [visitExpression])
    and the properties of it that the specification states.

    Instruction nodes are arena cells in the C++ code: every node has an
    identity (its address), rules mutate nodes in place, and a rule may
    return a node that already sits in the tree.  The embedding keeps the
    identity as the first field [self] of every node, so that "the very same
    node", "a fresh node" and "a copy" are different things here as well. *)

From Stdlib Require Import ZArith Lia.
From stdpp Require Import base decidable option list strings countable gmap.

Open Scope Z_scope.

(** ** IR definitions used by the pass

    Modelled from the spec: the IR definitions (wasm.h) are not part of the
    source unit.  They follow section 3 of the specification, "a tagged
    variant over the instruction kinds needed by the optimizer", each node
    with "a kind tag, a value type (one of four numeric kinds or no value),
    an operator code where applicable, and ownership of its direct
    operand/child nodes", and carry the fields that the source reads and
    writes ([op], [left], [right], [value], [bytes], [signed_], [name],
    [condition], [ifTrue], [ifFalse], [target], [operands], [type],
    [_id]). *)

Definition Name := string.
Definition Addr := nat.

Inductive WasmType := none | i32 | i64 | f32 | f64.

#[global] Instance WasmType_eq_dec : EqDecision WasmType.
Proof. solve_decision. Defined.

(** A literal is a type tag and the bits of the value. *)
Record Literal := Lit { ltype : WasmType; bits : Z }.

#[global] Instance Literal_eq_dec : EqDecision Literal.
Proof. solve_decision. Defined.

Inductive UnaryOp :=
| ClzInt32 | ClzInt64 | CtzInt32 | CtzInt64 | PopcntInt32 | PopcntInt64
| NegFloat32 | NegFloat64 | AbsFloat32 | AbsFloat64
| CeilFloat32 | CeilFloat64 | FloorFloat32 | FloorFloat64
| TruncFloat32 | TruncFloat64 | NearestFloat32 | NearestFloat64
| SqrtFloat32 | SqrtFloat64
| EqZInt32 | EqZInt64
| ExtendSInt32 | ExtendUInt32 | WrapInt64
| TruncSFloat32ToInt32 | TruncSFloat32ToInt64 | TruncUFloat32ToInt32 | TruncUFloat32ToInt64
| TruncSFloat64ToInt32 | TruncSFloat64ToInt64 | TruncUFloat64ToInt32 | TruncUFloat64ToInt64
| ReinterpretFloat32 | ReinterpretFloat64
| ConvertSInt32ToFloat32 | ConvertSInt32ToFloat64 | ConvertUInt32ToFloat32 | ConvertUInt32ToFloat64
| ConvertSInt64ToFloat32 | ConvertSInt64ToFloat64 | ConvertUInt64ToFloat32 | ConvertUInt64ToFloat64
| PromoteFloat32 | DemoteFloat64
| ReinterpretInt32 | ReinterpretInt64.

Inductive BinaryOp :=
| AddInt32 | SubInt32 | MulInt32
| DivSInt32 | DivUInt32 | RemSInt32 | RemUInt32
| AndInt32 | OrInt32 | XorInt32 | ShlInt32 | ShrUInt32 | ShrSInt32 | RotLInt32 | RotRInt32
| EqInt32 | NeInt32
| LtSInt32 | LtUInt32 | LeSInt32 | LeUInt32 | GtSInt32 | GtUInt32 | GeSInt32 | GeUInt32
| AddInt64 | SubInt64 | MulInt64
| DivSInt64 | DivUInt64 | RemSInt64 | RemUInt64
| AndInt64 | OrInt64 | XorInt64 | ShlInt64 | ShrUInt64 | ShrSInt64 | RotLInt64 | RotRInt64
| EqInt64 | NeInt64
| LtSInt64 | LtUInt64 | LeSInt64 | LeUInt64 | GtSInt64 | GtUInt64 | GeSInt64 | GeUInt64
| AddFloat32 | SubFloat32 | MulFloat32
| DivFloat32 | CopySignFloat32 | MinFloat32 | MaxFloat32
| EqFloat32 | NeFloat32
| LtFloat32 | LeFloat32 | GtFloat32 | GeFloat32
| AddFloat64 | SubFloat64 | MulFloat64
| DivFloat64 | CopySignFloat64 | MinFloat64 | MaxFloat64
| EqFloat64 | NeFloat64
| LtFloat64 | LeFloat64 | GtFloat64 | GeFloat64.

(** Equality on the two operator enumerations goes through their position
    in the enumeration, which keeps the decision procedure small. *)
Definition UnaryOp_tag (o : UnaryOp) : positive :=
  match o with
  | ClzInt32 => 1 | ClzInt64 => 2 | CtzInt32 => 3 | CtzInt64 => 4
  | PopcntInt32 => 5 | PopcntInt64 => 6
  | NegFloat32 => 7 | NegFloat64 => 8 | AbsFloat32 => 9 | AbsFloat64 => 10
  | CeilFloat32 => 11 | CeilFloat64 => 12 | FloorFloat32 => 13 | FloorFloat64 => 14
  | TruncFloat32 => 15 | TruncFloat64 => 16 | NearestFloat32 => 17 | NearestFloat64 => 18
  | SqrtFloat32 => 19 | SqrtFloat64 => 20
  | EqZInt32 => 21 | EqZInt64 => 22
  | ExtendSInt32 => 23 | ExtendUInt32 => 24 | WrapInt64 => 25
  | TruncSFloat32ToInt32 => 26 | TruncSFloat32ToInt64 => 27
  | TruncUFloat32ToInt32 => 28 | TruncUFloat32ToInt64 => 29
  | TruncSFloat64ToInt32 => 30 | TruncSFloat64ToInt64 => 31
  | TruncUFloat64ToInt32 => 32 | TruncUFloat64ToInt64 => 33
  | ReinterpretFloat32 => 34 | ReinterpretFloat64 => 35
  | ConvertSInt32ToFloat32 => 36 | ConvertSInt32ToFloat64 => 37
  | ConvertUInt32ToFloat32 => 38 | ConvertUInt32ToFloat64 => 39
  | ConvertSInt64ToFloat32 => 40 | ConvertSInt64ToFloat64 => 41
  | ConvertUInt64ToFloat32 => 42 | ConvertUInt64ToFloat64 => 43
  | PromoteFloat32 => 44 | DemoteFloat64 => 45
  | ReinterpretInt32 => 46 | ReinterpretInt64 => 47
  end%positive.

Definition BinaryOp_tag (o : BinaryOp) : positive :=
  match o with
  | AddInt32 => 1 | SubInt32 => 2 | MulInt32 => 3
  | DivSInt32 => 4 | DivUInt32 => 5 | RemSInt32 => 6 | RemUInt32 => 7
  | AndInt32 => 8 | OrInt32 => 9 | XorInt32 => 10 | ShlInt32 => 11
  | ShrUInt32 => 12 | ShrSInt32 => 13 | RotLInt32 => 14 | RotRInt32 => 15
  | EqInt32 => 16 | NeInt32 => 17
  | LtSInt32 => 18 | LtUInt32 => 19 | LeSInt32 => 20 | LeUInt32 => 21
  | GtSInt32 => 22 | GtUInt32 => 23 | GeSInt32 => 24 | GeUInt32 => 25
  | AddInt64 => 26 | SubInt64 => 27 | MulInt64 => 28
  | DivSInt64 => 29 | DivUInt64 => 30 | RemSInt64 => 31 | RemUInt64 => 32
  | AndInt64 => 33 | OrInt64 => 34 | XorInt64 => 35 | ShlInt64 => 36
  | ShrUInt64 => 37 | ShrSInt64 => 38 | RotLInt64 => 39 | RotRInt64 => 40
  | EqInt64 => 41 | NeInt64 => 42
  | LtSInt64 => 43 | LtUInt64 => 44 | LeSInt64 => 45 | LeUInt64 => 46
  | GtSInt64 => 47 | GtUInt64 => 48 | GeSInt64 => 49 | GeUInt64 => 50
  | AddFloat32 => 51 | SubFloat32 => 52 | MulFloat32 => 53
  | DivFloat32 => 54 | CopySignFloat32 => 55 | MinFloat32 => 56 | MaxFloat32 => 57
  | EqFloat32 => 58 | NeFloat32 => 59
  | LtFloat32 => 60 | LeFloat32 => 61 | GtFloat32 => 62 | GeFloat32 => 63
  | AddFloat64 => 64 | SubFloat64 => 65 | MulFloat64 => 66
  | DivFloat64 => 67 | CopySignFloat64 => 68 | MinFloat64 => 69 | MaxFloat64 => 70
  | EqFloat64 => 71 | NeFloat64 => 72
  | LtFloat64 => 73 | LeFloat64 => 74 | GtFloat64 => 75 | GeFloat64 => 76
  end%positive.

Definition UnaryOp_all : list UnaryOp :=
    [ClzInt32; ClzInt64; CtzInt32; CtzInt64; PopcntInt32; PopcntInt64;
     NegFloat32; NegFloat64; AbsFloat32; AbsFloat64;
     CeilFloat32; CeilFloat64; FloorFloat32; FloorFloat64;
     TruncFloat32; TruncFloat64; NearestFloat32; NearestFloat64;
     SqrtFloat32; SqrtFloat64; EqZInt32; EqZInt64;
     ExtendSInt32; ExtendUInt32; WrapInt64;
     TruncSFloat32ToInt32; TruncSFloat32ToInt64; TruncUFloat32ToInt32; TruncUFloat32ToInt64;
     TruncSFloat64ToInt32; TruncSFloat64ToInt64; TruncUFloat64ToInt32; TruncUFloat64ToInt64;
     ReinterpretFloat32; ReinterpretFloat64;
     ConvertSInt32ToFloat32; ConvertSInt32ToFloat64; ConvertUInt32ToFloat32; ConvertUInt32ToFloat64;
     ConvertSInt64ToFloat32; ConvertSInt64ToFloat64; ConvertUInt64ToFloat32; ConvertUInt64ToFloat64;
     PromoteFloat32; DemoteFloat64; ReinterpretInt32; ReinterpretInt64].

Definition BinaryOp_all : list BinaryOp :=
    [AddInt32; SubInt32; MulInt32; DivSInt32; DivUInt32; RemSInt32; RemUInt32;
     AndInt32; OrInt32; XorInt32; ShlInt32; ShrUInt32; ShrSInt32; RotLInt32; RotRInt32;
     EqInt32; NeInt32;
     LtSInt32; LtUInt32; LeSInt32; LeUInt32; GtSInt32; GtUInt32; GeSInt32; GeUInt32;
     AddInt64; SubInt64; MulInt64; DivSInt64; DivUInt64; RemSInt64; RemUInt64;
     AndInt64; OrInt64; XorInt64; ShlInt64; ShrUInt64; ShrSInt64; RotLInt64; RotRInt64;
     EqInt64; NeInt64;
     LtSInt64; LtUInt64; LeSInt64; LeUInt64; GtSInt64; GtUInt64; GeSInt64; GeUInt64;
     AddFloat32; SubFloat32; MulFloat32; DivFloat32; CopySignFloat32; MinFloat32; MaxFloat32;
     EqFloat32; NeFloat32; LtFloat32; LeFloat32; GtFloat32; GeFloat32;
     AddFloat64; SubFloat64; MulFloat64; DivFloat64; CopySignFloat64; MinFloat64; MaxFloat64;
     EqFloat64; NeFloat64; LtFloat64; LeFloat64; GtFloat64; GeFloat64].

#[global] Instance UnaryOp_eq_dec : EqDecision UnaryOp.
Proof.
  intros a b. destruct (decide (UnaryOp_tag a = UnaryOp_tag b)) as [E|E].
  - left.
    assert (H : forall o,
      nth_error UnaryOp_all (Nat.pred (Pos.to_nat (UnaryOp_tag o))) = Some o)
      by (intros []; reflexivity).
    pose proof (H a) as Ha. rewrite E, H in Ha. congruence.
  - right. intros ->. exact (E eq_refl).
Defined.

#[global] Instance BinaryOp_eq_dec : EqDecision BinaryOp.
Proof.
  intros a b. destruct (decide (BinaryOp_tag a = BinaryOp_tag b)) as [E|E].
  - left.
    assert (H : forall o,
      nth_error BinaryOp_all (Nat.pred (Pos.to_nat (BinaryOp_tag o))) = Some o)
      by (intros []; reflexivity).
    pose proof (H a) as Ha. rewrite E, H in Ha. congruence.
  - right. intros ->. exact (E eq_refl).
Defined.

(** The instruction tree.  [self] is the address of the node.  A [Const]
    has the type of its literal; every other value-producing node stores its
    type. *)
#[warnings="-register-all"]
Inductive Expression : Type :=
| Nop (self : Addr)
| Block (self : Addr) (name : Name) (list : list Expression) (type : WasmType)
| If (self : Addr) (condition ifTrue : Expression) (ifFalse : option Expression)
     (type : WasmType)
| Break (self : Addr) (name : Name) (value condition : option Expression)
| CallImport (self : Addr) (target : Name) (operands : list Expression)
     (type : WasmType)
| GetLocal (self : Addr) (index : nat) (type : WasmType)
| GetGlobal (self : Addr) (name : Name) (type : WasmType)
| SetGlobal (self : Addr) (name : Name) (value : Expression)
| Load (self : Addr) (bytes : Z) (signed_ : bool) (offset align : Z)
     (ptr : Expression) (type : WasmType)
| Store (self : Addr) (bytes : Z) (offset align : Z) (ptr value : Expression)
     (type : WasmType)
| Const (self : Addr) (value : Literal)
| Unary (self : Addr) (op : UnaryOp) (value : Expression) (type : WasmType)
| Binary (self : Addr) (op : BinaryOp) (left right : Expression) (type : WasmType)
| Select (self : Addr) (ifTrue ifFalse condition : Expression) (type : WasmType).

(** The discriminator [Expression::_id]. *)
Inductive ExpressionId :=
| NopId | BlockId | IfId | BreakId | CallImportId | GetLocalId | GetGlobalId
| SetGlobalId | LoadId | StoreId | ConstId | UnaryId | BinaryId | SelectId.

#[global] Instance ExpressionId_eq_dec : EqDecision ExpressionId.
Proof. solve_decision. Defined.

Definition ExpressionId_tag (i : ExpressionId) : positive :=
  match i with
  | NopId => 1 | BlockId => 2 | IfId => 3 | BreakId => 4 | CallImportId => 5
  | GetLocalId => 6 | GetGlobalId => 7 | SetGlobalId => 8 | LoadId => 9
  | StoreId => 10 | ConstId => 11 | UnaryId => 12 | BinaryId => 13 | SelectId => 14
  end%positive.

#[global] Instance ExpressionId_countable : Countable ExpressionId.
Proof.
  refine (inj_countable' ExpressionId_tag
    (fun p => match p with
              | 1 => NopId | 2 => BlockId | 3 => IfId | 4 => BreakId
              | 5 => CallImportId | 6 => GetLocalId | 7 => GetGlobalId
              | 8 => SetGlobalId | 9 => LoadId | 10 => StoreId | 11 => ConstId
              | 12 => UnaryId | 13 => BinaryId | _ => SelectId
              end%positive) _).
  intros []; reflexivity.
Defined.

Definition _id (e : Expression) : ExpressionId :=
  match e with
  | Nop _ => NopId
  | Block _ _ _ _ => BlockId
  | If _ _ _ _ _ => IfId
  | Break _ _ _ _ => BreakId
  | CallImport _ _ _ _ => CallImportId
  | GetLocal _ _ _ => GetLocalId
  | GetGlobal _ _ _ => GetGlobalId
  | SetGlobal _ _ _ => SetGlobalId
  | Load _ _ _ _ _ _ _ => LoadId
  | Store _ _ _ _ _ _ _ => StoreId
  | Const _ _ => ConstId
  | Unary _ _ _ _ => UnaryId
  | Binary _ _ _ _ _ => BinaryId
  | Select _ _ _ _ _ => SelectId
  end.

(** The field [Expression::type]. *)
Definition type_of (e : Expression) : WasmType :=
  match e with
  | Nop _ | Break _ _ _ _ | SetGlobal _ _ _ => none
  | Block _ _ _ t | If _ _ _ _ t | CallImport _ _ _ t | GetLocal _ _ t
  | GetGlobal _ _ t | Load _ _ _ _ _ _ t | Store _ _ _ _ _ _ t
  | Unary _ _ _ t | Binary _ _ _ _ t | Select _ _ _ _ t => t
  | Const _ v => ltype v
  end.

(** The address of a node. *)
Definition self_of (e : Expression) : Addr :=
  match e with
  | Nop a | Block a _ _ _ | If a _ _ _ _ | Break a _ _ _ | CallImport a _ _ _
  | GetLocal a _ _ | GetGlobal a _ _ | SetGlobal a _ _ | Load a _ _ _ _ _ _
  | Store a _ _ _ _ _ _ | Const a _ | Unary a _ _ _ | Binary a _ _ _ _
  | Select a _ _ _ _ => a
  end.

(** Induction over the tree, with the children held in lists and options. *)
Definition OptAll {A} (P : A -> Prop) (o : option A) : Prop :=
  match o with Some x => P x | None => True end.

Section Expression_induction.
Variable P : Expression -> Prop.
Hypothesis HNop : forall a, P (Nop a).
Hypothesis HBlock : forall a n l t, Forall P l -> P (Block a n l t).
Hypothesis HIf : forall a c t f ty, P c -> P t -> OptAll P f -> P (If a c t f ty).
Hypothesis HBreak : forall a n v c, OptAll P v -> OptAll P c -> P (Break a n v c).
Hypothesis HCallImport : forall a n l t, Forall P l -> P (CallImport a n l t).
Hypothesis HGetLocal : forall a i t, P (GetLocal a i t).
Hypothesis HGetGlobal : forall a n t, P (GetGlobal a n t).
Hypothesis HSetGlobal : forall a n v, P v -> P (SetGlobal a n v).
Hypothesis HLoad : forall a b s o al p t, P p -> P (Load a b s o al p t).
Hypothesis HStore : forall a b o al p v t, P p -> P v -> P (Store a b o al p v t).
Hypothesis HConst : forall a v, P (Const a v).
Hypothesis HUnary : forall a o v t, P v -> P (Unary a o v t).
Hypothesis HBinary : forall a o l r t, P l -> P r -> P (Binary a o l r t).
Hypothesis HSelect : forall a t f c ty, P t -> P f -> P c -> P (Select a t f c ty).

Fixpoint Expression_nested_ind (e : Expression) : P e :=
  let all := fix all (l : list Expression) : Forall P l :=
    match l with
    | [] => Forall_nil_2 P
    | x :: l' => Forall_cons_2 P x l' (Expression_nested_ind x) (all l')
    end in
  let opt := fun (o : option Expression) =>
    match o return OptAll P o with
    | Some x => Expression_nested_ind x
    | None => I
    end in
  match e with
  | Nop a => HNop a
  | Block a n l t => HBlock a n l t (all l)
  | If a c t f ty =>
      HIf a c t f ty (Expression_nested_ind c) (Expression_nested_ind t) (opt f)
  | Break a n v c => HBreak a n v c (opt v) (opt c)
  | CallImport a n l t => HCallImport a n l t (all l)
  | GetLocal a i t => HGetLocal a i t
  | GetGlobal a n t => HGetGlobal a n t
  | SetGlobal a n v => HSetGlobal a n v (Expression_nested_ind v)
  | Load a b s o al p t => HLoad a b s o al p t (Expression_nested_ind p)
  | Store a b o al p v t =>
      HStore a b o al p v t (Expression_nested_ind p) (Expression_nested_ind v)
  | Const a v => HConst a v
  | Unary a o v t => HUnary a o v t (Expression_nested_ind v)
  | Binary a o l r t =>
      HBinary a o l r t (Expression_nested_ind l) (Expression_nested_ind r)
  | Select a t f c ty =>
      HSelect a t f c ty (Expression_nested_ind t) (Expression_nested_ind f)
        (Expression_nested_ind c)
  end.
End Expression_induction.

(** ** Effects: the arena, assertions and exceptions

    Nodes are allocated from the module's arena; only the identity of a
    fresh node matters here, so the arena is the next free address.  A
    computation can also stop: on a failed [assert], on the
    [std::out_of_range] thrown by [std::vector::at], on a null slot handed
    to the copier, or (for the loops of the pass) when the fuel of the
    embedding runs out. *)
Record Arena := MkArena { next : Addr }.

Inductive Failure := AssertionFailure | OutOfRange | NullSlot | OutOfFuel.

Inductive Outcome (A : Type) :=
| Ok (a : A)
| Fail (f : Failure).
Arguments Ok {A} a.
Arguments Fail {A} f.

Definition M (A : Type) : Type := Arena -> Outcome (A * Arena).

Definition ret {A} (a : A) : M A := fun s => Ok (a, s).
Definition raise {A} (f : Failure) : M A := fun _ => Fail f.
Definition bind {A B} (m : M A) (k : A -> M B) : M B :=
  fun s => match m s with
           | Ok (a, s') => k a s'
           | Fail f => Fail f
           end.

Declare Scope pass_scope.
Delimit Scope pass_scope with pass.
Notation "x <- m ;; k" := (bind m (fun x => k))
  (at level 100, m at next level, right associativity) : pass_scope.
Open Scope pass_scope.

(** [allocator.alloc<T>()]: the address of the new node. *)
Definition alloc : M Addr := fun s => Ok (next s, MkArena (S (next s))).

(** Modelled from the spec: [Literal] (wasm.h) is not part of the source
    unit.  [geti32] reads the value of an "integer constant" of type [i32];
    it asserts the type tag, so that on a literal of another type the
    computation stops. *)
Definition geti32 (v : Literal) : M Z :=
  if decide (ltype v = i32) then ret (bits v) else raise AssertionFailure.

(** Modelled from the spec: [Builder::makeUnary] (wasm-builder.h) is not
    part of the source unit.  It allocates a unary node over the given
    operand, which is not copied; the "is-zero" tests produce an [i32], the
    other same-type operators the type of their operand. *)
Definition Unary_type (op : UnaryOp) (value : Expression) : WasmType :=
  match op with
  | EqZInt32 | EqZInt64 => i32
  | ExtendSInt32 | ExtendUInt32 => i64
  | WrapInt64 => i32
  | TruncSFloat32ToInt32 | TruncUFloat32ToInt32
  | TruncSFloat64ToInt32 | TruncUFloat64ToInt32 | ReinterpretFloat32 => i32
  | TruncSFloat32ToInt64 | TruncUFloat32ToInt64
  | TruncSFloat64ToInt64 | TruncUFloat64ToInt64 | ReinterpretFloat64 => i64
  | ConvertSInt32ToFloat32 | ConvertUInt32ToFloat32
  | ConvertSInt64ToFloat32 | ConvertUInt64ToFloat32
  | DemoteFloat64 | ReinterpretInt32 => f32
  | ConvertSInt32ToFloat64 | ConvertUInt32ToFloat64
  | ConvertSInt64ToFloat64 | ConvertUInt64ToFloat64
  | PromoteFloat32 | ReinterpretInt64 => f64
  | _ => type_of value
  end.

Definition makeUnary (op : UnaryOp) (value : Expression) : M Expression :=
  a <- alloc ;; ret (Unary a op value (Unary_type op value)).

(** Modelled from the spec: [ExpressionManipulator::nop] (ast_utils.h) is
    not part of the source unit.  It turns the node into a no-op in place:
    the node keeps its address. *)
Definition ExpressionManipulator_nop (curr : Expression) : Expression :=
  Nop (self_of curr).

(** ** The hand-coded rules *)

(** What [handOptimize] leaves behind.  [Replace e]: it returned the node
    [e], which the caller installs in place of the current one; the node
    that was current is abandoned and not followed any further.  [Keep e]:
    it returned [nullptr], and the current node, possibly modified in place,
    is now [e]. *)
Inductive HandResult :=
| Replace (e : Expression)
| Keep (e : Expression).

(** [OptimizeInstructions::optimizeBoolean] *)
Definition optimizeBoolean (boolean : Expression) : Expression :=
  match boolean with
  | Unary _ EqZInt32 (Unary _ EqZInt32 value2 _) _ => value2 (* double eqz *)
  | _ => boolean
  end.

Section Pass.

(** The effect analyzer (ast_utils.h) is a collaborator of the pass: an
    analysis of an expression, and the test whether the effects of one
    expression invalidate those of another. *)
Context {Effects : Type}.
Variable EffectAnalyzer : Expression -> Effects.
Variable invalidates : Effects -> Effects -> bool.

(** [OptimizeInstructions::handOptimize] *)
Definition handOptimize (curr : Expression) : M HandResult :=
  match curr with
  | Binary _ op left_ right_ _ =>
      match op, right_ with
      | ShrSInt32, Const _ rv =>
          (* a load of 8 bits and a sign extend using a shl of 24 then
             shr_s of 24 as well, etc. *)
          shifts <- geti32 rv ;;
          if bool_decide (shifts = 24) || bool_decide (shifts = 16) then
            match left_ with
            | Binary _ ShlInt32 ll (Const _ lv) _ =>
                lshifts <- geti32 lv ;;
                if bool_decide (lshifts = shifts) then
                  match ll with
                  | Load la bytes _ offset align ptr lty =>
                      if (bool_decide (bytes = 1) && bool_decide (shifts = 24))
                         || (bool_decide (bytes = 2) && bool_decide (shifts = 16))
                      then ret (Replace (Load la bytes true offset align ptr lty))
                      else ret (Keep curr)
                  | _ => ret (Keep curr)
                  end
                else ret (Keep curr)
            | _ => ret (Keep curr)
            end
          else ret (Keep curr)
      | EqInt32, _ =>
          let tryLeft :=
            match left_ with
            | Const _ c =>
                z <- geti32 c ;;
                if bool_decide (z = 0) then
                  (* equal 0 => eqz *)
                  u <- makeUnary EqZInt32 right_ ;; ret (Replace u)
                else ret (Keep curr)
            | _ => ret (Keep curr)
            end in
          match right_ with
          | Const _ c =>
              z <- geti32 c ;;
              if bool_decide (z = 0) then
                (* equal 0 => eqz *)
                u <- makeUnary EqZInt32 left_ ;; ret (Replace u)
              else tryLeft
          | _ => tryLeft
          end
      | _, _ => ret (Keep curr)
      end
  | Unary _ op value _ =>
      (* de-morgan's laws *)
      match op, value with
      | EqZInt32, Binary ia iop il ir ity =>
          let flip op' := ret (Replace (Binary ia op' il ir ity)) in
          match iop with
          | EqInt32 => flip NeInt32
          | NeInt32 => flip EqInt32
          | LtSInt32 => flip GeSInt32
          | LtUInt32 => flip GeUInt32
          | LeSInt32 => flip GtSInt32
          | LeUInt32 => flip GtUInt32
          | GtSInt32 => flip LeSInt32
          | GtUInt32 => flip LeUInt32
          | GeSInt32 => flip LtSInt32
          | GeUInt32 => flip LtUInt32

          | EqInt64 => flip NeInt64
          | NeInt64 => flip EqInt64
          | LtSInt64 => flip GeSInt64
          | LtUInt64 => flip GeUInt64
          | LeSInt64 => flip GtSInt64
          | LeUInt64 => flip GtUInt64
          | GtSInt64 => flip LeSInt64
          | GtUInt64 => flip LeUInt64
          | GeSInt64 => flip LtSInt64
          | GeUInt64 => flip LtUInt64

          | EqFloat32 => flip NeFloat32
          | NeFloat32 => flip EqFloat32

          | EqFloat64 => flip NeFloat64
          | NeFloat64 => flip EqFloat64

          | _ => ret (Keep curr)
          end
      | _, _ => ret (Keep curr)
      end
  | SetGlobal _ name value =>
      (* optimize out a set of a get *)
      match value with
      | GetGlobal _ gname _ =>
          if bool_decide (gname = name)
          then ret (Keep (ExpressionManipulator_nop curr))
          else ret (Keep curr)
      | _ => ret (Keep curr)
      end
  | If a condition ifTrue ifFalse ty =>
      let condition := optimizeBoolean condition in
      match ifFalse, condition with
      | Some ifFalse', Unary _ EqZInt32 value _ =>
          (* flip if-else arms to get rid of an eqz *)
          ret (Keep (If a value ifFalse' (Some ifTrue) ty))
      | _, _ => ret (Keep (If a condition ifTrue ifFalse ty))
      end
  | Select a ifTrue ifFalse condition ty =>
      let condition := optimizeBoolean condition in
      match condition with
      | Unary _ EqZInt32 value _ =>
          (* flip select to remove eqz, if we can reorder *)
          if negb (invalidates (EffectAnalyzer ifTrue) (EffectAnalyzer ifFalse))
          then ret (Keep (Select a ifFalse ifTrue value ty))
          else ret (Keep (Select a ifTrue ifFalse condition ty))
      | _ => ret (Keep (Select a ifTrue ifFalse condition ty))
      end
  | Break a name value condition =>
      match condition with
      | Some c => ret (Keep (Break a name value (Some (optimizeBoolean c))))
      | None => ret (Keep curr)
      end
  | _ => ret (Keep curr)
  end.

End Pass.

(** ** Structural equality and copying (ast_utils.h) *)

Definition all2 {A} (f : A -> A -> bool) : list A -> list A -> bool :=
  fix go xs ys :=
    match xs, ys with
    | [], [] => true
    | x :: xs', y :: ys' => f x y && go xs' ys'
    | _, _ => false
    end.

Definition opt2 {A} (f : A -> A -> bool) (x y : option A) : bool :=
  match x, y with
  | Some a, Some b => f a b
  | None, None => true
  | _, _ => false
  end.

(** Modelled from the spec: [ExpressionAnalyzer::equal] (ast_utils.h) is not
    part of the source unit.  Two trees are equal when they are "fully
    structurally/semantically equal (same shape and same literal values,
    recursively)": the same kind of node, the same operator, type and other
    immediate fields, and equal children.  The addresses of the nodes play
    no role. *)
Fixpoint equal (a b : Expression) : bool :=
  match a, b with
  | Nop _, Nop _ => true
  | Block _ n1 l1 t1, Block _ n2 l2 t2 =>
      bool_decide (n1 = n2) && bool_decide (t1 = t2) && all2 equal l1 l2
  | If _ c1 x1 y1 t1, If _ c2 x2 y2 t2 =>
      bool_decide (t1 = t2) && equal c1 c2 && equal x1 x2 && opt2 equal y1 y2
  | Break _ n1 v1 c1, Break _ n2 v2 c2 =>
      bool_decide (n1 = n2) && opt2 equal v1 v2 && opt2 equal c1 c2
  | CallImport _ n1 l1 t1, CallImport _ n2 l2 t2 =>
      bool_decide (n1 = n2) && bool_decide (t1 = t2) && all2 equal l1 l2
  | GetLocal _ i1 t1, GetLocal _ i2 t2 =>
      bool_decide (i1 = i2) && bool_decide (t1 = t2)
  | GetGlobal _ n1 t1, GetGlobal _ n2 t2 =>
      bool_decide (n1 = n2) && bool_decide (t1 = t2)
  | SetGlobal _ n1 v1, SetGlobal _ n2 v2 =>
      bool_decide (n1 = n2) && equal v1 v2
  | Load _ b1 s1 o1 al1 p1 t1, Load _ b2 s2 o2 al2 p2 t2 =>
      bool_decide (b1 = b2) && bool_decide (s1 = s2) && bool_decide (o1 = o2)
      && bool_decide (al1 = al2) && bool_decide (t1 = t2) && equal p1 p2
  | Store _ b1 o1 al1 p1 v1 t1, Store _ b2 o2 al2 p2 v2 t2 =>
      bool_decide (b1 = b2) && bool_decide (o1 = o2) && bool_decide (al1 = al2)
      && bool_decide (t1 = t2) && equal p1 p2 && equal v1 v2
  | Const _ v1, Const _ v2 => bool_decide (v1 = v2)
  | Unary _ o1 v1 t1, Unary _ o2 v2 t2 =>
      bool_decide (o1 = o2) && bool_decide (t1 = t2) && equal v1 v2
  | Binary _ o1 l1 r1 t1, Binary _ o2 l2 r2 t2 =>
      bool_decide (o1 = o2) && bool_decide (t1 = t2) && equal l1 l2 && equal r1 r2
  | Select _ x1 y1 c1 t1, Select _ x2 y2 c2 t2 =>
      bool_decide (t1 = t2) && equal x1 x2 && equal y1 y2 && equal c1 c2
  | _, _ => false
  end.

Definition mapM {A B} (f : A -> M B) : list A -> M (list B) :=
  fix go xs :=
    match xs with
    | [] => ret []
    | x :: xs' => y <- f x ;; ys <- go xs' ;; ret (y :: ys)
    end.

Definition optM {A B} (f : A -> M B) (o : option A) : M (option B) :=
  match o with
  | Some x => y <- f x ;; ret (Some y)
  | None => ret None
  end.

(** Modelled from the spec: [ExpressionManipulator::flexibleCopy]
    (ast_utils.h) is not part of the source unit.  It "deep-copies" a tree
    into fresh nodes, except that each node is first offered to the hook
    [custom]: when the hook returns a node, that node stands for the copy of
    the whole subtree; when it returns [nullptr] ([None]) the node is copied
    as usual.  A failure of the hook is not caught. *)
Fixpoint flexibleCopy (custom : Expression -> M (option Expression))
    (original : Expression) : M Expression :=
  r <- custom original ;;
  match r with
  | Some e => ret e
  | None =>
      let copy := flexibleCopy custom in
      match original with
      | Nop _ => a <- alloc ;; ret (Nop a)
      | Block _ n l t =>
          l' <- mapM copy l ;; a <- alloc ;; ret (Block a n l' t)
      | If _ c x y t =>
          c' <- copy c ;; x' <- copy x ;; y' <- optM copy y ;;
          a <- alloc ;; ret (If a c' x' y' t)
      | Break _ n v c =>
          v' <- optM copy v ;; c' <- optM copy c ;;
          a <- alloc ;; ret (Break a n v' c')
      | CallImport _ n l t =>
          l' <- mapM copy l ;; a <- alloc ;; ret (CallImport a n l' t)
      | GetLocal _ i t => a <- alloc ;; ret (GetLocal a i t)
      | GetGlobal _ n t => a <- alloc ;; ret (GetGlobal a n t)
      | SetGlobal _ n v => v' <- copy v ;; a <- alloc ;; ret (SetGlobal a n v')
      | Load _ b s o al p t =>
          p' <- copy p ;; a <- alloc ;; ret (Load a b s o al p' t)
      | Store _ b o al p v t =>
          p' <- copy p ;; v' <- copy v ;; a <- alloc ;; ret (Store a b o al p' v' t)
      | Const _ v => a <- alloc ;; ret (Const a v)
      | Unary _ o v t => v' <- copy v ;; a <- alloc ;; ret (Unary a o v' t)
      | Binary _ o l r t =>
          l' <- copy l ;; r' <- copy r ;; a <- alloc ;; ret (Binary a o l' r' t)
      | Select _ x y c t =>
          x' <- copy x ;; y' <- copy y ;; c' <- copy c ;;
          a <- alloc ;; ret (Select a x' y' c' t)
      end
  end.

(** Modelled from the spec: [ExpressionManipulator::copy] (ast_utils.h) is
    not part of the source unit.  It is the plain deep copy; the instantiator
    "fails (defensively)" when the slot it is asked to copy is empty. *)
Definition ExpressionManipulator_copy (original : option Expression) : M Expression :=
  match original with
  | Some e => flexibleCopy (fun _ => ret None) e
  | None => raise NullSlot
  end.

(** ** Patterns and matches *)

Definition I32_EXPR : Name := "i32.expr".
Definition I64_EXPR : Name := "i64.expr".
Definition F32_EXPR : Name := "f32.expr".
Definition F64_EXPR : Name := "f64.expr".
Definition ANY_EXPR : Name := "any.expr".

(** A pattern *)
Record Pattern := MkPattern { input : Expression; output : Expression }.

(** [Index index = ... geti32()]: the conversion of an [int32_t] to the
    unsigned [Index]. *)
Definition Index_of (v : Z) : nat := Z.to_nat (v `mod` 2 ^ 32).

(** The test that opens both [Match::compare] and [Match::copy]: the node is
    a [CallImport] with exactly one operand, of type [i32], which is a
    [Const].  It yields the target of the call and the index held by the
    constant. *)
Definition wildcardCall (e : Expression) : option (Name * nat) :=
  match e with
  | CallImport _ target [Const _ v] _ =>
      if decide (ltype v = i32) then Some (target, Index_of (bits v)) else None
  | _ => None
  end.

(** The type a reserved name asks for ([none] for [any.expr]). *)
Definition wildcardType (target : Name) : option WasmType :=
  if decide (target = I32_EXPR) then Some i32
  else if decide (target = I64_EXPR) then Some i64
  else if decide (target = F32_EXPR) then Some f32
  else if decide (target = F64_EXPR) then Some f64
  else if decide (target = ANY_EXPR) then Some none
  else None.

(** A wildcard marker: a well-formed call to one of the five reserved
    names.  It yields the required type and the index. *)
Definition wildcardMarker (e : Expression) : option (WasmType * nat) :=
  match wildcardCall e with
  | Some (target, index) =>
      match wildcardType target with
      | Some ty => Some (ty, index)
      | None => None
      end
  | None => None
  end.

Module Match.

(** [std::vector<Expression*> wildcards]: a slot is [None] when it holds
    [nullptr], and otherwise the subexpression it is bound to (the node of
    the tree under optimization itself, not a copy). *)
Abbreviation Wildcards := (list (option Expression)).

(** The lambda [checkMatch] of [Match::compare]. *)
Definition checkMatch (index : nat) (subSeen : Expression) (type : WasmType)
    (wildcards : Wildcards) : bool * Wildcards :=
  if bool_decide (type <> none) && bool_decide (type_of subSeen <> type)
  then (false, wildcards)
  else
    let wildcards :=
      wildcards ++ replicate (S index - length wildcards) None in
    match wildcards !! index with
    | Some (Some bound) =>
        (* We are seeing this index for a second or later time, check it
           matches *)
        (equal subSeen bound, wildcards)
    | _ =>
        (* new wildcard; NB: no need to copy *)
        (true, <[index := Some subSeen]> wildcards)
    end.

(** [Match::compare] *)
Definition compare (subInput subSeen : Expression) (wildcards : Wildcards)
    : bool * Wildcards :=
  match wildcardCall subInput with
  | None => (false, wildcards)
  | Some (target, index) =>
      (* handle our special functions *)
      if decide (target = I32_EXPR) then checkMatch index subSeen i32 wildcards
      else if decide (target = I64_EXPR) then checkMatch index subSeen i64 wildcards
      else if decide (target = F32_EXPR) then checkMatch index subSeen f32 wildcards
      else if decide (target = F64_EXPR) then checkMatch index subSeen f64 wildcards
      else if decide (target = ANY_EXPR) then checkMatch index subSeen none wildcards
      else (false, wildcards)
  end.

(** [Match::copy]: when copying a wildcard, perform the substitution.
    [wildcards.at(index)] throws when the index is out of range. *)
Definition copy (wildcards : Wildcards) (curr : Expression)
    : M (option Expression) :=
  match wildcardCall curr with
  | None => ret None
  | Some (target, index) =>
      (* handle our special functions *)
      if bool_decide (target = I32_EXPR) || bool_decide (target = I64_EXPR)
         || bool_decide (target = F32_EXPR) || bool_decide (target = F64_EXPR)
         || bool_decide (target = ANY_EXPR)
      then
        match wildcards !! index with
        | Some slot => e <- ExpressionManipulator_copy slot ;; ret (Some e)
        | None => raise OutOfRange
        end
      else ret None
  end.

(** [Match::apply] *)
Definition apply (pattern : Pattern) (wildcards : Wildcards) : M Expression :=
  flexibleCopy (copy wildcards) (output pattern).

(** A step of the lock-step walk: it reads and updates the slots and says
    whether the walk can go on. *)
Definition Matcher := Wildcards -> bool * Wildcards.

Definition guard (b : bool) : Matcher := fun wildcards => (b, wildcards).

Definition andThen (m1 m2 : Matcher) : Matcher :=
  fun wildcards =>
    let '(b, wildcards') := m1 wildcards in
    if b then m2 wildcards' else (false, wildcards').

Definition fold2 (f : Expression -> Expression -> Matcher)
  : list Expression -> list Expression -> Matcher :=
  fix go xs ys :=
    match xs, ys with
    | [], [] => guard true
    | x :: xs', y :: ys' => andThen (f x y) (go xs' ys')
    | _, _ => guard false
    end.

Definition optFold2 (f : Expression -> Expression -> Matcher)
    (x y : option Expression) : Matcher :=
  match x, y with
  | Some a, Some b => f a b
  | None, None => guard true
  | _, _ => guard false
  end.

(** Modelled from the spec: [ExpressionAnalyzer::flexibleEqual]
    (ast_utils.h) is not part of the source unit.  With this match as the
    comparer it walks the pattern input and the candidate in lock-step.  "If
    the current pattern node is a wildcard marker", [compare] decides:
    binding or agreement with the bound subtree, "otherwise fail".
    "Otherwise, the pattern node and candidate node must share the same
    discriminator, the same operator/opcode and type where applicable, and
    all corresponding children must recursively match.  Mismatch at any
    level fails the whole attempt." *)
Fixpoint flexibleEqual (left_ right_ : Expression) : Matcher :=
  match wildcardMarker left_ with
  | Some _ => compare left_ right_
  | None =>
      match left_, right_ with
      | Nop _, Nop _ => guard true
      | Block _ n1 l1 t1, Block _ n2 l2 t2 =>
          andThen (guard (bool_decide (n1 = n2) && bool_decide (t1 = t2)))
            (fold2 flexibleEqual l1 l2)
      | If _ c1 x1 y1 t1, If _ c2 x2 y2 t2 =>
          andThen (guard (bool_decide (t1 = t2)))
            (andThen (flexibleEqual c1 c2)
               (andThen (flexibleEqual x1 x2) (optFold2 flexibleEqual y1 y2)))
      | Break _ n1 v1 c1, Break _ n2 v2 c2 =>
          andThen (guard (bool_decide (n1 = n2)))
            (andThen (optFold2 flexibleEqual v1 v2) (optFold2 flexibleEqual c1 c2))
      | CallImport _ n1 l1 t1, CallImport _ n2 l2 t2 =>
          andThen (guard (bool_decide (n1 = n2) && bool_decide (t1 = t2)))
            (fold2 flexibleEqual l1 l2)
      | GetLocal _ i1 t1, GetLocal _ i2 t2 =>
          guard (bool_decide (i1 = i2) && bool_decide (t1 = t2))
      | GetGlobal _ n1 t1, GetGlobal _ n2 t2 =>
          guard (bool_decide (n1 = n2) && bool_decide (t1 = t2))
      | SetGlobal _ n1 v1, SetGlobal _ n2 v2 =>
          andThen (guard (bool_decide (n1 = n2))) (flexibleEqual v1 v2)
      | Load _ b1 s1 o1 al1 p1 t1, Load _ b2 s2 o2 al2 p2 t2 =>
          andThen
            (guard (bool_decide (b1 = b2) && bool_decide (s1 = s2)
                    && bool_decide (o1 = o2) && bool_decide (al1 = al2)
                    && bool_decide (t1 = t2)))
            (flexibleEqual p1 p2)
      | Store _ b1 o1 al1 p1 v1 t1, Store _ b2 o2 al2 p2 v2 t2 =>
          andThen
            (guard (bool_decide (b1 = b2) && bool_decide (o1 = o2)
                    && bool_decide (al1 = al2) && bool_decide (t1 = t2)))
            (andThen (flexibleEqual p1 p2) (flexibleEqual v1 v2))
      | Const _ v1, Const _ v2 => guard (bool_decide (v1 = v2))
      | Unary _ o1 v1 t1, Unary _ o2 v2 t2 =>
          andThen (guard (bool_decide (o1 = o2) && bool_decide (t1 = t2)))
            (flexibleEqual v1 v2)
      | Binary _ o1 l1 r1 t1, Binary _ o2 l2 r2 t2 =>
          andThen (guard (bool_decide (o1 = o2) && bool_decide (t1 = t2)))
            (andThen (flexibleEqual l1 l2) (flexibleEqual r1 r2))
      | Select _ x1 y1 c1 t1, Select _ x2 y2 c2 t2 =>
          andThen (guard (bool_decide (t1 = t2)))
            (andThen (flexibleEqual x1 x2)
               (andThen (flexibleEqual y1 y2) (flexibleEqual c1 c2)))
      | _, _ => guard false
      end
  end.

(** [Match::check]: compare seen to the pattern input, doing a special
    operation for our "wildcards".  The match starts with no slot
    ([assert(wildcards.size() == 0)]). *)
Definition check (pattern : Pattern) (seen : Expression) : bool * Wildcards :=
  flexibleEqual (input pattern) seen [].

End Match.

(** ** The driving visitor *)

(** The states of the loop of [visitExpression] on one node. *)
Inductive Phase :=
| TRY_HAND_RULES (curr : Expression)
| TRY_PATTERN_DB (curr : Expression)
| DONE (curr : Expression).

Section Visitor.

Context {Effects : Type}.
Variable EffectAnalyzer : Expression -> Effects.
Variable invalidates : Effects -> Effects -> bool.

(** [database->patternMap]: root expression id => list of all patterns for
    it.  The rules themselves (OptimizeInstructions.wast) are not part of
    the source unit; the pass is modelled for any database. *)
Variable patternMap : gmap ExpressionId (list Pattern).

(** The [for] loop over the patterns of one id: the first pattern that
    matches is applied. *)
Fixpoint tryPatterns (patterns : list Pattern) (curr : Expression)
  : M (option Expression) :=
  match patterns with
  | [] => ret None
  | pattern :: patterns' =>
      let '(matched, wildcards) := Match.check pattern curr in
      if matched
      then e <- Match.apply pattern wildcards ;; ret (Some e)
      else tryPatterns patterns' curr
  end.

(** One pass through the body of the [while (1)] of [visitExpression],
    split at the point where the hand-coded rules have returned. *)
Definition visitStep (p : Phase) : M Phase :=
  match p with
  | TRY_HAND_RULES curr =>
      handOptimized <- handOptimize EffectAnalyzer invalidates curr ;;
      match handOptimized with
      | Replace e => ret (TRY_HAND_RULES e)     (* curr = handOptimized; continue *)
      | Keep curr' => ret (TRY_PATTERN_DB curr')
      end
  | TRY_PATTERN_DB curr =>
      match patternMap !! _id curr with
      | None => ret (DONE curr)                 (* return *)
      | Some patterns =>
          more <- tryPatterns patterns curr ;;
          match more with
          | Some e => ret (TRY_HAND_RULES e)    (* back to the main while loop *)
          | None => ret (DONE curr)             (* if (!more) break *)
          end
      end
  | DONE curr => ret (DONE curr)
  end.

(** The loop, with fuel: the C++ loop has no bound of its own ("patterns
    must not have cycles"). *)
Fixpoint visitLoop (fuel : nat) (p : Phase) : M Expression :=
  match p with
  | DONE curr => ret curr
  | _ =>
      match fuel with
      | O => raise OutOfFuel
      | S fuel' => p' <- visitStep p ;; visitLoop fuel' p'
      end
  end.

(** [n] passes through the body of the loop, from a phase: the phase and
    the arena that the visitor has reached then, when none of the passes
    has stopped. *)
Fixpoint visitSteps (n : nat) (p : Phase) : M Phase :=
  match n with
  | O => ret p
  | S n' => p' <- visitStep p ;; visitSteps n' p'
  end.

(** [OptimizeInstructions::visitExpression]; the result is the node that
    the slot of the walker holds when the visit is over. *)
Definition visitExpression (fuel : nat) (curr : Expression) : M Expression :=
  visitLoop fuel (TRY_HAND_RULES curr).

(** Modelled from the spec: the walker ([PostWalker], wasm-traversal.h) is
    not part of the source unit.  It "visits every instruction in a function
    (post-order)", "so children are already fixpointed before their parent
    is visited"; what a visit leaves in a child slot is what the parent
    sees. *)
Fixpoint walk (fuel : nat) (e : Expression) : M Expression :=
  let visit := visitExpression fuel in
  let walk' := walk fuel in
  match e with
  | Nop _ | GetLocal _ _ _ | GetGlobal _ _ _ | Const _ _ => visit e
  | Block a n l t => l' <- mapM walk' l ;; visit (Block a n l' t)
  | If a c x y t =>
      c' <- walk' c ;; x' <- walk' x ;; y' <- optM walk' y ;;
      visit (If a c' x' y' t)
  | Break a n v c =>
      v' <- optM walk' v ;; c' <- optM walk' c ;; visit (Break a n v' c')
  | CallImport a n l t => l' <- mapM walk' l ;; visit (CallImport a n l' t)
  | SetGlobal a n v => v' <- walk' v ;; visit (SetGlobal a n v')
  | Load a b s o al p t => p' <- walk' p ;; visit (Load a b s o al p' t)
  | Store a b o al p v t =>
      p' <- walk' p ;; v' <- walk' v ;; visit (Store a b o al p' v' t)
  | Unary a o v t => v' <- walk' v ;; visit (Unary a o v' t)
  | Binary a o l r t =>
      l' <- walk' l ;; r' <- walk' r ;; visit (Binary a o l' r' t)
  | Select a x y c t =>
      x' <- walk' x ;; y' <- walk' y ;; c' <- walk' c ;;
      visit (Select a x' y' c' t)
  end.

End Visitor.

(** ** The comparison operators, as the specification reads them

    A comparison is a numeric type, a relation and, for the ordered
    relations on integers, a signedness.  [negation] is the logical negation
    of a relation. *)
Inductive NumType := Int32 | Int64 | Float32 | Float64.
Inductive Relation := Equal | NotEqual | Less | LessEq | Greater | GreaterEq.
Inductive Signedness := Signed | Unsigned.

Definition negation (r : Relation) : Relation :=
  match r with
  | Equal => NotEqual
  | NotEqual => Equal
  | Less => GreaterEq
  | GreaterEq => Less
  | LessEq => Greater
  | Greater => LessEq
  end.

Definition comparisonOp (t : NumType) (r : Relation) (s : Signedness) : BinaryOp :=
  match t, r, s with
  | Int32, Equal, _ => EqInt32
  | Int32, NotEqual, _ => NeInt32
  | Int32, Less, Signed => LtSInt32
  | Int32, Less, Unsigned => LtUInt32
  | Int32, LessEq, Signed => LeSInt32
  | Int32, LessEq, Unsigned => LeUInt32
  | Int32, Greater, Signed => GtSInt32
  | Int32, Greater, Unsigned => GtUInt32
  | Int32, GreaterEq, Signed => GeSInt32
  | Int32, GreaterEq, Unsigned => GeUInt32
  | Int64, Equal, _ => EqInt64
  | Int64, NotEqual, _ => NeInt64
  | Int64, Less, Signed => LtSInt64
  | Int64, Less, Unsigned => LtUInt64
  | Int64, LessEq, Signed => LeSInt64
  | Int64, LessEq, Unsigned => LeUInt64
  | Int64, Greater, Signed => GtSInt64
  | Int64, Greater, Unsigned => GtUInt64
  | Int64, GreaterEq, Signed => GeSInt64
  | Int64, GreaterEq, Unsigned => GeUInt64
  | Float32, Equal, _ => EqFloat32
  | Float32, NotEqual, _ => NeFloat32
  | Float32, Less, _ => LtFloat32
  | Float32, LessEq, _ => LeFloat32
  | Float32, Greater, _ => GtFloat32
  | Float32, GreaterEq, _ => GeFloat32
  | Float64, Equal, _ => EqFloat64
  | Float64, NotEqual, _ => NeFloat64
  | Float64, Less, _ => LtFloat64
  | Float64, LessEq, _ => LeFloat64
  | Float64, Greater, _ => GtFloat64
  | Float64, GreaterEq, _ => GeFloat64
  end.

(** The comparisons through which the code pushes a negation: all the
    integer ones, and equality and inequality on floats. *)
Definition negationPushed (t : NumType) (r : Relation) : bool :=
  match t, r with
  | (Int32 | Int64), _ => true
  | _, (Equal | NotEqual) => true
  | _, _ => false
  end.

(** The shape on which sign-extend fusion fires, as the specification states
    it: [(load << k) >>s k] with both shift amounts the same [i32] constant
    [k], and the width of the load matching [k]. *)
Definition widthMatches (bytes k : Z) : Prop :=
  (bytes = 1 /\ k = 24) \/ (bytes = 2 /\ k = 16).

Definition shiftPair (a a1 a2 a3 : Addr) (load : Expression) (k1 k2 : Literal)
    (ty1 ty : WasmType) : Expression :=
  Binary a ShrSInt32 (Binary a1 ShlInt32 load (Const a2 k1) ty1) (Const a3 k2) ty.

Inductive SignExtendFusible : Expression -> Expression -> Prop :=
| fusible a a1 a2 a3 ty1 ty k la bytes s off al p lty :
    widthMatches bytes k ->
    SignExtendFusible
      (shiftPair a a1 a2 a3 (Load la bytes s off al p lty) (Lit i32 k) (Lit i32 k) ty1 ty)
      (Load la bytes s off al p lty).

(** [load->signed_ = true] *)
Definition markSigned (e : Expression) : Expression :=
  match e with
  | Load la bytes _ off al p lty => Load la bytes true off al p lty
  | _ => e
  end.

(** A constant that does not read as the [i32] zero, and an operand of an
    [i32] comparison that is no such constant. *)
Definition isZeroConst (e : Expression) : Prop :=
  exists a, e = Const a (Lit i32 0).

Definition notZeroOperand (e : Expression) : Prop :=
  forall a v, e = Const a v -> ltype v = i32 /\ bits v <> 0.

(** Sample nodes for the concrete cases below. *)
Definition sample_x : Expression := GetLocal 1%nat 0%nat i32.
Definition sample_y : Expression := GetLocal 2%nat 1%nat i32.
Definition sample_arena : Arena := MkArena 100%nat.
Definition noEffects (e : Expression) : unit := tt.
Definition neverInvalidates (a b : unit) : bool := false.
Definition alwaysInvalidates (a b : unit) : bool := true.

(** A node is settled for the visitor when the hand-coded rules return no
    replacement for it and no pattern registered for its kind matches it. *)
Definition noReplacement {Effects : Type} (EffectAnalyzer : Expression -> Effects)
    (invalidates : Effects -> Effects -> bool) (e : Expression) : Prop :=
  exists k, forall st, handOptimize EffectAnalyzer invalidates e st = Ok (Keep k, st).

Definition noPatternMatches (patternMap : gmap ExpressionId (list Pattern))
    (e : Expression) : Prop :=
  forall patterns, patternMap !! _id e = Some patterns ->
    Forall (fun pattern => (Match.check pattern e).1 = false) patterns.

(** A call that is not a well-formed wildcard: its operand count is not
    exactly one, or its single operand is not an [i32] constant. *)
Definition malformedOperands (operands : list Expression) : Prop :=
  length operands <> 1%nat
  \/ exists o, operands = [o] /\ (_id o <> ConstId \/ type_of o <> i32).

(** Conditions under four and under two is-zero tests. *)
Definition sample_eqz2 : Expression :=
  Unary 12%nat EqZInt32 (Unary 13%nat EqZInt32 sample_x i32) i32.
Definition sample_eqz4 : Expression :=
  Unary 10%nat EqZInt32 (Unary 11%nat EqZInt32 sample_eqz2 i32) i32.

(** The number of nodes of a tree. *)
Fixpoint size (e : Expression) : nat :=
  match e with
  | Nop _ | GetLocal _ _ _ | GetGlobal _ _ _ | Const _ _ => 1
  | Block _ _ l _ | CallImport _ _ l _ => S (foldr (fun x n => size x + n) 0 l)
  | If _ c x y _ => S (size c + size x + from_option size 0 y)
  | Break _ _ v c => S (from_option size 0 v + from_option size 0 c)
  | SetGlobal _ _ v | Unary _ _ v _ => S (size v)
  | Load _ _ _ _ _ p _ => S (size p)
  | Store _ _ _ _ p v _ => S (size p + size v)
  | Binary _ _ l r _ => S (size l + size r)
  | Select _ x y c _ => S (size x + size y + size c)
  end%nat.

(** The operand slots of a node, in order.  An optional operand that is
    absent is an empty slot. *)
Definition operandSlots (e : Expression) : list (option Expression) :=
  match e with
  | Nop _ | GetLocal _ _ _ | GetGlobal _ _ _ | Const _ _ => []
  | Block _ _ l _ | CallImport _ _ l _ => Some <$> l
  | If _ c x y _ => [Some c; Some x; y]
  | Break _ _ v c => [v; c]
  | SetGlobal _ _ v | Unary _ _ v _ => [Some v]
  | Load _ _ _ _ _ p _ => [Some p]
  | Store _ _ _ _ p v _ => [Some p; Some v]
  | Binary _ _ l r _ => [Some l; Some r]
  | Select _ x y c _ => [Some x; Some y; Some c]
  end.

(** [Refers i e]: the template [e] references the wildcard index [i], that
    is, a wildcard marker with index [i] sits in [e] at a place that the
    instantiator reaches (it does not look below a marker). *)
Inductive Refers (i : nat) : Expression -> Prop :=
| refers_here e ty :
    wildcardMarker e = Some (ty, i) -> Refers i e
| refers_operand e k c :
    wildcardMarker e = None ->
    operandSlots e !! k = Some (Some c) ->
    Refers i c ->
    Refers i e.

(** [Opposite i input seen s]: walking the pattern input and the candidate
    [seen] in lock-step, a wildcard marker with index [i] of the input
    stands opposite the subtree [s] of the candidate. *)
Inductive Opposite (i : nat) : Expression -> Expression -> Expression -> Prop :=
| opposite_here input seen ty :
    wildcardMarker input = Some (ty, i) -> Opposite i input seen seen
| opposite_operand input seen k ci cs s :
    wildcardMarker input = None ->
    _id input = _id seen ->
    operandSlots input !! k = Some (Some ci) ->
    operandSlots seen !! k = Some (Some cs) ->
    Opposite i ci cs s ->
    Opposite i input seen s.

(** The tree without the addresses of its nodes. *)
Fixpoint erase (e : Expression) : Expression :=
  match e with
  | Nop _ => Nop 0%nat
  | Block _ n l t => Block 0%nat n (map erase l) t
  | If _ c x y t => If 0%nat (erase c) (erase x) (option_map erase y) t
  | Break _ n v c => Break 0%nat n (option_map erase v) (option_map erase c)
  | CallImport _ n l t => CallImport 0%nat n (map erase l) t
  | GetLocal _ i t => GetLocal 0%nat i t
  | GetGlobal _ n t => GetGlobal 0%nat n t
  | SetGlobal _ n v => SetGlobal 0%nat n (erase v)
  | Load _ b s o al p t => Load 0%nat b s o al (erase p) t
  | Store _ b o al p v t => Store 0%nat b o al (erase p) (erase v) t
  | Const _ v => Const 0%nat v
  | Unary _ o v t => Unary 0%nat o (erase v) t
  | Binary _ o l r t => Binary 0%nat o (erase l) (erase r) t
  | Select _ x y c t => Select 0%nat (erase x) (erase y) (erase c) t
  end.

(** Bookkeeping for the matcher.  [extends w w']: every slot bound in [w]
    is bound to the same node in [w'].  [Sound m Q]: whenever the step [m]
    succeeds, it keeps the bound slots, every pair [(i, s)] of [Q] (an index
    and the subtree opposite a marker with that index) finds slot [i] bound
    to a tree equal to [s], and every newly bound slot is bound to a subtree
    of [Q]. *)
Definition extends (w w' : Match.Wildcards) : Prop :=
  forall i b, w !! i = Some (Some b) -> w' !! i = Some (Some b).

Definition Sound (m : Match.Matcher) (Q : nat -> Expression -> Prop) : Prop :=
  forall w w', m w = (true, w') ->
    extends w w'
    /\ (forall i s, Q i s -> exists b, w' !! i = Some (Some b) /\ equal s b = true)
    /\ (forall i b, w' !! i = Some (Some b) -> w !! i = Some (Some b) \/ Q i b).

(** The pattern [x - x]: both operands are the wildcard with index 0. *)
Definition sample_wildcard0 (a : Addr) : Expression :=
  CallImport a I32_EXPR [Const (S a) (Lit i32 0)] i32.
Definition sample_sub_pattern : Pattern :=
  MkPattern (Binary 0%nat SubInt32 (sample_wildcard0 1%nat) (sample_wildcard0 3%nat) i32)
            (Const 5%nat (Lit i32 0)).

(** ** The pattern database

    [PatternDatabase::PatternDatabase], the loop over the body of the
    function "patterns": every item of the body is a block whose first two
    elements are the input and the output of a pattern, and the pattern is
    appended to the list that the map holds for the [_id] of its input
    ([patternMap[id].emplace_back(...)], which starts from an empty list
    when the key is new).  The parser that produces the body is not part of
    the source unit; the loop is run here on a parsed body.  [cast<Block>]
    asserts, and reading [list[0]] or [list[1]] of a shorter block is
    outside what the C++ code defines: both give [None] here. *)
Definition addPattern (patternMap : gmap ExpressionId (list Pattern))
    (item : Expression) : option (gmap ExpressionId (list Pattern)) :=
  match item with
  | Block _ _ (pin :: pout :: _) _ =>
      Some (<[_id pin := default [] (patternMap !! _id pin) ++ [MkPattern pin pout]]>
              patternMap)
  | _ => None
  end.

Fixpoint addPatterns (patternMap : gmap ExpressionId (list Pattern))
    (items : list Expression) : option (gmap ExpressionId (list Pattern)) :=
  match items with
  | [] => Some patternMap
  | item :: items' =>
      match addPattern patternMap item with
      | Some patternMap' => addPatterns patternMap' items'
      | None => None
      end
  end.

Definition PatternDatabase_patternMap (body : Expression)
  : option (gmap ExpressionId (list Pattern)) :=
  match body with
  | Block _ _ list _ => addPatterns ∅ list
  | _ => None
  end.

(** The pattern that an item of the body stands for, and the patterns whose
    input has a given [_id], in the order of a list. *)
Definition pairPattern (item : Expression) : option Pattern :=
  match item with
  | Block _ _ (pin :: pout :: _) _ => Some (MkPattern pin pout)
  | _ => None
  end.

Definition patternsFor (k : ExpressionId) (patterns : list Pattern) : list Pattern :=
  filter (fun pattern => _id (input pattern) = k) patterns.

Definition nonEmpty {A} (l : list A) : option (list A) :=
  match l with
  | [] => None
  | _ => Some l
  end.

(** The invariant of a pattern: every wildcard index that its output
    references is referenced by its input. *)
Definition wellFormedPattern (pattern : Pattern) : Prop :=
  forall i, Refers i (output pattern) -> Refers i (input pattern).

(** More sample nodes and patterns: a set of a global, a pattern on
    additions that matches no subtraction, the pattern [clz x => x], and a
    body of two pairs as the parser hands it to the database. *)
Definition sample_set_self : Expression :=
  SetGlobal 2%nat "g" (GetGlobal 1%nat "g" i32).
Definition sample_zero : Expression := Const 2%nat (Lit i32 0).
Definition sample_sub (l r : Expression) : Expression :=
  Binary 7%nat SubInt32 l r i32.
Definition sample_add_pattern : Pattern :=
  MkPattern (Binary 0%nat AddInt32 (sample_wildcard0 1%nat) (sample_wildcard0 3%nat) i32)
            (Const 5%nat (Lit i32 0)).
Definition sample_clz_pattern : Pattern :=
  MkPattern (Unary 0%nat ClzInt32 (sample_wildcard0 1%nat) i32)
            (sample_wildcard0 5%nat).
Definition sample_dangling_pattern : Pattern :=
  MkPattern (Unary 0%nat ClzInt32 (sample_wildcard0 1%nat) i32)
            (CallImport 3%nat I32_EXPR [Const 4%nat (Lit i32 1)] i32).
Definition sample_eq_i64 : Expression :=
  Binary 3%nat EqInt32 sample_x (Const 2%nat (Lit i64 0)) i32.
Definition sample_body : Expression :=
  Block 0%nat "" [ Block 1%nat "" [input sample_sub_pattern; output sample_sub_pattern] none;
                   Block 2%nat "" [input sample_clz_pattern; output sample_clz_pattern] none;
                   Block 3%nat "" [input sample_add_pattern; output sample_add_pattern] none ]
        none.

(** A constant operand that [geti32] can read: when the node is a constant,
    it is an [i32] one.  [readsI32 curr]: the operands that the rules on a
    binary node may read as constants (its two operands and the right
    operand of its left operand) are of that kind, as they are in validated
    code for the [i32] operators. *)
Definition constI32 (e : Expression) : Prop :=
  forall a v, e = Const a v -> ltype v = i32.

Definition readsI32 (curr : Expression) : Prop :=
  match curr with
  | Binary _ _ l r _ =>
      constI32 l /\ constI32 r
      /\ match l with
         | Binary _ _ _ lr _ => constI32 lr
         | _ => True
         end
  | _ => True
  end.

(** * Properties *)

Ltac run :=
  repeat (unfold bind, ret, raise, geti32, makeUnary, alloc; simpl).

Section HandRules.

Context {Effects : Type}.
Variable EffectAnalyzer : Expression -> Effects.
Variable invalidates : Effects -> Effects -> bool.

Abbreviation hand := (handOptimize EffectAnalyzer invalidates).

(** C1 (as amended).  For every comparison [x OP y], with [OP] given by its
    numeric type, relation and signedness, the rule on [is-zero (x OP y)]
    returns the comparison node itself with [OP] replaced by its logical
    negation, when [OP] is an integer comparison (32 or 64 bit, signed or
    unsigned) or an equality or inequality of floats; no node is allocated.
    On the ordered comparisons of floats the rule does not fire and the node
    is left as it is. *)
Theorem deMorgan_negation_push (t : NumType) (r : Relation) (s : Signedness)
    (a ia : Addr) (x y : Expression) (ty ity : WasmType) (st : Arena) :
  hand (Unary a EqZInt32 (Binary ia (comparisonOp t r s) x y ity) ty) st
  = Ok (if negationPushed t r
        then Replace (Binary ia (comparisonOp t (negation r) s) x y ity)
        else Keep (Unary a EqZInt32 (Binary ia (comparisonOp t r s) x y ity) ty),
        st).
Proof. destruct t, r, s; reflexivity. Qed.

(** Only the shift rule and the zero-comparison rule act on a binary node. *)
Lemma hand_Binary_other a op l r ty st :
  op <> ShrSInt32 -> op <> EqInt32 ->
  hand (Binary a op l r ty) st = Ok (Keep (Binary a op l r ty), st).
Proof. intros H1 H2. destruct op; try congruence; destruct r; reflexivity. Qed.

(** When sign-extend fusion fires the node has the shape of the
    specification, and the result is the load of that shape, marked. *)
Lemma hand_fusion_inv curr st e st' :
  hand curr st = Ok (Replace e, st') -> _id e = LoadId ->
  exists load, SignExtendFusible curr load /\ e = markSigned load /\ st' = st.
Proof.
  intros H He. destruct curr as
    [a|a n l t|a c x y t|a n v c|a n l t|a i t|a n t|a n v|a b s o al p t
    |a b o al p v t|a v|a op v t|a op l r t|a x y c t].
  all: try (simpl in H; run; simpl in H; discriminate).
  - (* If *) simpl in H. destruct y, (optimizeBoolean c) as
      [| | | | | | | | | | |? [] ? ?| |]; discriminate.
  - (* Break *) simpl in H. destruct c; discriminate.
  - (* SetGlobal *) simpl in H. destruct v; try discriminate.
    destruct (bool_decide _); discriminate.
  - (* Unary *)
    destruct op; try discriminate; destruct v; try discriminate.
    simpl in H. destruct op; inversion H; subst; discriminate.
  - (* Binary *)
    destruct (decide (op = ShrSInt32)) as [->|Hs].
    + destruct r as [| | | | | | | | | |ar [rt k]| | |]; try discriminate.
      revert H. unfold handOptimize. run.
      destruct (decide (rt = i32)) as [->|]; [|discriminate]. simpl.
      destruct (bool_decide (k = 24) || bool_decide (k = 16)) eqn:Hk;
        [|discriminate].
      destruct l as [| | | | | | | | | | | |al lop ll lr lt|]; try discriminate.
      destruct lop; try discriminate.
      destruct lr as [| | | | | | | | | |alr [lrt k']| | |]; try discriminate.
      run. destruct (decide (lrt = i32)) as [->|]; [|discriminate]. simpl.
      destruct (bool_decide (k' = k)) eqn:Hkk; [|discriminate].
      apply bool_decide_eq_true in Hkk. subst k'.
      destruct ll as [| | | | | | | |la bytes sg off aln p lty| | | | |];
        try discriminate.
      destruct (bool_decide (bytes = 1) && bool_decide (k = 24)
                || bool_decide (bytes = 2) && bool_decide (k = 16)) eqn:Hw;
        [|discriminate].
      intros H. inversion H; subst.
      exists (Load la bytes sg off aln p lty). split; [|split; reflexivity].
      constructor. unfold widthMatches.
      repeat case_bool_decide; simpl in Hw; try discriminate; lia.
    + destruct (decide (op = EqInt32)) as [->|Hq].
      * revert H. unfold handOptimize.
        destruct r, l; run;
          repeat (destruct (decide _); simpl; try discriminate);
          repeat (destruct (bool_decide _); simpl; try discriminate);
          intros H; inversion H; subst; discriminate.
      * rewrite hand_Binary_other in H by assumption. discriminate.
  - (* Select *) simpl in H. destruct (optimizeBoolean c) as
      [| | | | | | | | | | |? [] ? ?| |]; try discriminate.
    destruct (negb _); discriminate.
Qed.

(** C2.  Sign-extend fusion fires, which is to say [handOptimize] returns a
    load, exactly when the node is [(load << k) >>s k] with both shift
    amounts the same [i32] constant [k], [k] being 24 for a load of 1 byte
    or 16 for a load of 2 bytes; the node returned is then that load, marked
    sign-extending.  On the same shape with a width that does not match [k]
    (such as a 1-byte load shifted by 16) the rule returns nothing and the
    node is left as it is. *)
Theorem signExtend_fusion_exactly (curr : Expression) (st : Arena) :
  (forall e st',
     (hand curr st = Ok (Replace e, st') /\ _id e = LoadId)
     <-> (exists load,
            SignExtendFusible curr load /\ e = markSigned load /\ st' = st))
  /\ (forall a a1 a2 a3 ty1 ty k la bytes s off al p lty,
        curr = shiftPair a a1 a2 a3 (Load la bytes s off al p lty)
                 (Lit i32 k) (Lit i32 k) ty1 ty ->
        ~ widthMatches bytes k ->
        hand curr st = Ok (Keep curr, st)).
Proof.
  split.
  - intros e st'. split.
    + intros [H He]. eapply hand_fusion_inv; eauto.
    + intros (load & Hf & -> & ->). destruct Hf as
        [a a1 a2 a3 ty1 ty k la bytes s off al p lty Hw].
      split; [|reflexivity].
      unfold shiftPair, handOptimize. run.
      destruct Hw as [[-> ->]|[-> ->]]; reflexivity.
  - intros a a1 a2 a3 ty1 ty k la bytes s off al p lty -> Hw.
    unfold shiftPair, handOptimize. run.
    destruct (bool_decide (k = 24) || bool_decide (k = 16)) eqn:Hk;
      [|reflexivity].
    rewrite bool_decide_eq_true_2 by reflexivity.
    destruct (bool_decide (bytes = 1) && bool_decide (k = 24)
              || bool_decide (bytes = 2) && bool_decide (k = 16)) eqn:Hm;
      [|reflexivity].
    exfalso. apply Hw. unfold widthMatches.
    repeat case_bool_decide; simpl in Hm; try discriminate; lia.
Qed.

(** C10.  When sign-extend fusion fires, the node returned is the load that
    was the operand of the left shift: it has the same address, byte width,
    offset, alignment, address operand and type, its signedness flag is now
    set, and the arena is as before, so no node was allocated. *)
Theorem signExtend_fusion_frame (curr e : Expression) (st st' : Arena) :
  hand curr st = Ok (Replace e, st') -> _id e = LoadId ->
  exists a a1 a2 a3 ty1 ty k1 k2 la bytes s off al p lty,
    curr = shiftPair a a1 a2 a3 (Load la bytes s off al p lty) k1 k2 ty1 ty
    /\ e = Load la bytes true off al p lty
    /\ self_of e = la
    /\ st' = st.
Proof.
  intros H He. destruct (hand_fusion_inv _ _ _ _ H He) as (load & Hf & -> & ->).
  destruct Hf. repeat eexists.
Qed.

(** C6 (as amended).  On a 32-bit integer equality whose right operand is
    the constant zero the rule returns a fresh is-zero test of the left
    operand; when the right operand is no such constant and the left operand
    is the constant zero, it returns a fresh is-zero test of the right
    operand.  The operand is taken over as it is, and the comparison and the
    constant are dropped. *)
Theorem zero_comparison_canonical (a : Addr) (x y : Expression) (ty : WasmType)
    (st : Arena) :
  (isZeroConst y ->
   hand (Binary a EqInt32 x y ty) st
   = Ok (Replace (Unary (next st) EqZInt32 x i32), MkArena (S (next st))))
  /\ (isZeroConst x -> notZeroOperand y ->
      hand (Binary a EqInt32 x y ty) st
      = Ok (Replace (Unary (next st) EqZInt32 y i32), MkArena (S (next st)))).
Proof.
  split.
  - intros [ay ->]. reflexivity.
  - intros [ax ->] Hy. unfold handOptimize. run.
    destruct y; try reflexivity.
    destruct (Hy _ _ eq_refl) as [Ht Hb]. destruct value as [vt vb].
    simpl in *. subst vt. simpl.
    rewrite bool_decide_eq_false_2 by assumption. reflexivity.
Qed.

(** C7.  For a select whose condition, once normalized, is [is-zero c]: when
    the analyzer says that the effects of the first value operand invalidate
    those of the second, the select keeps its operands and its (normalized)
    condition; when it says they do not, the select gets the condition [c]
    and its two value operands are swapped.  In both cases the change is
    made in place and nothing is returned. *)
Theorem select_flip_guarded (a ac : Addr) (ifTrue ifFalse condition c : Expression)
    (ty tyc : WasmType) (st : Arena) :
  optimizeBoolean condition = Unary ac EqZInt32 c tyc ->
  (invalidates (EffectAnalyzer ifTrue) (EffectAnalyzer ifFalse) = true ->
   hand (Select a ifTrue ifFalse condition ty) st
   = Ok (Keep (Select a ifTrue ifFalse (Unary ac EqZInt32 c tyc) ty), st))
  /\ (invalidates (EffectAnalyzer ifTrue) (EffectAnalyzer ifFalse) = false ->
      hand (Select a ifTrue ifFalse condition ty) st
      = Ok (Keep (Select a ifFalse ifTrue c ty), st)).
Proof.
  intros Hc. unfold handOptimize. rewrite Hc.
  split; intros ->; reflexivity.
Qed.

End HandRules.

(** C1 (as stated) fails: [is-zero (x <f32 y)] is not rewritten to
    [x >=f32 y]; the rule returns no replacement. *)
Lemma deMorgan_float_less_not_pushed :
  handOptimize noEffects neverInvalidates
    (Unary 4%nat EqZInt32 (Binary 3%nat (comparisonOp Float32 Less Signed)
                             sample_x sample_y i32) i32) sample_arena
  <> Ok (Replace (Binary 3%nat (comparisonOp Float32 (negation Less) Signed)
                    sample_x sample_y i32), sample_arena)
  /\ handOptimize noEffects neverInvalidates
       (Unary 4%nat EqZInt32 (Binary 3%nat LtFloat32 sample_x sample_y i32) i32)
       sample_arena
     = Ok (Keep (Unary 4%nat EqZInt32
                   (Binary 3%nat LtFloat32 sample_x sample_y i32) i32),
           sample_arena).
Proof. split; [discriminate | reflexivity]. Qed.

Lemma signExtend_fusion_exactly_witness :
  SignExtendFusible
    (shiftPair 5%nat 4%nat 3%nat 2%nat
       (Load 1%nat 1 false 0 1 sample_x i32) (Lit i32 24) (Lit i32 24) i32 i32)
    (Load 1%nat 1 false 0 1 sample_x i32)
  /\ handOptimize noEffects neverInvalidates
       (shiftPair 5%nat 4%nat 3%nat 2%nat
          (Load 1%nat 1 false 0 1 sample_x i32) (Lit i32 24) (Lit i32 24) i32 i32)
       sample_arena
     = Ok (Replace (Load 1%nat 1 true 0 1 sample_x i32), sample_arena)
  /\ ~ widthMatches 1 16
  /\ handOptimize noEffects neverInvalidates
       (shiftPair 5%nat 4%nat 3%nat 2%nat
          (Load 1%nat 1 false 0 1 sample_x i32) (Lit i32 16) (Lit i32 16) i32 i32)
       sample_arena
     = Ok (Keep (shiftPair 5%nat 4%nat 3%nat 2%nat
                   (Load 1%nat 1 false 0 1 sample_x i32)
                   (Lit i32 16) (Lit i32 16) i32 i32), sample_arena).
Proof.
  assert (F : SignExtendFusible
    (shiftPair 5%nat 4%nat 3%nat 2%nat
       (Load 1%nat 1 false 0 1 sample_x i32) (Lit i32 24) (Lit i32 24) i32 i32)
    (Load 1%nat 1 false 0 1 sample_x i32))
    by (constructor; left; split; reflexivity).
  assert (W : ~ widthMatches 1 16) by (unfold widthMatches; lia).
  split; [exact F|]. split; [|split; [exact W|]].
  - apply (proj1 (signExtend_fusion_exactly noEffects neverInvalidates _ sample_arena)).
    exists (Load 1%nat 1 false 0 1 sample_x i32).
    split; [exact F | split; reflexivity].
  - eapply (proj2 (signExtend_fusion_exactly noEffects neverInvalidates _ sample_arena));
      [reflexivity | exact W].
Defined.

Lemma signExtend_fusion_frame_witness :
  handOptimize noEffects neverInvalidates
    (shiftPair 5%nat 4%nat 3%nat 2%nat
       (Load 1%nat 2 false 8 2 sample_x i32) (Lit i32 16) (Lit i32 16) i32 i32)
    sample_arena
  = Ok (Replace (Load 1%nat 2 true 8 2 sample_x i32), sample_arena)
  /\ _id (Load 1%nat 2 true 8 2 sample_x i32) = LoadId
  /\ exists a a1 a2 a3 ty1 ty k1 k2 la bytes s off al p lty,
       shiftPair 5%nat 4%nat 3%nat 2%nat
         (Load 1%nat 2 false 8 2 sample_x i32) (Lit i32 16) (Lit i32 16) i32 i32
       = shiftPair a a1 a2 a3 (Load la bytes s off al p lty) k1 k2 ty1 ty
       /\ Load 1%nat 2 true 8 2 sample_x i32 = Load la bytes true off al p lty
       /\ self_of (Load 1%nat 2 true 8 2 sample_x i32) = la
       /\ sample_arena = sample_arena.
Proof.
  split; [reflexivity|]. split; [reflexivity|].
  apply (signExtend_fusion_frame noEffects neverInvalidates _ _ sample_arena);
    reflexivity.
Defined.

(** C6 (as stated) fails: the 64-bit equality [x == 0] is an equality
    comparison with the integer constant zero on one side, and the rule
    leaves it as it is. *)
Lemma zero_comparison_i64_untouched :
  handOptimize noEffects neverInvalidates
    (Binary 3%nat (comparisonOp Int64 Equal Signed)
       (GetLocal 1%nat 0%nat i64) (Const 2%nat (Lit i64 0)) i32) sample_arena
  = Ok (Keep (Binary 3%nat EqInt64
                (GetLocal 1%nat 0%nat i64) (Const 2%nat (Lit i64 0)) i32),
        sample_arena).
Proof. reflexivity. Qed.

Lemma zero_comparison_canonical_witness :
  isZeroConst (Const 2%nat (Lit i32 0))
  /\ notZeroOperand sample_y
  /\ handOptimize noEffects neverInvalidates
       (Binary 3%nat EqInt32 sample_x (Const 2%nat (Lit i32 0)) i32) sample_arena
     = Ok (Replace (Unary 100%nat EqZInt32 sample_x i32), MkArena 101%nat)
  /\ handOptimize noEffects neverInvalidates
       (Binary 3%nat EqInt32 (Const 2%nat (Lit i32 0)) sample_y i32) sample_arena
     = Ok (Replace (Unary 100%nat EqZInt32 sample_y i32), MkArena 101%nat).
Proof.
  assert (Z0 : isZeroConst (Const 2%nat (Lit i32 0))) by (eexists; reflexivity).
  assert (NZ : notZeroOperand sample_y) by (intros a v E; discriminate E).
  split; [exact Z0|split; [exact NZ|split]].
  - exact (proj1 (zero_comparison_canonical noEffects neverInvalidates
                    3%nat sample_x (Const 2%nat (Lit i32 0)) i32 sample_arena) Z0).
  - exact (proj2 (zero_comparison_canonical noEffects neverInvalidates
                    3%nat (Const 2%nat (Lit i32 0)) sample_y i32 sample_arena) Z0 NZ).
Defined.

Lemma select_flip_guarded_witness :
  optimizeBoolean (Unary 3%nat EqZInt32 sample_x i32) = Unary 3%nat EqZInt32 sample_x i32
  /\ alwaysInvalidates (noEffects sample_x) (noEffects sample_y) = true
  /\ handOptimize noEffects alwaysInvalidates
       (Select 4%nat sample_x sample_y (Unary 3%nat EqZInt32 sample_x i32) i32)
       sample_arena
     = Ok (Keep (Select 4%nat sample_x sample_y (Unary 3%nat EqZInt32 sample_x i32) i32),
           sample_arena)
  /\ neverInvalidates (noEffects sample_x) (noEffects sample_y) = false
  /\ handOptimize noEffects neverInvalidates
       (Select 4%nat sample_x sample_y (Unary 3%nat EqZInt32 sample_x i32) i32)
       sample_arena
     = Ok (Keep (Select 4%nat sample_y sample_x sample_x i32), sample_arena).
Proof.
  split; [reflexivity|]. split; [reflexivity|]. split; [|split; [reflexivity|]].
  - exact (proj1 (select_flip_guarded noEffects alwaysInvalidates 4%nat 3%nat
                    sample_x sample_y (Unary 3%nat EqZInt32 sample_x i32)
                    sample_x i32 i32 sample_arena eq_refl) eq_refl).
  - exact (proj2 (select_flip_guarded noEffects neverInvalidates 4%nat 3%nat
                    sample_x sample_y (Unary 3%nat EqZInt32 sample_x i32)
                    sample_x i32 i32 sample_arena eq_refl) eq_refl).
Defined.

Section HandRulesShape.

Context {Effects : Type}.
Variable EffectAnalyzer : Expression -> Effects.
Variable invalidates : Effects -> Effects -> bool.

Abbreviation hand := (handOptimize EffectAnalyzer invalidates).

(** On binary and unary nodes a rule that returns nothing has changed
    nothing, whatever the arena. *)
Lemma hand_Keep_Binary a op l r ty st e st' :
  hand (Binary a op l r ty) st = Ok (Keep e, st') ->
  e = Binary a op l r ty /\ st' = st
  /\ forall st2, hand (Binary a op l r ty) st2 = Ok (Keep (Binary a op l r ty), st2).
Proof.
  destruct (decide (op = ShrSInt32)) as [->|Hs];
    [|destruct (decide (op = EqInt32)) as [->|Hq]].
  - unfold handOptimize.
    destruct r as [| | | | | | | | | |ar [rt k]| | |];
      try solve [intros H; inversion H; subst; auto].
    run. destruct (decide (rt = i32)) as [->|]; [|discriminate]. simpl.
    destruct (bool_decide (k = 24) || bool_decide (k = 16));
      [|intros H; inversion H; subst; auto].
    destruct l as [| | | | | | | | | | | |al lop ll lr lt|];
      try solve [intros H; inversion H; subst; auto].
    destruct lop; try solve [intros H; inversion H; subst; auto].
    destruct lr as [| | | | | | | | | |alr [lrt k']| | |];
      try solve [intros H; inversion H; subst; auto].
    run. destruct (decide (lrt = i32)) as [->|]; [|discriminate]. simpl.
    destruct (bool_decide (k' = k)); [|intros H; inversion H; subst; auto].
    destruct ll; try solve [intros H; inversion H; subst; auto].
    destruct (bool_decide (bytes = 1) && bool_decide (k = 24)
              || bool_decide (bytes = 2) && bool_decide (k = 16));
      [discriminate|intros H; inversion H; subst; auto].
  - unfold handOptimize.
    destruct r, l; run;
      repeat (destruct (decide _); simpl; try discriminate);
      repeat (destruct (bool_decide _); simpl; try discriminate);
      intros H; inversion H; subst; auto.
  - rewrite hand_Binary_other by assumption.
    intros H; inversion H; subst.
    repeat split; intros; apply hand_Binary_other; assumption.
Qed.

Lemma hand_Keep_Unary a op v ty st e st' :
  hand (Unary a op v ty) st = Ok (Keep e, st') ->
  e = Unary a op v ty /\ st' = st
  /\ forall st2, hand (Unary a op v ty) st2 = Ok (Keep (Unary a op v ty), st2).
Proof.
  unfold handOptimize.
  destruct op; try solve [intros H; inversion H; subst; auto].
  destruct v; try solve [intros H; inversion H; subst; auto].
  destruct op; run; try discriminate; intros H; inversion H; subst; auto.
Qed.

(** On every other kind of node the rules return nothing, and the node they
    leave is of a kind other than binary and unary. *)
Lemma hand_inplace curr :
  _id curr <> BinaryId -> _id curr <> UnaryId ->
  exists e, (forall st, hand curr st = Ok (Keep e, st))
            /\ _id e <> BinaryId /\ _id e <> UnaryId.
Proof.
  intros Hb Hu. destruct curr as
    [a|a n l t|a c x y t|a n v c|a n l t|a i t|a n t|a n v|a b s o al p t
    |a b o al p v t|a v|a op v t|a op l r t|a x y c t];
    try (eexists; split; [intros; reflexivity|split; discriminate]);
    try (simpl in Hb, Hu; congruence).
  - (* If *) simpl. destruct y, (optimizeBoolean c) as
      [| | | | | | | | | | |? [] ? ?| |];
      (eexists; split; [intros; reflexivity|split; discriminate]).
  - (* Break *) simpl. destruct c;
      (eexists; split; [intros; reflexivity|split; discriminate]).
  - (* SetGlobal *) simpl. destruct v;
      try (eexists; split; [intros; reflexivity|split; discriminate]).
    destruct (bool_decide _);
      (eexists; split; [intros; reflexivity|split; discriminate]).
  - (* Select *) simpl. destruct (optimizeBoolean c) as
      [| | | | | | | | | | |? [] ? ?| |];
      try (eexists; split; [intros; reflexivity|split; discriminate]).
    destruct (negb _);
      (eexists; split; [intros; reflexivity|split; discriminate]).
Qed.

(** The rules return a node only on binary and unary nodes. *)
Lemma hand_Replace_kind curr st e st' :
  hand curr st = Ok (Replace e, st') ->
  _id curr = BinaryId \/ _id curr = UnaryId.
Proof.
  intros H.
  destruct (decide (_id curr = BinaryId)) as [|Hb]; [auto|].
  destruct (decide (_id curr = UnaryId)) as [|Hu]; [auto|].
  destruct (hand_inplace curr Hb Hu) as (k & Hk & _).
  rewrite Hk in H. discriminate.
Qed.

(** A node that the rules have kept is a node on which they return nothing
    again. *)
Lemma hand_Keep_settled curr st e st' :
  hand curr st = Ok (Keep e, st') ->
  exists k, forall st2, hand e st2 = Ok (Keep k, st2).
Proof.
  intros H.
  destruct (decide (_id curr = BinaryId)) as [Eb|Hb].
  { destruct curr; try discriminate.
    destruct (hand_Keep_Binary _ _ _ _ _ _ _ _ H) as (-> & _ & Hs). eauto. }
  destruct (decide (_id curr = UnaryId)) as [Eu|Hu].
  { destruct curr; try discriminate.
    destruct (hand_Keep_Unary _ _ _ _ _ _ _ H) as (-> & _ & Hs). eauto. }
  destruct (hand_inplace curr Hb Hu) as (k & Hk & Hkb & Hku).
  rewrite Hk in H. inversion H; subst.
  destruct (hand_inplace e Hkb Hku) as (k' & Hk' & _). eauto.
Qed.

Lemma size_pos e : (0 < size e)%nat.
Proof. destruct e; simpl; lia. Qed.

(** A node that the rules return is smaller than the node they were run
    on. *)
Lemma hand_Replace_smaller curr st e st' :
  hand curr st = Ok (Replace e, st') -> (size e < size curr)%nat.
Proof.
  intros H. destruct (hand_Replace_kind _ _ _ _ H) as [Hk|Hk];
    destruct curr as
      [a|a n l t|a c x y t|a n v c|a n l t|a i t|a n t|a n v|a b s o al p t
      |a b o al p v t|a v|a op v t|a op l r t|a x y c t]; try discriminate.
  - pose proof (size_pos l). pose proof (size_pos r).
    destruct (decide (op = ShrSInt32)) as [->|Hs];
      [|destruct (decide (op = EqInt32)) as [->|Hq]].
    + destruct (decide (_id e = LoadId)) as [He|He].
      * destruct (hand_fusion_inv _ _ _ _ _ _ H He) as (load & Hf & -> & _).
        inversion Hf; subst. simpl. lia.
      * exfalso. apply He. revert H. unfold handOptimize.
        destruct r as [| | | | | | | | | |ar [rt k]| | |]; try discriminate.
        run. destruct (decide (rt = i32)) as [->|]; [|discriminate]. simpl.
        destruct (bool_decide (k = 24) || bool_decide (k = 16)); [|discriminate].
        destruct l as [| | | | | | | | | | | |al lop ll lr lt|]; try discriminate.
        destruct lop; try discriminate.
        destruct lr as [| | | | | | | | | |alr [lrt k']| | |]; try discriminate.
        run. destruct (decide (lrt = i32)) as [->|]; [|discriminate]. simpl.
        destruct (bool_decide (k' = k)); [|discriminate].
        destruct ll; try discriminate.
        destruct (bool_decide (bytes = 1) && bool_decide (k = 24)
                  || bool_decide (bytes = 2) && bool_decide (k = 16));
          [|discriminate].
        intros H; inversion H; subst. reflexivity.
    + revert H. unfold handOptimize.
      destruct r, l; run;
        repeat (destruct (decide _); simpl; try discriminate);
        repeat (destruct (bool_decide _); simpl; try discriminate);
        intros H; inversion H; subst; simpl in *; lia.
    + rewrite hand_Binary_other in H by assumption. discriminate.
  - revert H. unfold handOptimize.
    destruct op; try discriminate. destruct v; try discriminate.
    destruct op; run; try discriminate; intros H; inversion H; subst; simpl; lia.
Qed.

(** The rules stop only on the assertion of [geti32]. *)
Lemma hand_failure curr st f :
  hand curr st = Fail f -> f = AssertionFailure.
Proof.
  destruct (decide (_id curr = BinaryId)) as [Eb|Hb].
  - destruct curr as [| | | | | | | | | | | |a op l r t|]; try discriminate.
    destruct (decide (op = ShrSInt32)) as [->|Hs];
      [|destruct (decide (op = EqInt32)) as [->|Hq]].
    + unfold handOptimize.
      destruct r as [| | | | | | | | | |ar [rt k]| | |]; try discriminate.
      run. destruct (decide (rt = i32)) as [->|]; [|congruence]. simpl.
      destruct (bool_decide (k = 24) || bool_decide (k = 16)); [|discriminate].
      destruct l as [| | | | | | | | | | | |al lop ll lr lt|]; try discriminate.
      destruct lop; try discriminate.
      destruct lr as [| | | | | | | | | |alr [lrt k']| | |]; try discriminate.
      run. destruct (decide (lrt = i32)) as [->|]; [|congruence]. simpl.
      destruct (bool_decide (k' = k)); [|discriminate].
      destruct ll; try discriminate.
      destruct (bool_decide (bytes = 1) && bool_decide (k = 24)
                || bool_decide (bytes = 2) && bool_decide (k = 16));
        discriminate.
    + unfold handOptimize.
      destruct r, l; run; try discriminate;
        repeat (destruct (decide _); simpl; try discriminate; try congruence);
        repeat (destruct (bool_decide _); simpl; try discriminate; try congruence).
    + rewrite hand_Binary_other by assumption. discriminate.
  - destruct (decide (_id curr = UnaryId)) as [Eu|Hu].
    + destruct curr as [| | | | | | | | | | |a op v t| |]; try discriminate.
      unfold handOptimize. destruct op; try discriminate.
      destruct v; try discriminate. destruct op; discriminate.
    + destruct (hand_inplace curr Hb Hu) as (k & Hk & _).
      rewrite Hk. discriminate.
Qed.

End HandRulesShape.

Section VisitorProperties.

Context {Effects : Type}.
Variable EffectAnalyzer : Expression -> Effects.
Variable invalidates : Effects -> Effects -> bool.
Variable patternMap : gmap ExpressionId (list Pattern).

Abbreviation hand := (handOptimize EffectAnalyzer invalidates).
Abbreviation step := (visitStep EffectAnalyzer invalidates patternMap).
Abbreviation loop := (visitLoop EffectAnalyzer invalidates patternMap).
Abbreviation visit := (visitExpression EffectAnalyzer invalidates patternMap).

(** C5 (as amended).  After the hand-coded rules have run on the current
    node: when they returned a node [e] (which happens on binary and unary
    nodes only: sign-extend fusion, zero comparison, De Morgan) the visitor
    makes it the current node and the rest of the visit is the visit of [e]
    from its start, so that the hand-coded rules run on [e], and what they
    give decides how the visit goes on, before the pattern database is
    consulted.  When they returned nothing, whether or not they changed the
    node in place (self-assignment elimination, if-arm flip, select flip,
    condition normalization), the visitor goes on to the pattern database
    with the node [e] as it now is, and the hand-coded rules are not run on
    [e]: the visit ends with [e] when no pattern matches it, and restarts
    from the hand-coded rules only on the instance of a pattern that
    does. *)
Theorem visitor_restarts_on_replacement (curr : Expression) (st : Arena)
    (fuel : nat) :
  match hand curr st with
  | Ok (Replace e, st') =>
      (_id curr = BinaryId \/ _id curr = UnaryId)
      /\ step (TRY_HAND_RULES curr) st = Ok (TRY_HAND_RULES e, st')
      /\ visit (S fuel) curr st = visit fuel e st'
      /\ visit (S (S fuel)) curr st
         = match hand e st' with
           | Ok (Replace e2, st2) => visit fuel e2 st2
           | Ok (Keep e2, st2) => loop fuel (TRY_PATTERN_DB e2) st2
           | Fail f => Fail f
           end
  | Ok (Keep e, st') =>
      step (TRY_HAND_RULES curr) st = Ok (TRY_PATTERN_DB e, st')
      /\ visit (S fuel) curr st = loop fuel (TRY_PATTERN_DB e) st'
      /\ visit (S (S fuel)) curr st
         = match patternMap !! _id e with
           | None => Ok (e, st')
           | Some patterns =>
               match tryPatterns patterns e st' with
               | Ok (Some e2, st2) => visit fuel e2 st2
               | Ok (None, st2) => Ok (e, st2)
               | Fail f => Fail f
               end
           end
  | Fail f =>
      step (TRY_HAND_RULES curr) st = Fail f
      /\ visit (S fuel) curr st = Fail f
  end.
Proof.
  assert (Hs : visit (S fuel) curr st
               = match step (TRY_HAND_RULES curr) st with
                 | Ok (p, st') => loop fuel p st'
                 | Fail f => Fail f
                 end) by reflexivity.
  assert (Hss : visit (S (S fuel)) curr st
               = match step (TRY_HAND_RULES curr) st with
                 | Ok (p, st') => loop (S fuel) p st'
                 | Fail f => Fail f
                 end) by reflexivity.
  assert (Hstep : step (TRY_HAND_RULES curr) st
                  = match hand curr st with
                    | Ok (Replace e, st') => Ok (TRY_HAND_RULES e, st')
                    | Ok (Keep e, st') => Ok (TRY_PATTERN_DB e, st')
                    | Fail f => Fail f
                    end).
  { unfold visitStep, bind. destruct (hand curr st) as [[[e|e] st']|f];
      reflexivity. }
  rewrite Hs, Hss, Hstep. clear Hs Hss Hstep.
  destruct (hand curr st) as [[[e|e] st']|f] eqn:H.
  - split; [eapply hand_Replace_kind; eauto|].
    split; [reflexivity|]. split; [reflexivity|].
    cbn [visitLoop visitStep]. unfold bind.
    destruct (hand e st') as [[[e2|e2] st2]|f]; reflexivity.
  - split; [reflexivity|]. split; [reflexivity|].
    cbn [visitLoop visitStep].
    destruct (patternMap !! _id e) as [patterns|].
    + unfold bind.
      destruct (tryPatterns patterns e st') as [[[e2|] st2]|f];
        [reflexivity| |reflexivity].
      destruct fuel; reflexivity.
    + unfold bind, ret. destruct fuel; reflexivity.
  - split; reflexivity.
Qed.

Lemma tryPatterns_None patterns curr st st' :
  tryPatterns patterns curr st = Ok (None, st') ->
  Forall (fun pattern => (Match.check pattern curr).1 = false) patterns.
Proof.
  induction patterns as [|pattern patterns IH]; simpl; [constructor|].
  destruct (Match.check pattern curr) as [[] w] eqn:Hc.
  - unfold bind, ret. destruct (Match.apply _ _ _) as [[]|]; discriminate.
  - intros H. constructor; [rewrite Hc; reflexivity | auto].
Qed.

(** What is known of the node in each state of the loop. *)
Lemma visitLoop_settled fuel : forall p st e st',
  visitLoop EffectAnalyzer invalidates patternMap fuel p st = Ok (e, st') ->
  match p with
  | TRY_HAND_RULES _ => True
  | TRY_PATTERN_DB c => noReplacement EffectAnalyzer invalidates c
  | DONE c => noReplacement EffectAnalyzer invalidates c /\ noPatternMatches patternMap c
  end ->
  noReplacement EffectAnalyzer invalidates e /\ noPatternMatches patternMap e.
Proof.
  induction fuel as [|fuel IH]; intros p st e st' H Hp.
  - destruct p; simpl in H; try discriminate. inversion H; subst. exact Hp.
  - destruct p as [c|c|c]; simpl in H.
    + unfold bind in H.
      destruct (hand c st) as [[[e1|e1] st1]|f] eqn:Hh; try discriminate.
      * eapply IH; [exact H|exact I].
      * eapply IH; [exact H|]. simpl. eapply hand_Keep_settled; eauto.
    + unfold bind in H.
      destruct (patternMap !! _id c) as [patterns|] eqn:Hl.
      * unfold bind in H.
        destruct (tryPatterns patterns c st) as [[[e1|] st1]|f] eqn:Ht;
          try discriminate.
        -- eapply IH; [exact H|exact I].
        -- eapply IH; [exact H|]. simpl. split; [exact Hp|].
           intros ps Hps. rewrite Hl in Hps. inversion Hps; subst.
           eapply tryPatterns_None; eauto.
      * eapply IH; [exact H|]. simpl. split; [exact Hp|].
        intros ps Hps. rewrite Hl in Hps. discriminate.
    + inversion H; subst. exact Hp.
Qed.

Lemma tryPatterns_no_match patterns curr st :
  Forall (fun pattern => (Match.check pattern curr).1 = false) patterns ->
  tryPatterns patterns curr st = Ok (None, st).
Proof.
  induction 1 as [|pattern patterns Hp Hps IH]; simpl; [reflexivity|].
  destruct (Match.check pattern curr) as [[] w]; [discriminate|exact IH].
Qed.

(** C9 (as amended).  The node on which a visit ends is settled: the
    hand-coded rules return no replacement for it, and no pattern that the
    database holds for its kind matches it.  When, in addition, the rules
    that work in place leave that node as it is, visiting it again gives it
    back unchanged.  (The rules that work in place are run once per visit
    and may fire again in a later run.) *)
Theorem visit_ends_settled (fuel : nat) (curr e : Expression) (st st' : Arena) :
  visitExpression EffectAnalyzer invalidates patternMap fuel curr st = Ok (e, st') ->
  noReplacement EffectAnalyzer invalidates e
  /\ noPatternMatches patternMap e
  /\ ((forall st2, hand e st2 = Ok (Keep e, st2)) ->
      forall st2,
        visitExpression EffectAnalyzer invalidates patternMap 2 e st2 = Ok (e, st2)).
Proof.
  intros H.
  destruct (visitLoop_settled _ _ _ _ _ H I) as [Hr Hp].
  split; [exact Hr|split; [exact Hp|]].
  intros Hk st2. unfold visitExpression. simpl. unfold bind.
  rewrite Hk. simpl. unfold bind.
  destruct (patternMap !! _id e) as [patterns|] eqn:Hl; [|reflexivity].
  rewrite (tryPatterns_no_match _ _ _ (Hp _ Hl)). reflexivity.
Qed.

End VisitorProperties.

(** Without patterns the visit of a node ends, or stops on a failed
    assertion, within as many rounds as the node has nodes (and one more to
    look into the database): the C++ loop terminates there. *)
Lemma visit_without_patterns_ends {Effects : Type}
    (EffectAnalyzer : Expression -> Effects)
    (invalidates : Effects -> Effects -> bool) (n : nat) :
  forall curr fuel st,
    (size curr <= n)%nat -> (n < fuel)%nat ->
    visitExpression EffectAnalyzer invalidates ∅ fuel curr st <> Fail OutOfFuel.
Proof.
  unfold visitExpression.
  induction n as [|n IH]; intros curr fuel st Hs Hf.
  - pose proof (size_pos curr). lia.
  - destruct fuel as [|fuel]; [lia|]. simpl. unfold bind.
    destruct (handOptimize EffectAnalyzer invalidates curr st)
      as [[[e|e] st1]|f] eqn:Hh.
    + apply hand_Replace_smaller in Hh. apply IH; lia.
    + destruct fuel as [|fuel]; [pose proof (size_pos curr); lia|].
      simpl. unfold bind. rewrite lookup_empty. simpl.
      destruct fuel; discriminate.
    + apply hand_failure in Hh. congruence.
Qed.

(** C5 (as stated) fails: self-assignment elimination changes the current
    node, into a no-op, and the visitor goes on to the pattern database; the
    hand-coded rules are not run again, and the visit is over after the two
    rounds of the loop, one for the rules and one for the database. *)
Lemma self_assignment_no_restart :
  handOptimize noEffects neverInvalidates
    (SetGlobal 2%nat "g" (GetGlobal 1%nat "g" i32)) sample_arena
  = Ok (Keep (Nop 2%nat), sample_arena)
  /\ Nop 2%nat <> SetGlobal 2%nat "g" (GetGlobal 1%nat "g" i32)
  /\ visitStep noEffects neverInvalidates ∅
       (TRY_HAND_RULES (SetGlobal 2%nat "g" (GetGlobal 1%nat "g" i32))) sample_arena
     = Ok (TRY_PATTERN_DB (Nop 2%nat), sample_arena)
  /\ visitStep noEffects neverInvalidates ∅
       (TRY_HAND_RULES (SetGlobal 2%nat "g" (GetGlobal 1%nat "g" i32))) sample_arena
     <> Ok (TRY_HAND_RULES (Nop 2%nat), sample_arena)
  /\ visitExpression noEffects neverInvalidates ∅ 2
       (SetGlobal 2%nat "g" (GetGlobal 1%nat "g" i32)) sample_arena
     = Ok (Nop 2%nat, sample_arena).
Proof. repeat split; (reflexivity || discriminate). Qed.

(** C9 (as stated) fails: on a conditional break whose condition is
    [x] under four is-zero tests, a first run of the optimizer (with an
    empty pattern database) leaves two of the tests, and a second run on
    that output removes them. *)
Lemma second_run_changes_break :
  walk noEffects neverInvalidates ∅ 4
    (Break 20%nat "out" None (Some sample_eqz4)) sample_arena
  = Ok (Break 20%nat "out" None (Some sample_eqz2), sample_arena)
  /\ walk noEffects neverInvalidates ∅ 4
       (Break 20%nat "out" None (Some sample_eqz2)) sample_arena
     = Ok (Break 20%nat "out" None (Some sample_x), sample_arena)
  /\ Break 20%nat "out" None (Some sample_x)
     <> Break 20%nat "out" None (Some sample_eqz2).
Proof. repeat split; (vm_compute; reflexivity) || discriminate. Qed.

Lemma visit_ends_settled_witness :
  visitExpression noEffects neverInvalidates ∅ 4
    (Unary 4%nat EqZInt32 (Binary 3%nat NeInt32 sample_x (Const 2%nat (Lit i32 0)) i32) i32)
    sample_arena
  = Ok (Unary 100%nat EqZInt32 sample_x i32, MkArena 101%nat)
  /\ noReplacement noEffects neverInvalidates (Unary 100%nat EqZInt32 sample_x i32)
  /\ noPatternMatches ∅ (Unary 100%nat EqZInt32 sample_x i32)
  /\ handOptimize noEffects neverInvalidates (Unary 100%nat EqZInt32 sample_x i32)
       sample_arena
     = Ok (Keep (Unary 100%nat EqZInt32 sample_x i32), sample_arena)
  /\ visitExpression noEffects neverInvalidates ∅ 2
       (Unary 100%nat EqZInt32 sample_x i32) sample_arena
     = Ok (Unary 100%nat EqZInt32 sample_x i32, sample_arena).
Proof.
  split; [vm_compute; reflexivity|].
  destruct (visit_ends_settled noEffects neverInvalidates ∅ 4
              (Unary 4%nat EqZInt32
                 (Binary 3%nat NeInt32 sample_x (Const 2%nat (Lit i32 0)) i32) i32)
              (Unary 100%nat EqZInt32 sample_x i32)
              sample_arena (MkArena 101%nat))
    as (H1 & H2 & H3); [vm_compute; reflexivity|].
  split; [exact H1|]. split; [exact H2|]. split; [reflexivity|].
  apply H3. intros st2. reflexivity.
Defined.

(** C8.  A call whose operand count is not exactly one, or whose single
    operand is not an [i32] constant, is never a wildcard, whatever its
    target (the five reserved names included): [Match::compare] answers
    false for every candidate and leaves the slots as they are,
    [Match::copy] returns no substitute, allocates nothing and does not
    fail, and the node is no wildcard marker, so that the matcher and the
    instantiator deal with it as with any call. *)
Theorem malformed_wildcard_is_ordinary (a : Addr) (target : Name)
    (operands : list Expression) (ty : WasmType) :
  malformedOperands operands ->
  (forall subSeen wildcards,
     Match.compare (CallImport a target operands ty) subSeen wildcards
     = (false, wildcards))
  /\ (forall wildcards st,
        Match.copy wildcards (CallImport a target operands ty) st = Ok (None, st))
  /\ wildcardMarker (CallImport a target operands ty) = None.
Proof.
  intros Hm.
  assert (Hc : wildcardCall (CallImport a target operands ty) = None).
  { destruct Hm as [Hl|(o & -> & Ho)].
    - destruct operands as [|o [|o' l]]; simpl in *; try congruence;
        destruct o; reflexivity.
    - destruct o; try reflexivity. simpl in *.
      destruct (decide _); [|reflexivity]. destruct Ho; congruence. }
  unfold Match.compare, Match.copy, wildcardMarker. rewrite Hc. auto.
Qed.

Lemma malformed_wildcard_is_ordinary_witness :
  malformedOperands [Const 1%nat (Lit i64 0)]
  /\ Match.compare (CallImport 2%nat I32_EXPR [Const 1%nat (Lit i64 0)] i32)
       sample_x [] = (false, [])
  /\ Match.copy [Some sample_x] (CallImport 2%nat I32_EXPR [Const 1%nat (Lit i64 0)] i32)
       sample_arena = Ok (None, sample_arena)
  /\ wildcardMarker (CallImport 2%nat I32_EXPR [Const 1%nat (Lit i64 0)] i32) = None.
Proof.
  assert (Hm : malformedOperands [Const 1%nat (Lit i64 0)])
    by (right; eexists; split; [reflexivity|right; discriminate]).
  split; [exact Hm|].
  destruct (malformed_wildcard_is_ordinary 2%nat I32_EXPR _ i32 Hm) as (H1 & H2 & H3).
  split; [apply H1|split; [apply H2|exact H3]].
Defined.

(** ** The instantiator *)

Lemma reserved_wildcardType target :
  bool_decide (target = I32_EXPR) || bool_decide (target = I64_EXPR)
  || bool_decide (target = F32_EXPR) || bool_decide (target = F64_EXPR)
  || bool_decide (target = ANY_EXPR)
  = match wildcardType target with Some _ => true | None => false end.
Proof.
  unfold wildcardType.
  destruct (decide (target = I32_EXPR)) as [->|N1]; [reflexivity|].
  destruct (decide (target = I64_EXPR)) as [->|N2]; [reflexivity|].
  destruct (decide (target = F32_EXPR)) as [->|N3]; [reflexivity|].
  destruct (decide (target = F64_EXPR)) as [->|N4]; [reflexivity|].
  destruct (decide (target = ANY_EXPR)) as [->|N5]; [reflexivity|].
  rewrite !bool_decide_eq_false_2 by assumption. reflexivity.
Qed.

Lemma copy_marker wildcards e ty i :
  wildcardMarker e = Some (ty, i) ->
  Match.copy wildcards e
  = match wildcards !! i with
    | Some slot => x <- ExpressionManipulator_copy slot ;; ret (Some x)
    | None => raise OutOfRange
    end.
Proof.
  unfold wildcardMarker, Match.copy.
  destruct (wildcardCall e) as [[target index]|]; [|discriminate].
  rewrite reserved_wildcardType.
  destruct (wildcardType target); [|discriminate].
  intros Heq; inversion Heq; subst. reflexivity.
Qed.

Lemma copy_not_marker wildcards e :
  wildcardMarker e = None -> Match.copy wildcards e = ret None.
Proof.
  unfold wildcardMarker, Match.copy.
  destruct (wildcardCall e) as [[target index]|]; [|reflexivity].
  rewrite reserved_wildcardType.
  destruct (wildcardType target); [discriminate|reflexivity].
Qed.

Lemma flexibleCopy_hook_fails custom e st f :
  custom e st = Fail f -> flexibleCopy custom e st = Fail f.
Proof. intros H. destruct e; simpl; unfold bind; rewrite H; reflexivity. Qed.

(** A sequence fails as soon as one of its steps does. *)
Ltac step_fails :=
  unfold bind;
  match goal with
  | IH : forall st, exists f, ?F ?c st = Fail f |- context [?F ?c ?s] =>
      let f := fresh "f" in let E := fresh "E" in
      destruct (IH s) as [f E]; rewrite E; eauto
  | |- context [match ?m ?s with Ok _ => _ | Fail _ => _ end] =>
      destruct (m s) as [[? ?]|?]; [|eauto]
  end.

Lemma mapM_step_fails {A B} (F : A -> M B) l k c :
  l !! k = Some c ->
  (forall st, exists f, F c st = Fail f) ->
  forall st, exists f, mapM F l st = Fail f.
Proof.
  revert k. induction l as [|x l IH]; intros k Hk Hc st; [discriminate|].
  simpl. unfold bind. destruct k as [|k]; simpl in Hk.
  - inversion Hk; subst. destruct (Hc st) as [f E]. rewrite E. eauto.
  - destruct (F x st) as [[y st1]|f]; [|eauto].
    destruct (IH k Hk Hc st1) as [f E]. rewrite E. eauto.
Qed.

(** The instantiator fails on a template that references an index beyond
    the slots of the match. *)
Lemma refers_beyond_fails wildcards i e :
  Refers i e -> (length wildcards <= i)%nat ->
  forall st, exists f, flexibleCopy (Match.copy wildcards) e st = Fail f.
Proof.
  intros Hr Hi. induction Hr as [e ty Hm|e k c Hm Hk Hr IH]; intros st.
  - exists OutOfRange. apply flexibleCopy_hook_fails.
    rewrite (copy_marker _ _ _ _ Hm).
    rewrite (lookup_ge_None_2 wildcards i) by lia. reflexivity.
  - pose proof (copy_not_marker wildcards e Hm) as Hn.
    destruct e; simpl in Hk; simpl; rewrite Hn; unfold bind at 1, ret at 1;
      try (rewrite list_lookup_fmap in Hk;
           destruct (_ !! k) as [c'|] eqn:Hl; [|discriminate];
           simpl in Hk; inversion Hk; subst c';
           unfold bind;
           destruct (mapM_step_fails _ _ _ _ Hl IH st) as [f E]; rewrite E; eauto);
      repeat (destruct k as [|k]; simpl in Hk; try discriminate);
      inversion Hk; subst; unfold optM; repeat step_fails.
Qed.

Lemma mapM_failures {A B} (F : A -> M B) (P : Failure -> Prop) l :
  Forall (fun x => forall st f, F x st = Fail f -> P f) l ->
  forall st f, mapM F l st = Fail f -> P f.
Proof.
  induction 1 as [|x l Hx Hl IH]; intros st f; simpl; [discriminate|].
  unfold bind. destruct (F x st) as [[y st1]|f1] eqn:E.
  - destruct (mapM F l st1) as [[ys st2]|f2] eqn:E2; [discriminate|].
    intros Hf; inversion Hf; subst. eauto.
  - intros Hf; inversion Hf; subst. eauto.
Qed.

Lemma optM_failures {A B} (F : A -> M B) (P : Failure -> Prop) o :
  OptAll (fun x => forall st f, F x st = Fail f -> P f) o ->
  forall st f, optM F o st = Fail f -> P f.
Proof.
  destruct o as [x|]; simpl; intros Hx st f; [|discriminate].
  unfold bind. destruct (F x st) as [[y st1]|f1] eqn:E; [discriminate|].
  intros Hf; inversion Hf; subst. eauto.
Qed.

Ltac failure_in_step :=
  unfold bind at 1; cbv beta;
  match goal with
  | |- match ?m ?s with Ok _ => _ | Fail _ => _ end = Fail _ -> _ =>
      let E := fresh "E" in let Hf := fresh "Hf" in
      destruct (m s) as [[? ?]|?] eqn:E;
      [|intros Hf; inversion Hf; subst;
        first [ solve [eauto]
              | revert E; apply mapM_failures; assumption
              | revert E; apply optM_failures; assumption ]]
  end.

(** The copier fails only where its hook does. *)
Lemma flexibleCopy_failures custom (P : Failure -> Prop) :
  (forall e st f, custom e st = Fail f -> P f) ->
  forall e st f, flexibleCopy custom e st = Fail f -> P f.
Proof.
  intros Hc e. induction e using Expression_nested_ind; intros st0 fl; simpl;
    unfold bind at 1;
    (destruct (custom _ st0) as [[[e'|] st1]|f1] eqn:Ec;
     [discriminate| |intros Hf; inversion Hf; subst; eauto]);
    repeat failure_in_step; unfold bind, alloc, ret; discriminate.
Qed.

Lemma plain_copy_total e st :
  exists e' st', ExpressionManipulator_copy (Some e) st = Ok (e', st').
Proof.
  simpl. destruct (flexibleCopy _ e st) as [[e' st']|f] eqn:E; [eauto|].
  exfalso. revert E. apply (flexibleCopy_failures _ (fun _ => False)).
  discriminate.
Qed.

Lemma Match_copy_failures wildcards e st f :
  Match.copy wildcards e st = Fail f ->
  f = OutOfRange \/ (f = NullSlot /\ None ∈ wildcards).
Proof.
  destruct (wildcardMarker e) as [[ty i]|] eqn:Hm.
  - rewrite (copy_marker _ _ _ _ Hm).
    destruct (wildcards !! i) as [[b|]|] eqn:Hl.
    + unfold bind. destruct (plain_copy_total b st) as (e' & st' & ->).
      discriminate.
    + intros Hf; inversion Hf; subst. right. split; [reflexivity|].
      eapply list_elem_of_lookup_2; eauto.
    + intros Hf; inversion Hf; subst. auto.
  - rewrite (copy_not_marker _ _ Hm). discriminate.
Qed.

(** ** Structural equality *)

Lemma all2_erase l1 :
  Forall (fun a => forall b, equal a b = true <-> erase a = erase b) l1 ->
  forall l2, all2 equal l1 l2 = true <-> map erase l1 = map erase l2.
Proof.
  induction 1 as [|x l1 Hx Hl IH]; intros [|y l2]; simpl;
    try (split; discriminate); [split; reflexivity|].
  rewrite andb_true_iff, Hx, IH. split.
  - intros [-> ->]. reflexivity.
  - intros E; inversion E; auto.
Qed.

Lemma opt2_erase o1 :
  OptAll (fun a => forall b, equal a b = true <-> erase a = erase b) o1 ->
  forall o2, opt2 equal o1 o2 = true <-> option_map erase o1 = option_map erase o2.
Proof.
  destruct o1 as [x|]; intros Hx [y|]; simpl in *;
    try (split; discriminate); [|split; reflexivity].
  rewrite Hx. split; [intros ->; reflexivity|intros E; inversion E; auto].
Qed.

(** Two trees are [equal] exactly when they are the same up to the
    addresses of their nodes. *)
Lemma equal_erase a : forall b, equal a b = true <-> erase a = erase b.
Proof.
  induction a using Expression_nested_ind; intros b'; destruct b'; simpl;
    try (split; discriminate);
    rewrite ?andb_true_iff, ?bool_decide_eq_true;
    repeat match goal with
           | IH : forall b, equal ?x b = true <-> _ |- _ => rewrite !IH; clear IH
           | IH : Forall _ _ |- _ => rewrite (all2_erase _ IH); clear IH
           | IH : OptAll _ _ |- _ => rewrite (opt2_erase _ IH); clear IH
           end;
    (split; [intros; destruct_and?; congruence
            |intros E; inversion E; repeat split; congruence]).
Qed.

Lemma equal_refl a : equal a a = true.
Proof. apply equal_erase. reflexivity. Qed.

Lemma equal_sym a b : equal a b = true -> equal b a = true.
Proof. rewrite !equal_erase. auto. Qed.

Lemma equal_trans a b c : equal a b = true -> equal b c = true -> equal a c = true.
Proof. rewrite !equal_erase. congruence. Qed.

(** ** The structural matcher *)

Lemma Sound_iff m (Q Q' : nat -> Expression -> Prop) :
  (forall i s, Q i s <-> Q' i s) -> Sound m Q -> Sound m Q'.
Proof.
  intros HQ Hm w w' E. destruct (Hm w w' E) as (X & Y & Z).
  split; [exact X|split].
  - intros i s Hs. apply Y, HQ, Hs.
  - intros i b Hb. destruct (Z i b Hb) as [H|H]; [auto|right; apply HQ, H].
Qed.

Lemma Sound_fails m Q : (forall w w', m w <> (true, w')) -> Sound m Q.
Proof. intros Hm w w' E. destruct (Hm w w' E). Qed.

Lemma Sound_guard b : Sound (Match.guard b) (fun _ _ => False).
Proof.
  intros w w' E. inversion E; subst. split; [intros i x Hx; exact Hx|].
  split; [intros i s []|auto].
Qed.

Lemma Sound_andThen m1 m2 Q1 Q2 :
  Sound m1 Q1 -> Sound m2 Q2 ->
  Sound (Match.andThen m1 m2) (fun i s => Q1 i s \/ Q2 i s).
Proof.
  intros S1 S2 w w'. unfold Match.andThen.
  destruct (m1 w) as [[] w1] eqn:E1; [|discriminate]. intros E2.
  destruct (S1 _ _ E1) as (X1 & Y1 & Z1).
  destruct (S2 _ _ E2) as (X2 & Y2 & Z2).
  split; [|split].
  - intros i b Hb. auto.
  - intros i s [H|H]; [|auto].
    destruct (Y1 _ _ H) as (b & Hb & He). exists b. auto.
  - intros i b Hb. destruct (Z2 _ _ Hb) as [H|H]; [|auto].
    destruct (Z1 _ _ H); auto.
Qed.

Lemma Sound_fold2 f (R : Expression -> Expression -> nat -> Expression -> Prop) xs :
  Forall (fun x => forall y, Sound (f x y) (R x y)) xs ->
  forall ys,
    Sound (Match.fold2 f xs ys)
      (fun i s => exists k x y, xs !! k = Some x /\ ys !! k = Some y /\ R x y i s).
Proof.
  induction 1 as [|x xs Hx Hxs IH]; intros [|y ys]; simpl;
    try (apply Sound_fails; discriminate).
  - eapply Sound_iff; [|apply (Sound_guard true)].
    intros i s; split; [intros []|intros (k & x & y & Hk & _); discriminate].
  - eapply Sound_iff; [|apply (Sound_andThen _ _ _ _ (Hx y) (IH ys))].
    intros i s; simpl; split.
    + intros [H|(k & x' & y' & H1 & H2 & H3)].
      * exists 0%nat, x, y. auto.
      * exists (S k), x', y'. auto.
    + intros (k & x' & y' & H1 & H2 & H3). destruct k as [|k]; simpl in *.
      * inversion H1; inversion H2; subst. auto.
      * right. eauto 6.
Qed.

Lemma Sound_optFold2 f (R : Expression -> Expression -> nat -> Expression -> Prop) o1 :
  OptAll (fun x => forall y, Sound (f x y) (R x y)) o1 ->
  forall o2,
    Sound (Match.optFold2 f o1 o2)
      (fun i s => exists x y, o1 = Some x /\ o2 = Some y /\ R x y i s).
Proof.
  destruct o1 as [x|]; intros Hx [y|]; simpl;
    try (apply Sound_fails; discriminate).
  - eapply Sound_iff; [|apply (Hx y)].
    intros i s; split; [eauto|].
    intros (x' & y' & H1 & H2 & H3). inversion H1; inversion H2; subst. auto.
  - eapply Sound_iff; [|apply (Sound_guard true)].
    intros i s; split; [intros []|intros (x & y & Hk & _); discriminate].
Qed.

Lemma compare_marker l r ty i wildcards :
  wildcardMarker l = Some (ty, i) ->
  Match.compare l r wildcards = Match.checkMatch i r ty wildcards.
Proof.
  unfold wildcardMarker, Match.compare, wildcardType.
  destruct (wildcardCall l) as [[target index]|]; [|discriminate].
  repeat (destruct (decide _) as [?|?]);
    intros Heq; inversion Heq; subst; reflexivity.
Qed.

Lemma compare_not_marker l r wildcards :
  wildcardMarker l = None -> Match.compare l r wildcards = (false, wildcards).
Proof.
  unfold wildcardMarker, Match.compare, wildcardType.
  destruct (wildcardCall l) as [[target index]|]; [|reflexivity].
  repeat (destruct (decide _) as [?|?]); try discriminate. reflexivity.
Qed.

(** The core of [Match::compare]: a first occurrence binds the slot to the
    candidate subtree itself, a later one asks for a subtree equal to the
    bound one. *)
Lemma Sound_checkMatch i0 r ty :
  Sound (Match.checkMatch i0 r ty) (fun i s => i = i0 /\ s = r).
Proof.
  intros w w'. unfold Match.checkMatch.
  destruct (bool_decide (ty <> none) && bool_decide (type_of r <> ty));
    [discriminate|].
  set (w1 := w ++ replicate (S i0 - length w) None).
  assert (Hext : extends w w1) by (intros j b Hb; apply lookup_app_l_Some, Hb).
  assert (Hback : forall j b, w1 !! j = Some (Some b) -> w !! j = Some (Some b)).
  { intros j b Hb. apply lookup_app_Some in Hb as [Hb|[_ Hb]]; [exact Hb|].
    apply lookup_replicate in Hb as [Hb _]. discriminate. }
  assert (Hlen : (i0 < length w1)%nat).
  { unfold w1. rewrite length_app, length_replicate. lia. }
  assert (Hnew : w1 !! i0 = Some None \/ w1 !! i0 = None ->
                 (true, <[i0 := Some r]> w1) = (true, w') ->
                 extends w w'
                 /\ (forall i s, i = i0 /\ s = r ->
                       exists b, w' !! i = Some (Some b) /\ equal s b = true)
                 /\ (forall i b, w' !! i = Some (Some b) ->
                       w !! i = Some (Some b) \/ (i = i0 /\ b = r))).
  { intros Hl E. inversion E; subst w'. split; [|split].
    - intros j b Hb. destruct (decide (j = i0)) as [->|Hj].
      + apply Hext in Hb. destruct Hl; congruence.
      + rewrite list_lookup_insert_ne by auto. auto.
    - intros i s [-> ->]. exists r.
      split; [apply list_lookup_insert_eq, Hlen|apply equal_refl].
    - intros j b Hb. destruct (decide (j = i0)) as [->|Hj].
      + rewrite list_lookup_insert_eq in Hb by exact Hlen.
        inversion Hb; subst. auto.
      + rewrite list_lookup_insert_ne in Hb by auto. auto. }
  destruct (w1 !! i0) as [[bound|]|] eqn:Hl; [|auto..].
  intros E. inversion E; subst w'. split; [exact Hext|split].
  - intros i s [-> ->]. exists bound. auto.
  - intros j b Hb. left. auto.
Qed.

Lemma Sound_compare l r ty i0 :
  wildcardMarker l = Some (ty, i0) ->
  Sound (Match.compare l r) (fun i s => i = i0 /\ s = r).
Proof.
  intros Hm w w' E. rewrite (compare_marker _ _ _ _ _ Hm) in E.
  exact (Sound_checkMatch i0 r ty w w' E).
Qed.

Lemma Opposite_marker i l r s ty i0 :
  wildcardMarker l = Some (ty, i0) ->
  (i = i0 /\ s = r) <-> Opposite i l r s.
Proof.
  intros Hm. split.
  - intros [-> ->]. eapply opposite_here; eauto.
  - inversion 1; subst; [split; congruence|congruence].
Qed.

Lemma flexibleEqual_marker l r x :
  wildcardMarker l = Some x -> Match.flexibleEqual l r = Match.compare l r.
Proof.
  intros Hm. destruct l; cbn [Match.flexibleEqual]; rewrite Hm; reflexivity.
Qed.

Ltac sound_build :=
  repeat first
    [ apply Sound_andThen
    | apply Sound_guard
    | apply (Sound_fold2 _ (fun x y i s => Opposite i x y s)); assumption
    | apply (Sound_optFold2 _ (fun x y i s => Opposite i x y s)); assumption
    | match goal with
      | IH : forall r, Sound (Match.flexibleEqual ?l r) _
        |- Sound (Match.flexibleEqual ?l _) _ => apply IH
      end ].

Ltac opposite_at k :=
  eapply (opposite_operand _ _ _ k);
  [ assumption | reflexivity
  | simpl; try rewrite list_lookup_fmap;
    try match goal with H : _ !! _ = Some _ |- _ => rewrite H end; reflexivity
  | simpl; try rewrite list_lookup_fmap;
    try match goal with H : _ !! _ = Some _ |- _ => rewrite H end; reflexivity
  | eassumption ].

Ltac opposite_iff :=
  let Hd := fresh "Hd" in
  intros ? ?; cbv beta; split;
  [ intros Hd;
    repeat match goal with
           | H : _ \/ _ |- _ => destruct H
           | H : False |- _ => destruct H
           | H : exists _, _ |- _ => destruct H
           | H : _ /\ _ |- _ => destruct H
           end; subst;
    first [ opposite_at 0%nat | opposite_at 1%nat | opposite_at 2%nat
          | match goal with H : _ !! ?k = Some _ |- _ => opposite_at k end ]
  | let k := fresh "k" in
    let Hk1 := fresh "Hk1" in let Hk2 := fresh "Hk2" in
    inversion 1 as [|? ? k ? ? ? ? ? Hk1 Hk2 ?]; subst; [congruence|];
    simpl in Hk1, Hk2;
    try (rewrite list_lookup_fmap in Hk1, Hk2;
         apply fmap_Some in Hk1 as (? & ? & ?);
         apply fmap_Some in Hk2 as (? & ? & ?));
    repeat (destruct k as [|k]; simpl in Hk1, Hk2; try discriminate);
    simplify_eq; eauto 10 ].

(** The walk is sound for the markers of the pattern input. *)
Lemma flexibleEqual_Sound l :
  forall r, Sound (Match.flexibleEqual l r) (fun i s => Opposite i l r s).
Proof.
  induction l using Expression_nested_ind; intros r0;
    match goal with
    | |- Sound (Match.flexibleEqual ?l _) _ =>
        destruct (wildcardMarker l) as [[mty mi]|] eqn:Hm;
        [ rewrite (flexibleEqual_marker _ _ _ Hm);
          (eapply Sound_iff; [|eapply Sound_compare; exact Hm]);
          intros ? ?; apply (Opposite_marker _ _ _ _ _ _ Hm)
        | cbn [Match.flexibleEqual]; rewrite Hm ]
    end;
    (destruct r0; try (apply Sound_fails; intros ? ? ?; discriminate));
    (eapply Sound_iff; [|sound_build]); opposite_iff.
Qed.

(** C4.  When a match succeeds, every candidate subtree that stands opposite
    a wildcard with index [i] of the pattern input is [equal] (same shape,
    same operators, types and literal values, recursively) to the subtree
    bound in slot [i]; the bound subtree is itself one of these candidate
    subtrees, the node of the candidate and not a copy of it.  So the
    candidate subtrees opposite the occurrences of one index are all equal;
    and when two of them are not, the match fails. *)
Theorem wildcard_consistency (pattern : Pattern) (seen : Expression) :
  (forall wildcards,
     Match.check pattern seen = (true, wildcards) ->
     (forall i s,
        Opposite i (input pattern) seen s ->
        exists b, wildcards !! i = Some (Some b)
                  /\ Opposite i (input pattern) seen b
                  /\ equal s b = true)
     /\ (forall i s1 s2,
           Opposite i (input pattern) seen s1 ->
           Opposite i (input pattern) seen s2 ->
           equal s1 s2 = true))
  /\ (forall i s1 s2,
        Opposite i (input pattern) seen s1 ->
        Opposite i (input pattern) seen s2 ->
        equal s1 s2 = false ->
        (Match.check pattern seen).1 = false).
Proof.
  assert (Hmain : forall wildcards,
    Match.check pattern seen = (true, wildcards) ->
    forall i s,
      Opposite i (input pattern) seen s ->
      exists b, wildcards !! i = Some (Some b)
                /\ Opposite i (input pattern) seen b
                /\ equal s b = true).
  { intros wildcards Hc i s Ho.
    destruct (flexibleEqual_Sound (input pattern) seen [] wildcards Hc)
      as (_ & Y & Z).
    destruct (Y i s Ho) as (b & Hb & He). exists b.
    split; [exact Hb|split; [|exact He]].
    destruct (Z i b Hb) as [H|H]; [discriminate|exact H]. }
  assert (Hall : forall wildcards,
    Match.check pattern seen = (true, wildcards) ->
    forall i s1 s2,
      Opposite i (input pattern) seen s1 ->
      Opposite i (input pattern) seen s2 ->
      equal s1 s2 = true).
  { intros wildcards Hc i s1 s2 H1 H2.
    destruct (Hmain _ Hc i s1 H1) as (b1 & Hb1 & _ & E1).
    destruct (Hmain _ Hc i s2 H2) as (b2 & Hb2 & _ & E2).
    rewrite Hb1 in Hb2. inversion Hb2; subst b2.
    eapply equal_trans; [exact E1|apply equal_sym, E2]. }
  split.
  - intros wildcards Hc. split; [apply Hmain, Hc|apply (Hall _ Hc)].
  - intros i s1 s2 H1 H2 Hne.
    destruct (Match.check pattern seen) as [[] wildcards] eqn:Hc; [|reflexivity].
    rewrite (Hall _ eq_refl i s1 s2 H1 H2) in Hne. discriminate.
Qed.

Lemma wildcard_consistency_witness :
  Match.check sample_sub_pattern
    (Binary 7%nat SubInt32 (GetLocal 8%nat 0%nat i32) (GetLocal 9%nat 0%nat i32) i32)
  = (true, [Some (GetLocal 8%nat 0%nat i32)])
  /\ Opposite 0 (input sample_sub_pattern)
       (Binary 7%nat SubInt32 (GetLocal 8%nat 0%nat i32) (GetLocal 9%nat 0%nat i32) i32)
       (GetLocal 8%nat 0%nat i32)
  /\ Opposite 0 (input sample_sub_pattern)
       (Binary 7%nat SubInt32 (GetLocal 8%nat 0%nat i32) (GetLocal 9%nat 0%nat i32) i32)
       (GetLocal 9%nat 0%nat i32)
  /\ equal (GetLocal 8%nat 0%nat i32) (GetLocal 9%nat 0%nat i32) = true
  /\ Opposite 0 (input sample_sub_pattern)
       (Binary 7%nat SubInt32 sample_x sample_y i32) sample_x
  /\ Opposite 0 (input sample_sub_pattern)
       (Binary 7%nat SubInt32 sample_x sample_y i32) sample_y
  /\ equal sample_x sample_y = false
  /\ (Match.check sample_sub_pattern
        (Binary 7%nat SubInt32 sample_x sample_y i32)).1 = false.
Proof.
  assert (Hc : Match.check sample_sub_pattern
    (Binary 7%nat SubInt32 (GetLocal 8%nat 0%nat i32) (GetLocal 9%nat 0%nat i32) i32)
    = (true, [Some (GetLocal 8%nat 0%nat i32)])) by (vm_compute; reflexivity).
  assert (Ol : forall l r, Opposite 0 (input sample_sub_pattern)
                             (Binary 7%nat SubInt32 l r i32) l).
  { intros l r. eapply (opposite_operand _ _ _ 0%nat);
      [reflexivity..|apply (opposite_here _ _ _ i32); reflexivity]. }
  assert (Or : forall l r, Opposite 0 (input sample_sub_pattern)
                             (Binary 7%nat SubInt32 l r i32) r).
  { intros l r. eapply (opposite_operand _ _ _ 1%nat);
      [reflexivity..|apply (opposite_here _ _ _ i32); reflexivity]. }
  assert (Hne : equal sample_x sample_y = false) by reflexivity.
  split; [exact Hc|]. split; [apply Ol|]. split; [apply Or|].
  split.
  - exact (proj2 (proj1 (wildcard_consistency sample_sub_pattern _) _ Hc)
             0%nat _ _ (Ol _ _) (Or _ _)).
  - split; [apply Ol|]. split; [apply Or|]. split; [exact Hne|].
    exact (proj2 (wildcard_consistency sample_sub_pattern _)
             0%nat _ _ (Ol _ _) (Or _ _) Hne).
Defined.

(** * Further properties of the hand-coded rules *)

(** Runs [k] on each comparison operator of the specification, given by
    its numeric type, relation and signedness, until it succeeds. *)
Ltac each_comparison k :=
  let on_sign t rel := first [k t rel Signed | k t rel Unsigned] in
  let on_rel t :=
    first [ on_sign t Equal | on_sign t NotEqual | on_sign t Less
          | on_sign t LessEq | on_sign t Greater | on_sign t GreaterEq ] in
  first [on_rel Int32 | on_rel Int64 | on_rel Float32 | on_rel Float64].

Section HandRulesMore.

Context {Effects : Type}.
Variable EffectAnalyzer : Expression -> Effects.
Variable invalidates : Effects -> Effects -> bool.

Abbreviation hand := (handOptimize EffectAnalyzer invalidates).

(** X1.  A global set is turned into a no-op, in place (the node keeps its
    address) and without anything being returned, when its value is a get of
    the global of the same name; with any other value it is left as it
    is. *)
Theorem self_assignment_elimination (a : Addr) (name : Name)
    (value : Expression) (st : Arena) :
  (forall ga gty,
     hand (SetGlobal a name (GetGlobal ga name gty)) st = Ok (Keep (Nop a), st))
  /\ ((forall ga gty, value <> GetGlobal ga name gty) ->
      hand (SetGlobal a name value) st = Ok (Keep (SetGlobal a name value), st)).
Proof.
  split.
  - intros ga gty. simpl. rewrite bool_decide_eq_true_2 by reflexivity.
    reflexivity.
  - intros Hv. destruct value; try reflexivity. simpl.
    case_bool_decide as Hn; [|reflexivity].
    subst. exfalso. eapply Hv. reflexivity.
Qed.

(** X2.  The rule on an [if].  The condition is normalized first.  With an
    else arm and a normalized condition [is-zero v], the condition becomes
    [v] and the two arms are exchanged; with an else arm and any other
    condition, and without an else arm whatever the condition, only the
    normalization is made.  Nothing is returned and nothing allocated. *)
Theorem if_arm_flip (a : Addr) (condition ifTrue : Expression)
    (ifFalse : option Expression) (ty : WasmType) (st : Arena) :
  (forall ac v tv f,
     optimizeBoolean condition = Unary ac EqZInt32 v tv -> ifFalse = Some f ->
     hand (If a condition ifTrue ifFalse ty) st
     = Ok (Keep (If a v f (Some ifTrue) ty), st))
  /\ ((forall ac v tv, optimizeBoolean condition <> Unary ac EqZInt32 v tv) ->
      hand (If a condition ifTrue ifFalse ty) st
      = Ok (Keep (If a (optimizeBoolean condition) ifTrue ifFalse ty), st))
  /\ (ifFalse = None ->
      hand (If a condition ifTrue ifFalse ty) st
      = Ok (Keep (If a (optimizeBoolean condition) ifTrue ifFalse ty), st)).
Proof.
  split; [|split].
  - intros ac v tv f Hc ->. simpl. rewrite Hc. reflexivity.
  - intros Hc. simpl.
    destruct ifFalse; [|reflexivity].
    destruct (optimizeBoolean condition) as
      [| | | | | | | | | | |ac [] v tv| |]; try reflexivity.
    exfalso. eapply Hc. reflexivity.
  - intros ->. reflexivity.
Qed.

(** X3.  When the rules on a unary node return a node, the unary node is an
    [i32] is-zero test of a comparison, and of one through which the
    negation is pushed (an integer comparison, or an equality or inequality
    of floats); the node returned is that comparison node itself with
    nothing changed but its operator, which is now the one of the negated
    relation and differs from the old one; and nothing is allocated.  The
    table of the rule is an involution: pushing a negation through the
    comparison returned gives the original comparison back. *)
Theorem deMorgan_involution (a : Addr) (op : UnaryOp) (value e : Expression)
    (ty : WasmType) (st st' : Arena) :
  hand (Unary a op value ty) st = Ok (Replace e, st') ->
  op = EqZInt32 /\ st' = st
  /\ exists ia t rel s l r ity,
       negationPushed t rel = true
       /\ value = Binary ia (comparisonOp t rel s) l r ity
       /\ e = Binary ia (comparisonOp t (negation rel) s) l r ity
       /\ comparisonOp t (negation rel) s <> comparisonOp t rel s
       /\ forall a2 ty2 st2,
            hand (Unary a2 EqZInt32 e ty2) st2 = Ok (Replace value, st2).
Proof.
  unfold handOptimize.
  destruct op; try discriminate. destruct value; try discriminate.
  destruct op; run; try discriminate; intros H; inversion H; subst;
    (split; [reflexivity|split; [reflexivity|]]);
    eexists;
    each_comparison ltac:(fun t rel s =>
      solve [ exists t, rel, s; do 3 eexists;
              split; [reflexivity|];
              split; [reflexivity|];
              split; [reflexivity|];
              split; [discriminate|intros; reflexivity] ]).
Qed.

Lemma size_optimizeBoolean b : (size (optimizeBoolean b) <= size b)%nat.
Proof.
  destruct b as [| | | | | | | | | | |a [] v t| |]; simpl; try lia.
  destruct v as [| | | | | | | | | | |a' [] v' t'| |]; simpl; lia.
Qed.

Lemma size_eqz_operand b a v t :
  optimizeBoolean b = Unary a EqZInt32 v t -> (size v < size b)%nat.
Proof.
  intros H. pose proof (size_optimizeBoolean b) as Hs.
  rewrite H in Hs. simpl in Hs. lia.
Qed.

Lemma hand_result_size curr st st' r :
  hand curr st = Ok (r, st') ->
  match r with
  | Replace e => (size e < size curr)%nat
  | Keep e => (size e <= size curr)%nat
  end.
Proof.
  intros H. destruct r as [e|e].
  - eapply hand_Replace_smaller; eauto.
  - destruct curr as
      [a|a n l t|a c x y t|a n v c|a n l t|a i t|a n t|a n v|a b s o al p t
      |a b o al p v t|a v|a op v t|a op l r t|a x y c t];
      try (simpl in H; inversion H; subst; simpl; lia).
    + (* If *) simpl in H. pose proof (size_optimizeBoolean c) as Hs.
      destruct y as [f|];
        [|inversion H; subst; simpl; lia].
      destruct (optimizeBoolean c) as
        [| | | | | | | | | | |ac [] v tv| |] eqn:Hc;
        inversion H; subst; simpl in *; lia.
    + (* Break *) simpl in H. destruct c as [c|];
        inversion H; subst; simpl; [|lia].
      pose proof (size_optimizeBoolean c). lia.
    + (* SetGlobal *) simpl in H. destruct v;
        try (inversion H; subst; simpl; lia).
      destruct (bool_decide _); inversion H; subst; simpl; lia.
    + (* Unary *)
      destruct (hand_Keep_Unary _ _ _ _ _ _ _ _ _ H) as (-> & _). lia.
    + (* Binary *)
      destruct (hand_Keep_Binary _ _ _ _ _ _ _ _ _ _ H) as (-> & _). lia.
    + (* Select *) simpl in H. pose proof (size_optimizeBoolean c) as Hs.
      destruct (optimizeBoolean c) as
        [| | | | | | | | | | |ac [] v tv| |] eqn:Hc;
        try (inversion H; subst; simpl in *; lia).
      destruct (negb _); inversion H; subst; simpl in *; lia.
Qed.

Lemma hand_Keep_frame curr e st st' :
  hand curr st = Ok (Keep e, st') ->
  self_of e = self_of curr /\ type_of e = type_of curr /\ st' = st.
Proof.
  intros H. destruct curr as
    [a|a n l t|a c x y t|a n v c|a n l t|a i t|a n t|a n v|a b s o al p t
    |a b o al p v t|a v|a op v t|a op l r t|a x y c t];
    try solve [simpl in H; inversion H; subst; auto].
  - simpl in H. destruct y as [f|];
      [|inversion H; subst; auto].
    destruct (optimizeBoolean c) as [| | | | | | | | | | |ac [] v tv| |];
      inversion H; subst; auto.
  - simpl in H. destruct c; inversion H; subst; auto.
  - simpl in H. destruct v; try solve [inversion H; subst; auto].
    destruct (bool_decide _); inversion H; subst; auto.
  - destruct (hand_Keep_Unary _ _ _ _ _ _ _ _ _ H) as (-> & -> & _). auto.
  - destruct (hand_Keep_Binary _ _ _ _ _ _ _ _ _ _ H) as (-> & -> & _). auto.
  - simpl in H.
    destruct (optimizeBoolean c) as [| | | | | | | | | | |ac [] v tv| |];
      try solve [inversion H; subst; auto].
    destruct (negb _); inversion H; subst; auto.
Qed.

(** X4.  The rules never make a node larger: a node that they return has
    fewer nodes than the node they were run on, and a node that they keep,
    changed in place or not, has no more nodes than before. *)
Theorem hand_never_grows (curr : Expression) (st st' : Arena) (r : HandResult) :
  hand curr st = Ok (r, st') ->
  match r with
  | Replace e => (size e < size curr)%nat
  | Keep e => (size e <= size curr)%nat
  end.
Proof. apply hand_result_size. Qed.

(** X5.  When the rules return nothing, the current node, changed in place
    or not, is still the same cell: it has the address and the type it had,
    and the arena is as before. *)
Theorem hand_keep_is_in_place (curr e : Expression) (st st' : Arena) :
  hand curr st = Ok (Keep e, st') ->
  self_of e = self_of curr /\ type_of e = type_of curr /\ st' = st.
Proof. apply hand_Keep_frame. Qed.

(** A node that the rules return comes from one of three rules: sign-extend
    fusion, the zero comparison, or the push of a negation. *)
Lemma hand_Replace_cases curr st e st' :
  hand curr st = Ok (Replace e, st') ->
  (exists load, SignExtendFusible curr load /\ e = markSigned load /\ st' = st)
  \/ (exists a l r ty x,
        curr = Binary a EqInt32 l r ty
        /\ ((isZeroConst r /\ x = l) \/ (isZeroConst l /\ x = r))
        /\ e = Unary (next st) EqZInt32 x i32
        /\ st' = MkArena (S (next st)))
  \/ (exists a ty ia t rel s l r ity,
        negationPushed t rel = true
        /\ curr = Unary a EqZInt32 (Binary ia (comparisonOp t rel s) l r ity) ty
        /\ e = Binary ia (comparisonOp t (negation rel) s) l r ity
        /\ comparisonOp t (negation rel) s <> comparisonOp t rel s
        /\ st' = st).
Proof.
  intros H. destruct (hand_Replace_kind _ _ _ _ _ _ H) as [Hk|Hk];
    destruct curr as
      [a|a n l t|a c x y t|a n v c|a n l t|a i t|a n t|a n v|a b s o al p t
      |a b o al p v t|a v|a op v t|a op l r t|a x y c t]; try discriminate.
  - destruct (decide (op = ShrSInt32)) as [->|Hs];
      [|destruct (decide (op = EqInt32)) as [->|Hq]].
    + left. apply (hand_fusion_inv _ _ _ _ _ _ H).
      revert H. unfold handOptimize.
      destruct r as [| | | | | | | | | |ar [rt k]| | |]; try discriminate.
      run. destruct (decide (rt = i32)) as [->|]; [|discriminate]. simpl.
      destruct (bool_decide (k = 24) || bool_decide (k = 16)); [|discriminate].
      destruct l as [| | | | | | | | | | | |al lop ll lr lt|]; try discriminate.
      destruct lop; try discriminate.
      destruct lr as [| | | | | | | | | |alr [lrt k']| | |]; try discriminate.
      run. destruct (decide (lrt = i32)) as [->|]; [|discriminate]. simpl.
      destruct (bool_decide (k' = k)); [|discriminate].
      destruct ll; try discriminate.
      destruct (bool_decide (bytes = 1) && bool_decide (k = 24)
                || bool_decide (bytes = 2) && bool_decide (k = 16));
        [|discriminate].
      intros H; inversion H; subst. reflexivity.
    + right; left. revert H. unfold handOptimize.
      destruct r as [| | | | | | | | | |ar [rt k]| | |],
               l as [| | | | | | | | | |al [lt k']| | |];
        run; try discriminate;
        repeat (destruct (decide _) as [Et|]; simpl in *;
                [try subst rt; try subst lt|]; try discriminate);
        repeat (case_bool_decide; simpl; try discriminate);
        intros Hh; inversion Hh; subst;
        do 5 eexists; (split; [reflexivity|]);
        (split; [|split; reflexivity]);
        first [ left; split; [eexists; reflexivity|reflexivity]
              | right; split; [eexists; reflexivity|reflexivity] ].
    + rewrite hand_Binary_other in H by assumption. discriminate.
  - right; right. revert H. unfold handOptimize.
    destruct op; try discriminate. destruct v; try discriminate.
    destruct op; run; try discriminate; intros H; inversion H; subst;
      do 3 eexists;
      each_comparison ltac:(fun t rel s =>
        solve [ exists t, rel, s; do 3 eexists;
                split; [reflexivity|];
                split; [reflexivity|];
                split; [reflexivity|];
                split; [discriminate|reflexivity] ]).
Qed.

(** X6.  The rules allocate at most one node, and only in the zero
    comparison: either the arena is as before, or the node is an [i32]
    equality one operand of which is the [i32] constant zero, exactly one
    node was allocated, and that node is the one returned, a fresh is-zero
    test of the other operand. *)
Theorem hand_allocates_only_is_zero (curr : Expression) (st st' : Arena)
    (r : HandResult) :
  hand curr st = Ok (r, st') ->
  st' = st
  \/ (st' = MkArena (S (next st))
      /\ exists a l r0 ty x,
           curr = Binary a EqInt32 l r0 ty
           /\ ((isZeroConst r0 /\ x = l) \/ (isZeroConst l /\ x = r0))
           /\ r = Replace (Unary (next st) EqZInt32 x i32)).
Proof.
  intros H. destruct r as [e|e].
  - destruct (hand_Replace_cases _ _ _ _ H)
      as [(load & _ & _ & ->)|[(a & l & r & ty & x & -> & Hx & -> & ->)
         |(a & ty & ia & t & rel & s & l & r & ity & _ & _ & _ & _ & ->)]];
      auto.
    right. split; [reflexivity|]. eauto 10.
  - left. apply (hand_Keep_frame _ _ _ _ H).
Qed.

(** The rules can stop on binary nodes only. *)
Lemma hand_fails_on_Binary curr st f :
  hand curr st = Fail f -> _id curr = BinaryId.
Proof.
  intros H.
  destruct (decide (_id curr = BinaryId)) as [|Hb]; [assumption|].
  destruct (decide (_id curr = UnaryId)) as [Eu|Hu].
  - destruct curr as [| | | | | | | | | | |a op v t| |]; try discriminate.
    revert H. unfold handOptimize. destruct op; try discriminate.
    destruct v; try discriminate. destruct op; discriminate.
  - destruct (hand_inplace EffectAnalyzer invalidates curr Hb Hu) as (k & Hk & _).
    rewrite Hk in H. discriminate.
Qed.

(** X7.  The rules stop only on the assertion of [geti32], and only on a
    binary node; they do not stop when the operands they may read as
    constants are [i32] constants whenever they are constants. *)
Theorem hand_stops_only_on_assertion (curr : Expression) (st : Arena) :
  (forall f, hand curr st = Fail f -> f = AssertionFailure /\ _id curr = BinaryId)
  /\ (readsI32 curr -> exists r st', hand curr st = Ok (r, st')).
Proof.
  split.
  - intros f H. split; [eapply hand_failure|eapply hand_fails_on_Binary]; eauto.
  - intros Hr. destruct (hand curr st) as [[r st']|f] eqn:H; [eauto|].
    exfalso. pose proof (hand_fails_on_Binary _ _ _ H) as Hb.
    destruct curr as [| | | | | | | | | | | |a op l r t|]; try discriminate.
    destruct Hr as (Hl & Hrr & Hlr).
    destruct (decide (op = ShrSInt32)) as [->|Hs];
      [|destruct (decide (op = EqInt32)) as [->|Hq]].
    + revert H. unfold handOptimize.
      destruct r as [| | | | | | | | | |ar [rt k]| | |]; try discriminate.
      pose proof (Hrr _ _ eq_refl) as Et. simpl in Et. subst rt. run.
      destruct (bool_decide (k = 24) || bool_decide (k = 16)); [|discriminate].
      destruct l as [| | | | | | | | | | | |al lop ll lr lt|]; try discriminate.
      destruct lop; try discriminate.
      destruct lr as [| | | | | | | | | |alr [lrt k']| | |]; try discriminate.
      pose proof (Hlr _ _ eq_refl) as Et. simpl in Et. subst lrt. run.
      destruct (bool_decide (k' = k)); [|discriminate].
      destruct ll; try discriminate.
      destruct (bool_decide (bytes = 1) && bool_decide (k = 24)
                || bool_decide (bytes = 2) && bool_decide (k = 16));
        discriminate.
    + revert H. unfold handOptimize.
      destruct r as [| | | | | | | | | |ar [rt k]| | |],
               l as [| | | | | | | | | |al [lt k']| | |];
        try (pose proof (Hrr _ _ eq_refl) as Er; simpl in Er; subst rt);
        try (pose proof (Hl _ _ eq_refl) as El; simpl in El; subst lt);
        run; try discriminate;
        repeat (destruct (bool_decide _); simpl; try discriminate).
    + rewrite hand_Binary_other in H by assumption. discriminate.
Qed.

(** X19.  The rule on a break.  Nothing is returned and nothing allocated;
    the name and the value of the break are as they were; a break without a
    condition is left as it is; and from a condition that is an [i32]
    is-zero test of an [i32] is-zero test of [x] one such pair is taken off,
    so that the condition becomes [x], every other condition being left as
    it is. *)
Theorem break_condition_normalized (a : Addr) (name : Name)
    (value condition : option Expression) (st : Arena) :
  exists condition',
    hand (Break a name value condition) st
    = Ok (Keep (Break a name value condition'), st)
    /\ (condition = None -> condition' = None)
    /\ (forall c, condition = Some c ->
          exists c', condition' = Some c'
          /\ (forall a1 a2 t1 t2 x,
                c = Unary a1 EqZInt32 (Unary a2 EqZInt32 x t2) t1 -> c' = x)
          /\ ((forall a1 a2 t1 t2 x,
                 c <> Unary a1 EqZInt32 (Unary a2 EqZInt32 x t2) t1) ->
              c' = c)).
Proof.
  destruct condition as [c|].
  - exists (Some (optimizeBoolean c)). split; [reflexivity|].
    split; [discriminate|].
    intros c0 E. injection E as <-. exists (optimizeBoolean c).
    split; [reflexivity|split].
    + intros a1 a2 t1 t2 x ->. reflexivity.
    + intros Hn.
      destruct c as [| | | | | | | | | | |a1 [] v t1| |]; try reflexivity.
      destruct v as [| | | | | | | | | | |a2 [] x t2| |]; try reflexivity.
      exfalso. eapply Hn. reflexivity.
  - exists None. split; [reflexivity|]. split; [reflexivity|discriminate].
Qed.

End HandRulesMore.

(** * Further properties of the visitor and of the database *)

Section VisitorMore.

Context {Effects : Type}.
Variable EffectAnalyzer : Expression -> Effects.
Variable invalidates : Effects -> Effects -> bool.
Variable patternMap : gmap ExpressionId (list Pattern).

Abbreviation step := (visitStep EffectAnalyzer invalidates patternMap).

Lemma tryPatterns_first patterns1 pattern patterns2 curr wildcards st :
  Forall (fun q => (Match.check q curr).1 = false) patterns1 ->
  Match.check pattern curr = (true, wildcards) ->
  tryPatterns (patterns1 ++ pattern :: patterns2) curr st
  = (e <- Match.apply pattern wildcards ;; ret (Some e)) st.
Proof.
  intros H1 Hc. induction H1 as [|q patterns1 Hq _ IH]; simpl.
  - rewrite Hc. reflexivity.
  - destruct (Match.check q curr) as [[] w]; [discriminate|exact IH].
Qed.

(** X8.  Patterns are tried in the order of the list, and the first one that
    matches is the one applied: when no pattern before [pattern] matches the
    node and [pattern] does, the loop over the patterns gives what the
    instantiation of [pattern] gives, whatever follows in the list; and when
    that instantiation gives a node, this node becomes the current node and
    the visitor goes back to the hand-coded rules. *)
Theorem first_matching_pattern_wins (patterns1 patterns2 : list Pattern)
    (pattern : Pattern) (curr : Expression) (wildcards : Match.Wildcards)
    (st : Arena) :
  Forall (fun q => (Match.check q curr).1 = false) patterns1 ->
  Match.check pattern curr = (true, wildcards) ->
  tryPatterns (patterns1 ++ pattern :: patterns2) curr st
  = (e <- Match.apply pattern wildcards ;; ret (Some e)) st
  /\ (forall e st',
        patternMap !! _id curr = Some (patterns1 ++ pattern :: patterns2) ->
        Match.apply pattern wildcards st = Ok (e, st') ->
        step (TRY_PATTERN_DB curr) st = Ok (TRY_HAND_RULES e, st')).
Proof.
  intros H1 Hc. split; [apply tryPatterns_first; assumption|].
  intros e st' Hl Ha. simpl. rewrite Hl. unfold bind at 1.
  rewrite (tryPatterns_first _ _ _ _ _ _ H1 Hc). unfold bind, ret.
  rewrite Ha. reflexivity.
Qed.

Lemma tryPatterns_None_arena patterns curr st st' :
  tryPatterns patterns curr st = Ok (None, st') -> st' = st.
Proof.
  induction patterns as [|pattern patterns IH]; simpl.
  - intros H; inversion H; reflexivity.
  - destruct (Match.check pattern curr) as [[] w]; [|exact IH].
    unfold bind, ret. destruct (Match.apply _ _ _) as [[]|]; discriminate.
Qed.

(** X9.  The database round of the visitor ends the visit exactly when no
    pattern that the database holds for the kind of the node matches it (a
    kind that is no key of the map has no pattern); the node and the arena
    are then as they were. *)
Theorem visit_ends_when_nothing_matches (curr curr' : Expression) (st st' : Arena) :
  step (TRY_PATTERN_DB curr) st = Ok (DONE curr', st')
  <-> (curr' = curr /\ st' = st /\ noPatternMatches patternMap curr).
Proof.
  simpl. split.
  - destruct (patternMap !! _id curr) as [patterns|] eqn:Hl.
    + unfold bind.
      destruct (tryPatterns patterns curr st) as [[[e|] st1]|f] eqn:Ht;
        try discriminate.
      intros H; inversion H; subst.
      split; [reflexivity|split; [eapply tryPatterns_None_arena; eauto|]].
      intros ps Hps. rewrite Hl in Hps. inversion Hps; subst.
      eapply tryPatterns_None; eauto.
    + intros H; inversion H; subst. split; [reflexivity|split; [reflexivity|]].
      intros ps Hps. rewrite Hl in Hps. discriminate.
  - intros (-> & -> & Hn).
    destruct (patternMap !! _id curr) as [patterns|] eqn:Hl; [|reflexivity].
    unfold bind. rewrite (tryPatterns_no_match _ _ _ (Hn _ Hl)).
    reflexivity.
Qed.

End VisitorMore.

Lemma visit_hand_rules_alone {Effects : Type}
    (EffectAnalyzer : Expression -> Effects)
    (invalidates : Effects -> Effects -> bool) (n : nat) :
  forall curr fuel st,
    (size curr <= n)%nat -> (n < fuel)%nat ->
    (exists e st',
       visitExpression EffectAnalyzer invalidates ∅ fuel curr st = Ok (e, st')
       /\ (size e <= size curr)%nat)
    \/ visitExpression EffectAnalyzer invalidates ∅ fuel curr st
       = Fail AssertionFailure.
Proof.
  unfold visitExpression.
  induction n as [|n IH]; intros curr fuel st Hs Hf.
  - pose proof (size_pos curr). lia.
  - destruct fuel as [|fuel]; [lia|]. simpl. unfold bind.
    destruct (handOptimize EffectAnalyzer invalidates curr st)
      as [[[e|e] st1]|f] eqn:Hh.
    + pose proof (hand_Replace_smaller _ _ _ _ _ _ Hh) as Hlt.
      unfold ret; simpl.
      destruct (IH e fuel st1) as [(e' & st' & -> & He') | ->]; try lia.
      * left. exists e', st'. split; [reflexivity|lia].
      * right. reflexivity.
    + pose proof (hand_result_size _ _ _ _ _ _ Hh) as Hle. simpl in Hle.
      destruct fuel as [|fuel]; [pose proof (size_pos curr); lia|].
      unfold ret; simpl. unfold bind. rewrite lookup_empty. simpl.
      left. exists e, st1. split; [destruct fuel; reflexivity|exact Hle].
    + apply hand_failure in Hh. subst. right. reflexivity.
Qed.

(** X10.  With a database that holds no pattern the loop of the visitor
    terminates: given more rounds than the node has nodes, the visit either
    ends, on a node that is no larger than the one it started from and for
    which the hand-coded rules return no replacement, or it stops on the
    assertion of [geti32]; it never runs on. *)
Theorem visit_terminates_without_patterns {Effects : Type}
    (EffectAnalyzer : Expression -> Effects)
    (invalidates : Effects -> Effects -> bool)
    (curr : Expression) (fuel : nat) (st : Arena) :
  (size curr < fuel)%nat ->
  (exists e st',
     visitExpression EffectAnalyzer invalidates ∅ fuel curr st = Ok (e, st')
     /\ (size e <= size curr)%nat
     /\ noReplacement EffectAnalyzer invalidates e)
  \/ visitExpression EffectAnalyzer invalidates ∅ fuel curr st
     = Fail AssertionFailure.
Proof.
  intros Hf.
  destruct (visit_hand_rules_alone EffectAnalyzer invalidates (size curr)
              curr fuel st (le_n _) Hf) as [(e & st' & He & Hs)|Hfail];
    [left|right; exact Hfail].
  exists e, st'. split; [exact He|split; [exact Hs|]].
  exact (proj1 (visitLoop_settled _ _ _ _ _ _ _ _ He I)).
Qed.

(** ** The database *)

Lemma nonEmpty_default {A} (l : list A) : default [] (nonEmpty l) = l.
Proof. destruct l; reflexivity. Qed.

Lemma patternsFor_snoc k patterns pattern :
  patternsFor k (patterns ++ [pattern])
  = patternsFor k patterns
    ++ (if decide (_id (input pattern) = k) then [pattern] else []).
Proof.
  unfold patternsFor. rewrite filter_app. reflexivity.
Qed.

(** What the loop keeps: each key holds the patterns read so far whose
    input has that [_id], in the order read, and only the ids of such
    patterns are keys. *)
Lemma addPatterns_keyed items : forall patterns patternMap read,
  Forall2 (fun item pattern => pairPattern item = Some pattern) items patterns ->
  (forall k, patternMap !! k = nonEmpty (patternsFor k read)) ->
  exists patternMap',
    addPatterns patternMap items = Some patternMap'
    /\ forall k, patternMap' !! k = nonEmpty (patternsFor k (read ++ patterns)).
Proof.
  induction items as [|item items IH]; intros patterns patternMap read HF Hinv.
  - inversion HF; subst. exists patternMap. rewrite app_nil_r. auto.
  - inversion HF as [|? pattern ? patterns' Hp HF']; subst. simpl.
    assert (Ha : addPattern patternMap item
                 = Some (<[_id (input pattern) :=
                             default [] (patternMap !! _id (input pattern))
                             ++ [pattern]]> patternMap)).
    { destruct item as [|? ? [|pin [|pout ?]] ?| | | | | | | | | | | |];
        try discriminate. inversion Hp; subst. reflexivity. }
    rewrite Ha.
    edestruct (IH patterns' (<[_id (input pattern) :=
                               default [] (patternMap !! _id (input pattern))
                               ++ [pattern]]> patternMap)
                 (read ++ [pattern]) HF') as (m & Hm & Hk).
    + intros k. rewrite patternsFor_snoc.
      destruct (decide (_id (input pattern) = k)) as [<-|Hne].
      * rewrite lookup_insert_eq, Hinv, nonEmpty_default.
        destruct (patternsFor _ read); reflexivity.
      * rewrite lookup_insert_ne by assumption. rewrite app_nil_r. apply Hinv.
    + exists m. split; [exact Hm|]. intros k. rewrite Hk.
      rewrite <- app_assoc. reflexivity.
Qed.

Lemma addPatterns_malformed items : forall patternMap item,
  item ∈ items -> pairPattern item = None ->
  addPatterns patternMap items = None.
Proof.
  induction items as [|x items IH]; intros patternMap item Hin Hp;
    [inversion Hin|].
  simpl. destruct (addPattern patternMap x) as [m|] eqn:Ha; [|reflexivity].
  apply elem_of_cons in Hin as [->|Hin]; [|eauto].
  destruct x as [|? ? [|pin [|pout ?]] ?| | | | | | | | | | | |]; discriminate.
Qed.

(** X11.  The construction of the database from a body whose items are all
    pairs: under each key the map holds the patterns whose input has that
    [_id], all of them and in the order of the body, and a kind that is the
    root of no input is no key.  When the body is no block, or some item of
    it is no block of two elements or more, no database is built. *)
Theorem database_keyed_by_root (a : Addr) (name : Name) (items : list Expression)
    (ty : WasmType) :
  (forall patterns,
     Forall2 (fun item pattern => pairPattern item = Some pattern) items patterns ->
     exists patternMap,
       PatternDatabase_patternMap (Block a name items ty) = Some patternMap
       /\ forall k, patternMap !! k = nonEmpty (patternsFor k patterns))
  /\ (forall item,
        item ∈ items -> pairPattern item = None ->
        PatternDatabase_patternMap (Block a name items ty) = None).
Proof.
  split.
  - intros patterns HF.
    destruct (addPatterns_keyed items patterns ∅ [] HF) as (m & Hm & Hk).
    + intros k. rewrite lookup_empty. reflexivity.
    + exists m. split; [exact Hm|exact Hk].
  - intros item Hin Hp. simpl. eapply addPatterns_malformed; eauto.
Qed.

(** * Further properties of the match *)

(** [checkMatch] by cases on the slot as it is before the call.  (The slots
    are padded only when the index is beyond them, and then the slot is
    empty.) *)
Lemma checkMatch_cases i r ty (w : Match.Wildcards) :
  Match.checkMatch i r ty w
  = if bool_decide (ty <> none) && bool_decide (type_of r <> ty)
    then (false, w)
    else match w !! i with
         | Some (Some b) => (equal r b, w)
         | _ => (true, <[i := Some r]> (w ++ replicate (S i - length w) None))
         end.
Proof.
  unfold Match.checkMatch.
  destruct (bool_decide (ty <> none) && bool_decide (type_of r <> ty));
    [reflexivity|].
  destruct (w !! i) as [[b|]|] eqn:Hl.
  - pose proof (lookup_lt_Some _ _ _ Hl) as Hlt.
    replace (S i - length w)%nat with 0%nat by lia.
    simpl. rewrite app_nil_r, Hl. reflexivity.
  - rewrite (lookup_app_l_Some _ _ _ _ Hl). reflexivity.
  - destruct ((w ++ replicate (S i - length w) None) !! i) as [[b|]|] eqn:Hl1;
      try reflexivity.
    apply lookup_app_Some in Hl1 as [Hl1|[_ Hl1]]; [congruence|].
    apply lookup_replicate in Hl1 as [Hl1 _]. discriminate.
Qed.

Lemma compare_cases l r (w : Match.Wildcards) :
  Match.compare l r w
  = match wildcardMarker l with
    | Some (ty, i) => Match.checkMatch i r ty w
    | None => (false, w)
    end.
Proof.
  destruct (wildcardMarker l) as [[ty i]|] eqn:Hm.
  - apply compare_marker, Hm.
  - apply compare_not_marker, Hm.
Qed.

(** X12.  A comparison that answers false leaves the slots exactly as they
    were: no slot is bound, unbound or added. *)
Theorem compare_false_keeps_slots (subInput subSeen : Expression)
    (wildcards wildcards' : Match.Wildcards) :
  Match.compare subInput subSeen wildcards = (false, wildcards') ->
  wildcards' = wildcards.
Proof.
  rewrite compare_cases. destruct (wildcardMarker subInput) as [[ty i]|];
    [|intros H; inversion H; reflexivity].
  rewrite checkMatch_cases.
  destruct (bool_decide _ && bool_decide _);
    [intros H; inversion H; reflexivity|].
  destruct (wildcards !! i) as [[b|]|]; intros H; inversion H; reflexivity.
Qed.

(** X13.  A comparison that answers true is one on a wildcard, of index [i]
    say.  After it slot [i] is bound to a tree equal to the candidate
    subtree, and to that subtree itself when the slot was not bound before;
    the slots reach up to index [i] at least and are no more than that when
    they were fewer; every other slot is as it was, and the slots that were
    added below [i] are empty. *)
Theorem compare_true_binds_slot (subInput subSeen : Expression)
    (wildcards wildcards' : Match.Wildcards) :
  Match.compare subInput subSeen wildcards = (true, wildcards') ->
  exists ty i b,
    wildcardMarker subInput = Some (ty, i)
    /\ wildcards' !! i = Some (Some b) /\ equal subSeen b = true
    /\ ((forall b0, wildcards !! i <> Some (Some b0)) -> b = subSeen)
    /\ length wildcards' = (length wildcards `max` S i)%nat
    /\ (forall j, j <> i -> (j < length wildcards)%nat ->
          wildcards' !! j = wildcards !! j)
    /\ (forall j, j <> i -> (length wildcards <= j)%nat ->
          (j < length wildcards')%nat -> wildcards' !! j = Some None).
Proof.
  rewrite compare_cases. destruct (wildcardMarker subInput) as [[ty i]|];
    [|discriminate].
  rewrite checkMatch_cases.
  destruct (bool_decide _ && bool_decide _); [discriminate|].
  intros H. exists ty, i.
  assert (Hnew : (forall b0, wildcards !! i <> Some (Some b0)) ->
                 wildcards' = <[i := Some subSeen]>
                                (wildcards ++ replicate (S i - length wildcards) None)
                 -> exists b,
    Some (ty, i) = Some (ty, i)
    /\ wildcards' !! i = Some (Some b) /\ equal subSeen b = true
    /\ ((forall b0, wildcards !! i <> Some (Some b0)) -> b = subSeen)
    /\ length wildcards' = (length wildcards `max` S i)%nat
    /\ (forall j, j <> i -> (j < length wildcards)%nat ->
          wildcards' !! j = wildcards !! j)
    /\ (forall j, j <> i -> (length wildcards <= j)%nat ->
          (j < length wildcards')%nat -> wildcards' !! j = Some None)).
  { intros Hu ->. exists subSeen.
    assert (Hlen : length (<[i := Some subSeen]>
                     (wildcards ++ replicate (S i - length wildcards) None))
                   = (length wildcards `max` S i)%nat).
    { rewrite length_insert, length_app, length_replicate. lia. }
    split; [reflexivity|]. split.
    { apply list_lookup_insert_eq.
      rewrite length_app, length_replicate. lia. }
    split; [apply equal_refl|]. split; [auto|]. split; [exact Hlen|]. split.
    - intros j Hj Hlt. rewrite list_lookup_insert_ne by auto.
      apply lookup_app_l. exact Hlt.
    - intros j Hj Hge Hlt. rewrite Hlen in Hlt.
      rewrite list_lookup_insert_ne by auto.
      rewrite lookup_app_r by exact Hge.
      apply lookup_replicate_2. lia. }
  destruct (wildcards !! i) as [[b|]|] eqn:Hl.
  - injection H as He <-. exists b.
    pose proof (lookup_lt_Some _ _ _ Hl) as Hlt.
    split; [reflexivity|]. split; [exact Hl|]. split; [exact He|].
    split; [intros Hu; destruct (Hu b eq_refl)|].
    split; [lia|]. split; [auto|]. intros j _ Hge Hj. lia.
  - inversion H; subst. apply Hnew; [intros b0; discriminate|reflexivity].
  - inversion H; subst. apply Hnew; [intros b0; discriminate|reflexivity].
Qed.

(** X14.  The type that a wildcard asks for.  On a wildcard whose slot is
    not bound, the comparison answers true exactly when the wildcard is
    [any.expr] or the type of the candidate subtree is the type of the
    wildcard; on a wildcard whose slot is bound, exactly when, in addition,
    the candidate subtree is equal to the bound one. *)
Theorem wildcard_type_discipline (subInput subSeen : Expression)
    (wildcards : Match.Wildcards) (ty : WasmType) (i : nat) :
  wildcardMarker subInput = Some (ty, i) ->
  ((forall b, wildcards !! i <> Some (Some b)) ->
   ((Match.compare subInput subSeen wildcards).1 = true
    <-> (ty = none \/ type_of subSeen = ty)))
  /\ (forall b, wildcards !! i = Some (Some b) ->
      ((Match.compare subInput subSeen wildcards).1 = true
       <-> ((ty = none \/ type_of subSeen = ty) /\ equal subSeen b = true))).
Proof.
  intros Hm. rewrite compare_cases, Hm, checkMatch_cases.
  assert (Hty : bool_decide (ty <> none) && bool_decide (type_of subSeen <> ty) = false
                <-> (ty = none \/ type_of subSeen = ty)).
  { rewrite andb_false_iff, !bool_decide_eq_false.
    split; (intros [H|H]; [left|right]);
      first [ exact (dec_stable H) | intros Hn; exact (Hn H) ]. }
  split.
  - intros Hu.
    destruct (bool_decide (ty <> none) && bool_decide (type_of subSeen <> ty)) eqn:E.
    + simpl. split; [discriminate|]. intros H. apply Hty in H. discriminate.
    + destruct (wildcards !! i) as [[b|]|] eqn:Hl;
        [destruct (Hu b eq_refl)|..]; simpl;
        (split; [intros _; apply Hty; reflexivity|reflexivity]).
  - intros b Hb. rewrite Hb.
    destruct (bool_decide (ty <> none) && bool_decide (type_of subSeen <> ty)) eqn:E.
    + simpl. split; [discriminate|]. intros [H _]. apply Hty in H. discriminate.
    + simpl. split; [intros H; split; [apply Hty; reflexivity|exact H]|tauto].
Qed.

Lemma marker_shape e ty i :
  wildcardMarker e = Some (ty, i) ->
  exists a target ca v t,
    e = CallImport a target [Const ca (Lit i32 v)] t
    /\ i = Index_of v
    /\ wildcardType target = Some ty.
Proof.
  unfold wildcardMarker, wildcardCall.
  destruct e as [| | | |a target [|[| | | | | | | | | |ca [vt v]| | |] [|? ?]] t
                | | | | | | | | |]; try discriminate.
  simpl. destruct (decide (vt = i32)) as [->|]; [|discriminate].
  destruct (wildcardType target) as [ty'|] eqn:Ht; [|discriminate].
  intros H; inversion H; subst. eauto 10.
Qed.

Lemma wildcardType_reserved target ty :
  wildcardType target = Some ty ->
  target ∈ [I32_EXPR; I64_EXPR; F32_EXPR; F64_EXPR; ANY_EXPR].
Proof.
  unfold wildcardType. repeat (destruct (decide _) as [->|?]);
    try discriminate; intros _; set_solver.
Qed.

(** X15.  Only a call to one of the five reserved names, with exactly one
    operand that is an [i32] constant, is ever dealt with as a wildcard: the
    comparison answers true on no other pattern node, and the copier
    substitutes for no other template node. *)
Theorem wildcards_are_reserved_calls (e subSeen : Expression)
    (wildcards : Match.Wildcards) (st : Arena) :
  (Match.compare e subSeen wildcards).1 = true
  \/ (exists x st', Match.copy wildcards e st = Ok (Some x, st')) ->
  exists a target ca v t,
    e = CallImport a target [Const ca (Lit i32 v)] t
    /\ target ∈ [I32_EXPR; I64_EXPR; F32_EXPR; F64_EXPR; ANY_EXPR].
Proof.
  intros H.
  assert (Hm : exists ty i, wildcardMarker e = Some (ty, i)).
  { destruct (wildcardMarker e) as [[ty i]|] eqn:Hm; [eauto|]. exfalso.
    destruct H as [H|(x & st' & H)].
    - rewrite compare_cases, Hm in H. discriminate.
    - rewrite (copy_not_marker _ _ Hm) in H. discriminate. }
  destruct Hm as (ty & i & Hm).
  destruct (marker_shape _ _ _ Hm) as (a & target & ca & v & t & -> & _ & Ht).
  exists a, target, ca, v, t. split; [reflexivity|].
  eapply wildcardType_reserved; eauto.
Qed.

(** ** The instantiator on a match that binds what the template needs *)

Lemma flexibleCopy_hook_gives custom e st e' st' :
  custom e st = Ok (Some e', st') -> flexibleCopy custom e st = Ok (e', st').
Proof. intros H. destruct e; simpl; unfold bind; rewrite H; reflexivity. Qed.

Lemma mapM_succeeds {A B} (F : A -> M B) l :
  Forall (fun x => forall st, exists y st', F x st = Ok (y, st')) l ->
  forall st, exists ys st', mapM F l st = Ok (ys, st').
Proof.
  induction 1 as [|x l Hx _ IH]; intros st; simpl; [unfold ret; eauto|].
  unfold bind. destruct (Hx st) as (y & st1 & ->).
  destruct (IH st1) as (ys & st2 & ->). unfold ret. eauto.
Qed.

Lemma optM_succeeds {A B} (F : A -> M B) o :
  OptAll (fun x => forall st, exists y st', F x st = Ok (y, st')) o ->
  forall st, exists y st', optM F o st = Ok (y, st').
Proof.
  destruct o as [x|]; simpl; intros Hx st; [|unfold ret; eauto].
  unfold bind. destruct (Hx st) as (y & st1 & ->). unfold ret. eauto.
Qed.

Ltac refers_child Hb Hm :=
  let i := fresh "i" in let Hr := fresh "Hr" in
  intros i Hr; apply Hb;
  first [ eapply (refers_operand _ _ 0%nat); [exact Hm|reflexivity|exact Hr]
        | eapply (refers_operand _ _ 1%nat); [exact Hm|reflexivity|exact Hr]
        | eapply (refers_operand _ _ 2%nat); [exact Hm|reflexivity|exact Hr] ].

Ltac copy_step :=
  unfold bind at 1; cbv beta;
  match goal with
  | H : forall st, exists y st', ?F ?x st = Ok (y, st')
    |- context [?F ?x ?s] =>
      let y := fresh "y" in let s1 := fresh "s" in let E := fresh "E" in
      destruct (H s) as (y & s1 & E); rewrite E; clear E
  | H : Forall _ ?l |- context [mapM ?F ?l ?s] =>
      let y := fresh "y" in let s1 := fresh "s" in let E := fresh "E" in
      destruct (mapM_succeeds F l H s) as (y & s1 & E); rewrite E; clear E
  | H : OptAll _ ?o |- context [optM ?F ?o ?s] =>
      let y := fresh "y" in let s1 := fresh "s" in let E := fresh "E" in
      destruct (optM_succeeds F o H s) as (y & s1 & E); rewrite E; clear E
  end.

Lemma instantiate_succeeds (wildcards : Match.Wildcards) e :
  (forall i, Refers i e -> exists b, wildcards !! i = Some (Some b)) ->
  forall st, exists e' st',
    flexibleCopy (Match.copy wildcards) e st = Ok (e', st').
Proof.
  induction e using Expression_nested_ind; intros Hb st0;
    match goal with
    | |- context [flexibleCopy _ ?e _] =>
        destruct (wildcardMarker e) as [[mty mi]|] eqn:Hm;
        [ let bd := fresh "bd" in let e' := fresh "e'" in
          let st' := fresh "st'" in
          destruct (Hb mi (refers_here _ _ _ Hm)) as (bd & Hbound);
          destruct (plain_copy_total bd st0) as (e' & st' & Hc);
          exists e', st'; apply flexibleCopy_hook_gives;
          rewrite (copy_marker _ _ _ _ Hm), Hbound; unfold bind; rewrite Hc;
          reflexivity
        | cbn [flexibleCopy]; rewrite (copy_not_marker _ _ Hm);
          unfold bind at 1, ret at 1; cbv beta ]
    end;
    repeat match goal with
           | IH : (forall i, Refers i ?c -> _) -> forall st, _ |- _ =>
               let H' := fresh "Hc" in
               assert (H' := IH ltac:(refers_child Hb Hm)); clear IH
           end;
    repeat match goal with
           | IH : Forall _ ?l |- _ =>
               let H' := fresh "Hl" in
               assert (H' : Forall (fun x => forall st, exists y st',
                                 flexibleCopy (Match.copy wildcards) x st
                                 = Ok (y, st')) l)
                 by (apply Forall_lookup; intros k x Hk;
                     apply (Forall_lookup_1 _ _ _ _ IH Hk);
                     intros j Hr; apply Hb;
                     eapply (refers_operand _ _ k);
                     [exact Hm
                     |simpl; rewrite list_lookup_fmap, Hk; reflexivity
                     |exact Hr]);
               clear IH; pose proof (mapM_succeeds _ _ H'); clear H'
           | IH : OptAll _ ?o |- _ =>
               let H' := fresh "Ho" in
               assert (H' : OptAll (fun x => forall st, exists y st',
                                 flexibleCopy (Match.copy wildcards) x st
                                 = Ok (y, st')) o)
                 by (destruct o; simpl in *;
                     [apply IH; refers_child Hb Hm|exact I]);
               clear IH; pose proof (optM_succeeds _ _ H'); clear H'
           end;
    repeat copy_step; unfold bind, alloc, ret; eauto.
Qed.

Lemma andThen_true m1 m2 (w w' : Match.Wildcards) :
  Match.andThen m1 m2 w = (true, w') ->
  exists w1, m1 w = (true, w1) /\ m2 w1 = (true, w').
Proof.
  unfold Match.andThen. destruct (m1 w) as [[] w1]; [eauto|discriminate].
Qed.

Lemma fold2_true f xs : forall ys (w w' : Match.Wildcards) k x,
  Match.fold2 f xs ys w = (true, w') -> xs !! k = Some x ->
  exists y w1 w2, ys !! k = Some y /\ f x y w1 = (true, w2).
Proof.
  induction xs as [|x0 xs IH]; intros [|y0 ys] w w' k x H Hk;
    try discriminate.
  simpl in H. apply andThen_true in H as (w1 & H1 & H2).
  destruct k as [|k]; simpl in Hk.
  - inversion Hk; subst. exists y0, w, w1. auto.
  - exact (IH ys w1 w' k x H2 Hk).
Qed.

Lemma optFold2_true f x o2 (w w' : Match.Wildcards) :
  Match.optFold2 f (Some x) o2 w = (true, w') ->
  exists y, o2 = Some y /\ f x y w = (true, w').
Proof. destruct o2 as [y|]; simpl; [eauto|discriminate]. Qed.

(** When the walk succeeds, every wildcard that the pattern input references
    stands opposite some subtree of the candidate. *)
Lemma refers_opposite i l :
  Refers i l ->
  forall r (w w' : Match.Wildcards),
    Match.flexibleEqual l r w = (true, w') -> exists s, Opposite i l r s.
Proof.
  induction 1 as [e ty Hm|e k c Hm Hk Hr IH]; intros r w w' H.
  - exists r. eapply opposite_here; eauto.
  - destruct e; cbn [Match.flexibleEqual] in H; rewrite Hm in H;
      destruct r;
      try (exfalso; clear -H; cbv [Match.guard] in H; discriminate H);
      repeat match goal with
             | H0 : Match.andThen _ _ _ = (true, _) |- _ =>
                 let w1 := fresh "w" in
                 apply andThen_true in H0 as (w1 & ? & ?)
             end;
      simpl in Hk;
      try (rewrite lookup_nil in Hk; discriminate Hk);
      try (rewrite list_lookup_fmap in Hk;
           apply fmap_Some in Hk as (c0 & Hl & Ec); inversion Ec; subst c0;
           match goal with
           | H0 : Match.fold2 _ _ _ _ = (true, _) |- _ =>
               destruct (fold2_true _ _ _ _ _ _ _ H0 Hl)
                 as (y & w1 & w2 & Hy & Hf)
           end;
           destruct (IH _ _ _ Hf) as (s & Hs); exists s;
           eapply (opposite_operand _ _ _ k);
           [exact Hm|reflexivity
           |simpl; rewrite list_lookup_fmap, Hl; reflexivity
           |simpl; rewrite list_lookup_fmap, Hy; reflexivity
           |exact Hs]);
      repeat (destruct k as [|k]; simpl in Hk; try discriminate Hk);
      inversion Hk; subst;
      repeat match goal with
             | H0 : Match.optFold2 _ (Some _) _ _ = (true, _) |- _ =>
                 apply optFold2_true in H0 as (? & -> & ?)
             end;
      match goal with
      | H0 : Match.flexibleEqual c _ _ = (true, _) |- _ =>
          destruct (IH _ _ _ H0) as (s & Hs); exists s
      end;
      first [ eapply (opposite_operand _ _ _ 0%nat);
              [exact Hm|reflexivity|reflexivity|reflexivity|exact Hs]
            | eapply (opposite_operand _ _ _ 1%nat);
              [exact Hm|reflexivity|reflexivity|reflexivity|exact Hs]
            | eapply (opposite_operand _ _ _ 2%nat);
              [exact Hm|reflexivity|reflexivity|reflexivity|exact Hs] ].
Qed.

Lemma check_then_instantiate pattern seen (wildcards : Match.Wildcards) st :
  wellFormedPattern pattern ->
  Match.check pattern seen = (true, wildcards) ->
  exists e st', Match.apply pattern wildcards st = Ok (e, st').
Proof.
  intros Hwf Hc. apply instantiate_succeeds. intros i Hr.
  destruct (refers_opposite i _ (Hwf i Hr) seen [] wildcards Hc) as (s & Hs).
  destruct (flexibleEqual_Sound (input pattern) seen [] wildcards Hc)
    as (_ & Y & _).
  destruct (Y i s Hs) as (b & Hb & _). eauto.
Qed.

(** X16.  The instantiation succeeds whenever the match binds every index
    that the output template references; and it does so after every
    successful check of a pattern whose output references only indices that
    its input references.  The out-of-range exception of [Match::copy] is
    thus out of reach of such patterns. *)
Theorem wellformed_pattern_instantiates (pattern : Pattern) (seen : Expression)
    (wildcards : Match.Wildcards) (st : Arena) :
  ((forall i, Refers i (output pattern) ->
              exists b, wildcards !! i = Some (Some b)) ->
   exists e st', Match.apply pattern wildcards st = Ok (e, st'))
  /\ (wellFormedPattern pattern ->
      Match.check pattern seen = (true, wildcards) ->
      exists e st', Match.apply pattern wildcards st = Ok (e, st')).
Proof.
  split.
  - intros Hb. apply instantiate_succeeds, Hb.
  - apply check_then_instantiate.
Qed.

(** ** A template that references an index beyond the slots *)

(** On a template none of whose references is to an empty slot, the
    instantiation can stop on the out-of-range exception only. *)
Lemma instantiate_failures (wildcards : Match.Wildcards) e :
  (forall j, Refers j e -> wildcards !! j <> Some None) ->
  forall st f,
    flexibleCopy (Match.copy wildcards) e st = Fail f -> f = OutOfRange.
Proof.
  induction e using Expression_nested_ind; intros Hb st0 fl;
    match goal with
    | |- flexibleCopy _ ?e _ = _ -> _ =>
        destruct (wildcardMarker e) as [[mty mi]|] eqn:Hm;
        [ pose proof (Hb mi (refers_here _ _ _ Hm)) as Hne;
          destruct (wildcards !! mi) as [[bd|]|] eqn:Hl;
          [ let e' := fresh "e'" in let st' := fresh "st'" in
            destruct (plain_copy_total bd st0) as (e' & st' & Hc);
            rewrite (flexibleCopy_hook_gives _ _ _ e' st');
            [discriminate|];
            rewrite (copy_marker _ _ _ _ Hm), Hl; unfold bind; rewrite Hc;
            reflexivity
          | congruence
          | rewrite (flexibleCopy_hook_fails _ _ _ OutOfRange);
            [congruence|];
            rewrite (copy_marker _ _ _ _ Hm), Hl; reflexivity ]
        | cbn [flexibleCopy]; rewrite (copy_not_marker _ _ Hm);
          unfold bind at 1, ret at 1; cbv beta ]
    end;
    repeat match goal with
           | IH : (forall j, Refers j ?c -> _) -> forall st f, _ |- _ =>
               let H' := fresh "Hc" in
               assert (H' := IH ltac:(refers_child Hb Hm)); clear IH
           end;
    repeat match goal with
           | IH : Forall _ ?l |- _ =>
               let H' := fresh "Hl" in
               assert (H' : Forall (fun x => forall st f,
                                 flexibleCopy (Match.copy wildcards) x st
                                 = Fail f -> f = OutOfRange) l)
                 by (apply Forall_lookup; intros k x Hk;
                     apply (Forall_lookup_1 _ _ _ _ IH Hk);
                     intros j Hr; apply Hb;
                     eapply (refers_operand _ _ k);
                     [exact Hm
                     |simpl; rewrite list_lookup_fmap, Hk; reflexivity
                     |exact Hr]);
               clear IH;
               pose proof (mapM_failures _ (fun f => f = OutOfRange) _ H');
               clear H'
           | IH : OptAll _ ?o |- _ =>
               let H' := fresh "Ho" in
               assert (H' : OptAll (fun x => forall st f,
                                 flexibleCopy (Match.copy wildcards) x st
                                 = Fail f -> f = OutOfRange) o)
                 by (destruct o; simpl in *;
                     [apply IH; refers_child Hb Hm|exact I]);
               clear IH;
               pose proof (optM_failures _ (fun f => f = OutOfRange) _ H');
               clear H'
           end;
    repeat failure_in_step; unfold bind, alloc, ret; discriminate.
Qed.

Section DanglingReference.

Context {Effects : Type}.
Variable EffectAnalyzer : Expression -> Effects.
Variable invalidates : Effects -> Effects -> bool.
Variable patternMap : gmap ExpressionId (list Pattern).

Abbreviation step := (visitStep EffectAnalyzer invalidates patternMap).
Abbreviation steps := (visitSteps EffectAnalyzer invalidates patternMap).
Abbreviation loop := (visitLoop EffectAnalyzer invalidates patternMap).
Abbreviation visit := (visitExpression EffectAnalyzer invalidates patternMap).

Lemma visitSteps_DONE n c st : steps n (DONE c) st = Ok (DONE c, st).
Proof. induction n as [|n IH]; [reflexivity|]. simpl. exact IH. Qed.

Lemma visitLoop_S fuel p st :
  (forall c, p <> DONE c) ->
  loop (S fuel) p st
  = match step p st with
    | Ok (p', st') => loop fuel p' st'
    | Fail f => Fail f
    end.
Proof.
  destruct p; intros H; try reflexivity. exfalso. eapply H. reflexivity.
Qed.

(** A pass through the loop that stops, stops the loop, whichever pass of
    the visit it is. *)
Lemma visitLoop_step_failure n : forall fuel p st q st1 f,
  steps n p st = Ok (q, st1) ->
  step q st1 = Fail f ->
  (n < fuel)%nat ->
  loop fuel p st = Fail f.
Proof.
  induction n as [|n IH]; intros fuel p st q st1 f Hn Hq Hf.
  - injection Hn as -> ->. destruct fuel as [|fuel]; [lia|].
    destruct q as [c|c|c]; [| |discriminate Hq];
      (rewrite visitLoop_S, Hq; [reflexivity|discriminate]).
  - destruct fuel as [|fuel]; [lia|].
    simpl in Hn. unfold bind in Hn.
    destruct (step p st) as [[p' st']|f'] eqn:Hp; [|discriminate].
    assert (Hl : loop fuel p' st' = Fail f) by (eapply IH; eauto; lia).
    destruct p as [c|c|c];
      [rewrite visitLoop_S, Hp; [exact Hl|discriminate]..|].
    simpl in Hp. injection Hp as <- <-.
    rewrite visitSteps_DONE in Hn. injection Hn as <- <-.
    discriminate Hq.
Qed.

(** C3 (as amended).  When the output template references a wildcard index
    that lies beyond the slots of the match, the instantiation produces no
    tree.  When, in addition, no index that the template references is an
    empty slot, what stops it is the out-of-range exception of the
    bounds-checked access of [Match::copy]; that exception leaves
    [Match::apply], it leaves the round of the visitor in which the pattern
    is the first one that matches the current node, and it leaves the visit
    of the node, whichever pass of the loop that round is.  On a wildcard
    of that index [Match::copy] raises the exception, whatever the
    arena. *)
Theorem dangling_reference_raises (pattern : Pattern)
    (wildcards : Match.Wildcards) (i : nat) (st : Arena) :
  Refers i (output pattern) -> (length wildcards <= i)%nat ->
  (exists f, Match.apply pattern wildcards st = Fail f)
  /\ (forall e ty st1,
        wildcardMarker e = Some (ty, i) ->
        Match.copy wildcards e st1 = Fail OutOfRange)
  /\ ((forall j, Refers j (output pattern) -> wildcards !! j <> Some None) ->
      Match.apply pattern wildcards st = Fail OutOfRange
      /\ forall patterns1 patterns2 seen,
           patternMap !! _id seen = Some (patterns1 ++ pattern :: patterns2) ->
           Forall (fun q => (Match.check q seen).1 = false) patterns1 ->
           Match.check pattern seen = (true, wildcards) ->
           step (TRY_PATTERN_DB seen) st = Fail OutOfRange
           /\ forall n fuel curr st0,
                steps n (TRY_HAND_RULES curr) st0
                = Ok (TRY_PATTERN_DB seen, st) ->
                (n < fuel)%nat ->
                visit fuel curr st0 = Fail OutOfRange).
Proof.
  intros Hr Hi. split; [|split].
  - exact (refers_beyond_fails wildcards i _ Hr Hi st).
  - intros e ty st1 Hm. rewrite (copy_marker _ _ _ _ Hm).
    rewrite (lookup_ge_None_2 wildcards i) by lia. reflexivity.
  - intros Hb.
    assert (Ha : Match.apply pattern wildcards st = Fail OutOfRange).
    { destruct (refers_beyond_fails wildcards i _ Hr Hi st) as [f Hf].
      unfold Match.apply. rewrite Hf. f_equal.
      exact (instantiate_failures wildcards _ Hb _ _ Hf). }
    split; [exact Ha|].
    intros patterns1 patterns2 seen Hk H1 Hc.
    assert (Hs : step (TRY_PATTERN_DB seen) st = Fail OutOfRange).
    { simpl. rewrite Hk. unfold bind.
      rewrite (tryPatterns_first _ _ _ _ _ _ H1 Hc). unfold bind.
      rewrite Ha. reflexivity. }
    split; [exact Hs|].
    intros n fuel curr st0 Hn Hf.
    exact (visitLoop_step_failure n fuel _ _ _ _ _ Hn Hs Hf).
Qed.

End DanglingReference.

(** C3 (as stated) fails: a pattern whose output references index 1 while
    its input binds index 0 only matches [clz x]; instantiating it ends in
    the out-of-range exception, which leaves [Match::apply] and the visit of
    the node. *)
Lemma dangling_reference_exception_escapes :
  Match.check
    (MkPattern (Unary 0%nat ClzInt32 (sample_wildcard0 1%nat) i32)
               (CallImport 3%nat I32_EXPR [Const 4%nat (Lit i32 1)] i32))
    (Unary 9%nat ClzInt32 sample_x i32)
  = (true, [Some sample_x])
  /\ Match.apply
       (MkPattern (Unary 0%nat ClzInt32 (sample_wildcard0 1%nat) i32)
                  (CallImport 3%nat I32_EXPR [Const 4%nat (Lit i32 1)] i32))
       [Some sample_x] sample_arena
     = Fail OutOfRange
  /\ visitExpression noEffects neverInvalidates
       {[ UnaryId :=
            [MkPattern (Unary 0%nat ClzInt32 (sample_wildcard0 1%nat) i32)
                       (CallImport 3%nat I32_EXPR [Const 4%nat (Lit i32 1)] i32)] ]}
       4 (Unary 9%nat ClzInt32 sample_x i32) sample_arena
     = Fail OutOfRange.
Proof. repeat split; vm_compute; reflexivity. Qed.

Lemma dangling_reference_raises_witness :
  Refers 1 (output sample_dangling_pattern)
  /\ (length [Some sample_x] <= 1)%nat
  /\ (exists f, Match.apply sample_dangling_pattern [Some sample_x] sample_arena
                = Fail f)
  /\ wildcardMarker (output sample_dangling_pattern) = Some (i32, 1%nat)
  /\ Match.copy [Some sample_x] (output sample_dangling_pattern) sample_arena
     = Fail OutOfRange
  /\ (forall j, Refers j (output sample_dangling_pattern) ->
                [Some sample_x] !! j <> Some None)
  /\ Match.apply sample_dangling_pattern [Some sample_x] sample_arena
     = Fail OutOfRange
  /\ ({[ UnaryId := [sample_dangling_pattern] ]} : gmap ExpressionId (list Pattern))
       !! _id (Unary 9%nat ClzInt32 sample_x i32)
     = Some ([] ++ sample_dangling_pattern :: [])
  /\ Forall (fun q => (Match.check q (Unary 9%nat ClzInt32 sample_x i32)).1 = false) []
  /\ Match.check sample_dangling_pattern (Unary 9%nat ClzInt32 sample_x i32)
     = (true, [Some sample_x])
  /\ visitStep noEffects neverInvalidates {[ UnaryId := [sample_dangling_pattern] ]}
       (TRY_PATTERN_DB (Unary 9%nat ClzInt32 sample_x i32)) sample_arena
     = Fail OutOfRange
  /\ visitSteps noEffects neverInvalidates {[ UnaryId := [sample_dangling_pattern] ]}
       1 (TRY_HAND_RULES (Unary 9%nat ClzInt32 sample_x i32)) sample_arena
     = Ok (TRY_PATTERN_DB (Unary 9%nat ClzInt32 sample_x i32), sample_arena)
  /\ (1 < 2)%nat
  /\ visitExpression noEffects neverInvalidates
       {[ UnaryId := [sample_dangling_pattern] ]} 2
       (Unary 9%nat ClzInt32 sample_x i32) sample_arena
     = Fail OutOfRange.
Proof.
  assert (Hr : Refers 1 (output sample_dangling_pattern))
    by (apply (refers_here _ _ i32); reflexivity).
  assert (Hl : (length [Some sample_x] <= 1)%nat) by (simpl; lia).
  assert (Hm : wildcardMarker (output sample_dangling_pattern) = Some (i32, 1%nat))
    by reflexivity.
  assert (Hb : forall j, Refers j (output sample_dangling_pattern) ->
                         [Some sample_x] !! j <> Some None).
  { intros [|[|j]] _ E; discriminate E. }
  assert (Hk : ({[ UnaryId := [sample_dangling_pattern] ]}
                  : gmap ExpressionId (list Pattern))
                 !! _id (Unary 9%nat ClzInt32 sample_x i32)
               = Some ([] ++ sample_dangling_pattern :: []))
    by (vm_compute; reflexivity).
  assert (H1 : Forall (fun q => (Match.check q
                                   (Unary 9%nat ClzInt32 sample_x i32)).1 = false) [])
    by constructor.
  assert (Hc : Match.check sample_dangling_pattern
                 (Unary 9%nat ClzInt32 sample_x i32)
               = (true, [Some sample_x])) by (vm_compute; reflexivity).
  assert (Hn : visitSteps noEffects neverInvalidates
                 {[ UnaryId := [sample_dangling_pattern] ]}
                 1 (TRY_HAND_RULES (Unary 9%nat ClzInt32 sample_x i32)) sample_arena
               = Ok (TRY_PATTERN_DB (Unary 9%nat ClzInt32 sample_x i32),
                     sample_arena)) by reflexivity.
  assert (Hf : (1 < 2)%nat) by lia.
  destruct (dangling_reference_raises noEffects neverInvalidates
              {[ UnaryId := [sample_dangling_pattern] ]}
              sample_dangling_pattern [Some sample_x] 1 sample_arena Hr Hl)
    as (Hno & Hcopy & Hrest).
  destruct (Hrest Hb) as [Ha Hvisit].
  destruct (Hvisit [] [] (Unary 9%nat ClzInt32 sample_x i32) Hk H1 Hc)
    as [Hs Hv].
  split; [exact Hr|]. split; [exact Hl|]. split; [exact Hno|].
  split; [exact Hm|].
  split; [exact (Hcopy _ i32 sample_arena Hm)|].
  split; [exact Hb|]. split; [exact Ha|]. split; [exact Hk|].
  split; [exact H1|]. split; [exact Hc|]. split; [exact Hs|].
  split; [exact Hn|]. split; [exact Hf|].
  exact (Hv 1%nat 2%nat (Unary 9%nat ClzInt32 sample_x i32) sample_arena Hn Hf).
Defined.

Section VisitorWellFormed.

Context {Effects : Type}.
Variable EffectAnalyzer : Expression -> Effects.
Variable invalidates : Effects -> Effects -> bool.
Variable patternMap : gmap ExpressionId (list Pattern).

Hypothesis database_wellFormed :
  forall k patterns pattern,
    patternMap !! k = Some patterns -> pattern ∈ patterns ->
    wellFormedPattern pattern.

Lemma tryPatterns_wellFormed patterns curr st :
  (forall pattern, pattern ∈ patterns -> wellFormedPattern pattern) ->
  exists r st', tryPatterns patterns curr st = Ok (r, st').
Proof.
  induction patterns as [|pattern patterns IH]; intros Hwf; simpl;
    [unfold ret; eauto|].
  destruct (Match.check pattern curr) as [[] w] eqn:Hc.
  - assert (Hp : wellFormedPattern pattern) by (apply Hwf; left).
    destruct (check_then_instantiate pattern curr w st Hp Hc)
      as (e & st' & Ha).
    unfold bind, ret. rewrite Ha. eauto.
  - apply IH. intros p Hp. apply Hwf. right. exact Hp.
Qed.

Lemma visitStep_wellFormed p st f :
  visitStep EffectAnalyzer invalidates patternMap p st = Fail f ->
  f = AssertionFailure.
Proof.
  destruct p as [curr|curr|curr]; simpl.
  - unfold bind.
    destruct (handOptimize EffectAnalyzer invalidates curr st)
      as [[[e|e] st1]|f1] eqn:Hh; try discriminate.
    intros H; inversion H; subst. eapply hand_failure; eauto.
  - destruct (patternMap !! _id curr) as [patterns|] eqn:Hl; [|discriminate].
    unfold bind.
    destruct (tryPatterns_wellFormed patterns curr st) as (r & st' & ->).
    + intros pattern Hp. eapply database_wellFormed; eauto.
    + destruct r; discriminate.
  - discriminate.
Qed.

(** X17.  With a database all of whose patterns reference in their output
    only indices that their input references, the visit of a node raises no
    exception: it can stop only on the assertion of [geti32] in the
    hand-coded rules (or, in this embedding, when the fuel of the loop runs
    out). *)
Theorem visit_raises_nothing (fuel : nat) (curr : Expression) (st : Arena)
    (f : Failure) :
  visitExpression EffectAnalyzer invalidates patternMap fuel curr st = Fail f ->
  f = AssertionFailure \/ f = OutOfFuel.
Proof.
  unfold visitExpression. generalize (TRY_HAND_RULES curr) as p. revert st.
  induction fuel as [|fuel IH]; intros st p.
  - destruct p; simpl; try discriminate;
      intros H; inversion H; subst; auto.
  - destruct p as [c|c|c]; try discriminate;
      cbn [visitLoop]; unfold bind at 1;
      (destruct (visitStep EffectAnalyzer invalidates patternMap _ st)
         as [[p' st1]|f1] eqn:Hs;
       [apply IH
       |intros H; inversion H; subst; left;
        eapply visitStep_wellFormed; exact Hs]).
Qed.

End VisitorWellFormed.

(** X18.  A node that the rules return comes from one of three rules, and
    each leaves its mark: the load of a fusible shift pair, marked signed,
    with the arena as before; a fresh [i32] is-zero test of the operand
    that an [i32] equality compares with the [i32] constant zero, with one
    node allocated; or the comparison under an [i32] is-zero test, one
    through which the negation is pushed, with the operator of the negated
    relation, which is another operator, and with the arena as before. *)
Theorem replacement_comes_from_three_rules {Effects : Type}
    (EffectAnalyzer : Expression -> Effects)
    (invalidates : Effects -> Effects -> bool)
    (curr e : Expression) (st st' : Arena) :
  handOptimize EffectAnalyzer invalidates curr st = Ok (Replace e, st') ->
  (exists load, SignExtendFusible curr load /\ e = markSigned load /\ st' = st)
  \/ (exists a l r ty x,
        curr = Binary a EqInt32 l r ty
        /\ ((isZeroConst r /\ x = l) \/ (isZeroConst l /\ x = r))
        /\ e = Unary (next st) EqZInt32 x i32
        /\ st' = MkArena (S (next st)))
  \/ (exists a ty ia t rel s l r ity,
        negationPushed t rel = true
        /\ curr = Unary a EqZInt32 (Binary ia (comparisonOp t rel s) l r ity) ty
        /\ e = Binary ia (comparisonOp t (negation rel) s) l r ity
        /\ comparisonOp t (negation rel) s <> comparisonOp t rel s
        /\ st' = st).
Proof. apply hand_Replace_cases. Qed.

(** * Concrete cases *)

Lemma self_assignment_elimination_witness :
  handOptimize noEffects neverInvalidates sample_set_self sample_arena
  = Ok (Keep (Nop 2%nat), sample_arena)
  /\ (forall ga gty, sample_x <> GetGlobal ga "g" gty)
  /\ handOptimize noEffects neverInvalidates (SetGlobal 2%nat "g" sample_x) sample_arena
     = Ok (Keep (SetGlobal 2%nat "g" sample_x), sample_arena).
Proof.
  assert (Hn : forall ga gty, sample_x <> GetGlobal ga "g" gty)
    by (intros ga gty E; discriminate E).
  split; [|split; [exact Hn|]].
  - exact (proj1 (self_assignment_elimination noEffects neverInvalidates
                    2%nat "g" sample_x sample_arena) 1%nat i32).
  - exact (proj2 (self_assignment_elimination noEffects neverInvalidates
                    2%nat "g" sample_x sample_arena) Hn).
Defined.

Lemma if_arm_flip_witness :
  optimizeBoolean (Unary 3%nat EqZInt32 sample_x i32) = Unary 3%nat EqZInt32 sample_x i32
  /\ handOptimize noEffects neverInvalidates
       (If 4%nat (Unary 3%nat EqZInt32 sample_x i32) (Nop 5%nat) (Some (Nop 6%nat)) none)
       sample_arena
     = Ok (Keep (If 4%nat sample_x (Nop 6%nat) (Some (Nop 5%nat)) none), sample_arena)
  /\ (forall ac v tv, optimizeBoolean sample_x <> Unary ac EqZInt32 v tv)
  /\ handOptimize noEffects neverInvalidates
       (If 4%nat sample_x (Nop 5%nat) (Some (Nop 6%nat)) none) sample_arena
     = Ok (Keep (If 4%nat sample_x (Nop 5%nat) (Some (Nop 6%nat)) none), sample_arena)
  /\ handOptimize noEffects neverInvalidates
       (If 4%nat (Unary 3%nat EqZInt32 sample_x i32) (Nop 5%nat) None none)
       sample_arena
     = Ok (Keep (If 4%nat (Unary 3%nat EqZInt32 sample_x i32) (Nop 5%nat) None none),
           sample_arena).
Proof.
  assert (Hn : forall ac v tv, optimizeBoolean sample_x <> Unary ac EqZInt32 v tv)
    by (intros ac v tv E; discriminate E).
  split; [reflexivity|]. split; [|split; [exact Hn|split]].
  - exact (proj1 (if_arm_flip noEffects neverInvalidates 4%nat
                    (Unary 3%nat EqZInt32 sample_x i32) (Nop 5%nat)
                    (Some (Nop 6%nat)) none sample_arena)
             3%nat sample_x i32 (Nop 6%nat) eq_refl eq_refl).
  - exact (proj1 (proj2 (if_arm_flip noEffects neverInvalidates 4%nat
                           sample_x (Nop 5%nat) (Some (Nop 6%nat)) none
                           sample_arena)) Hn).
  - exact (proj2 (proj2 (if_arm_flip noEffects neverInvalidates 4%nat
                           (Unary 3%nat EqZInt32 sample_x i32) (Nop 5%nat)
                           None none sample_arena)) eq_refl).
Defined.

Lemma deMorgan_involution_witness :
  handOptimize noEffects neverInvalidates
    (Unary 4%nat EqZInt32 (Binary 3%nat LtSInt32 sample_x sample_y i32) i32)
    sample_arena
  = Ok (Replace (Binary 3%nat GeSInt32 sample_x sample_y i32), sample_arena)
  /\ EqZInt32 = EqZInt32 /\ sample_arena = sample_arena
  /\ exists ia t rel s l r ity,
       negationPushed t rel = true
       /\ Binary 3%nat LtSInt32 sample_x sample_y i32
          = Binary ia (comparisonOp t rel s) l r ity
       /\ Binary 3%nat GeSInt32 sample_x sample_y i32
          = Binary ia (comparisonOp t (negation rel) s) l r ity
       /\ comparisonOp t (negation rel) s <> comparisonOp t rel s
       /\ forall a2 ty2 st2,
            handOptimize noEffects neverInvalidates
              (Unary a2 EqZInt32 (Binary 3%nat GeSInt32 sample_x sample_y i32) ty2)
              st2
            = Ok (Replace (Binary 3%nat LtSInt32 sample_x sample_y i32), st2).
Proof.
  split; [reflexivity|].
  apply (deMorgan_involution noEffects neverInvalidates 4%nat EqZInt32
           (Binary 3%nat LtSInt32 sample_x sample_y i32)
           (Binary 3%nat GeSInt32 sample_x sample_y i32) i32
           sample_arena sample_arena).
  reflexivity.
Defined.

Lemma hand_never_grows_witness :
  handOptimize noEffects neverInvalidates
    (Binary 3%nat EqInt32 sample_x sample_zero i32) sample_arena
  = Ok (Replace (Unary 100%nat EqZInt32 sample_x i32), MkArena 101%nat)
  /\ (size (Unary 100%nat EqZInt32 sample_x i32)
      < size (Binary 3%nat EqInt32 sample_x sample_zero i32))%nat.
Proof.
  split; [reflexivity|].
  apply (hand_never_grows noEffects neverInvalidates
           (Binary 3%nat EqInt32 sample_x sample_zero i32)
           sample_arena (MkArena 101%nat)
           (Replace (Unary 100%nat EqZInt32 sample_x i32))).
  reflexivity.
Defined.

Lemma hand_keep_is_in_place_witness :
  handOptimize noEffects neverInvalidates sample_set_self sample_arena
  = Ok (Keep (Nop 2%nat), sample_arena)
  /\ self_of (Nop 2%nat) = self_of sample_set_self
  /\ type_of (Nop 2%nat) = type_of sample_set_self
  /\ sample_arena = sample_arena.
Proof.
  split; [reflexivity|].
  apply (hand_keep_is_in_place noEffects neverInvalidates sample_set_self
           (Nop 2%nat) sample_arena sample_arena).
  reflexivity.
Defined.

Lemma hand_allocates_only_is_zero_witness :
  handOptimize noEffects neverInvalidates
    (Binary 3%nat EqInt32 sample_x sample_zero i32) sample_arena
  = Ok (Replace (Unary 100%nat EqZInt32 sample_x i32), MkArena 101%nat)
  /\ (MkArena 101%nat = sample_arena
      \/ (MkArena 101%nat = MkArena (S (next sample_arena))
          /\ exists a l r0 ty x,
               Binary 3%nat EqInt32 sample_x sample_zero i32
               = Binary a EqInt32 l r0 ty
               /\ ((isZeroConst r0 /\ x = l) \/ (isZeroConst l /\ x = r0))
               /\ Replace (Unary 100%nat EqZInt32 sample_x i32)
                  = Replace (Unary (next sample_arena) EqZInt32 x i32))).
Proof.
  split; [reflexivity|].
  apply (hand_allocates_only_is_zero noEffects neverInvalidates
           (Binary 3%nat EqInt32 sample_x sample_zero i32)
           sample_arena (MkArena 101%nat)).
  reflexivity.
Defined.

Lemma hand_stops_only_on_assertion_witness :
  handOptimize noEffects neverInvalidates
    (Binary 3%nat EqInt32 sample_x (Const 2%nat (Lit i64 0)) i32) sample_arena
  = Fail AssertionFailure
  /\ AssertionFailure = AssertionFailure
  /\ _id (Binary 3%nat EqInt32 sample_x (Const 2%nat (Lit i64 0)) i32) = BinaryId
  /\ readsI32 (Binary 3%nat EqInt32 sample_x sample_zero i32)
  /\ exists r st',
       handOptimize noEffects neverInvalidates
         (Binary 3%nat EqInt32 sample_x sample_zero i32) sample_arena
       = Ok (r, st').
Proof.
  assert (Hr : readsI32 (Binary 3%nat EqInt32 sample_x sample_zero i32)).
  { split; [intros a v E; discriminate E|split; [|exact I]].
    intros a v E. inversion E; subst. reflexivity. }
  split; [reflexivity|].
  destruct (proj1 (hand_stops_only_on_assertion noEffects neverInvalidates
                     (Binary 3%nat EqInt32 sample_x (Const 2%nat (Lit i64 0)) i32)
                     sample_arena) AssertionFailure eq_refl) as [H1 H2].
  split; [exact H1|split; [exact H2|split; [exact Hr|]]].
  exact (proj2 (hand_stops_only_on_assertion noEffects neverInvalidates
                  (Binary 3%nat EqInt32 sample_x sample_zero i32) sample_arena) Hr).
Defined.

Lemma replacement_comes_from_three_rules_witness :
  handOptimize noEffects neverInvalidates
    (Binary 3%nat EqInt32 sample_zero sample_y i32) sample_arena
  = Ok (Replace (Unary 100%nat EqZInt32 sample_y i32), MkArena 101%nat)
  /\ ((exists load,
         SignExtendFusible (Binary 3%nat EqInt32 sample_zero sample_y i32) load
         /\ Unary 100%nat EqZInt32 sample_y i32 = markSigned load
         /\ MkArena 101%nat = sample_arena)
      \/ (exists a l r ty x,
            Binary 3%nat EqInt32 sample_zero sample_y i32 = Binary a EqInt32 l r ty
            /\ ((isZeroConst r /\ x = l) \/ (isZeroConst l /\ x = r))
            /\ Unary 100%nat EqZInt32 sample_y i32
               = Unary (next sample_arena) EqZInt32 x i32
            /\ MkArena 101%nat = MkArena (S (next sample_arena)))
      \/ (exists a ty ia t rel s l r ity,
            negationPushed t rel = true
            /\ Binary 3%nat EqInt32 sample_zero sample_y i32
               = Unary a EqZInt32 (Binary ia (comparisonOp t rel s) l r ity) ty
            /\ Unary 100%nat EqZInt32 sample_y i32
               = Binary ia (comparisonOp t (negation rel) s) l r ity
            /\ comparisonOp t (negation rel) s <> comparisonOp t rel s
            /\ MkArena 101%nat = sample_arena)).
Proof.
  split; [reflexivity|].
  apply (replacement_comes_from_three_rules noEffects neverInvalidates
           (Binary 3%nat EqInt32 sample_zero sample_y i32)
           (Unary 100%nat EqZInt32 sample_y i32) sample_arena (MkArena 101%nat)).
  reflexivity.
Defined.

Lemma first_matching_pattern_wins_witness :
  Forall (fun q => (Match.check q (sample_sub sample_x (GetLocal 9%nat 0%nat i32))).1 = false)
    [sample_add_pattern]
  /\ Match.check sample_sub_pattern (sample_sub sample_x (GetLocal 9%nat 0%nat i32))
     = (true, [Some sample_x])
  /\ tryPatterns ([sample_add_pattern] ++ sample_sub_pattern :: [sample_clz_pattern])
       (sample_sub sample_x (GetLocal 9%nat 0%nat i32)) sample_arena
     = Ok (Some (Const 100%nat (Lit i32 0)), MkArena 101%nat)
  /\ visitStep noEffects neverInvalidates
       {[ BinaryId := [sample_add_pattern] ++ sample_sub_pattern :: [sample_clz_pattern] ]}
       (TRY_PATTERN_DB (sample_sub sample_x (GetLocal 9%nat 0%nat i32))) sample_arena
     = Ok (TRY_HAND_RULES (Const 100%nat (Lit i32 0)), MkArena 101%nat).
Proof.
  assert (H1 : Forall (fun q => (Match.check q
                          (sample_sub sample_x (GetLocal 9%nat 0%nat i32))).1 = false)
                 [sample_add_pattern])
    by (constructor; [reflexivity|constructor]).
  assert (Hc : Match.check sample_sub_pattern
                 (sample_sub sample_x (GetLocal 9%nat 0%nat i32))
               = (true, [Some sample_x])) by (vm_compute; reflexivity).
  split; [exact H1|split; [exact Hc|]].
  destruct (first_matching_pattern_wins noEffects neverInvalidates
              {[ BinaryId := [sample_add_pattern] ++ sample_sub_pattern
                             :: [sample_clz_pattern] ]}
              [sample_add_pattern] [sample_clz_pattern] sample_sub_pattern
              (sample_sub sample_x (GetLocal 9%nat 0%nat i32))
              [Some sample_x] sample_arena H1 Hc) as [Ht Hs].
  split.
  - rewrite Ht. vm_compute. reflexivity.
  - apply Hs; vm_compute; reflexivity.
Defined.

Lemma visit_ends_when_nothing_matches_witness :
  noPatternMatches {[ BinaryId := [sample_add_pattern] ]}
    (sample_sub sample_x sample_y)
  /\ visitStep noEffects neverInvalidates {[ BinaryId := [sample_add_pattern] ]}
       (TRY_PATTERN_DB (sample_sub sample_x sample_y)) sample_arena
     = Ok (DONE (sample_sub sample_x sample_y), sample_arena).
Proof.
  assert (Hn : noPatternMatches {[ BinaryId := [sample_add_pattern] ]}
                 (sample_sub sample_x sample_y)).
  { intros patterns Hl. vm_compute in Hl. inversion Hl; subst.
    constructor; [reflexivity|constructor]. }
  split; [exact Hn|].
  apply (proj2 (visit_ends_when_nothing_matches noEffects neverInvalidates
                  {[ BinaryId := [sample_add_pattern] ]}
                  (sample_sub sample_x sample_y) (sample_sub sample_x sample_y)
                  sample_arena sample_arena)).
  split; [reflexivity|split; [reflexivity|exact Hn]].
Defined.

Lemma visit_terminates_without_patterns_witness :
  (size (Unary 4%nat EqZInt32
           (Binary 3%nat NeInt32 sample_x sample_zero i32) i32) < 5)%nat
  /\ ((exists e st',
         visitExpression noEffects neverInvalidates ∅ 5
           (Unary 4%nat EqZInt32 (Binary 3%nat NeInt32 sample_x sample_zero i32) i32)
           sample_arena = Ok (e, st')
         /\ (size e <= size (Unary 4%nat EqZInt32
                               (Binary 3%nat NeInt32 sample_x sample_zero i32) i32))%nat
         /\ noReplacement noEffects neverInvalidates e)
      \/ visitExpression noEffects neverInvalidates ∅ 5
           (Unary 4%nat EqZInt32 (Binary 3%nat NeInt32 sample_x sample_zero i32) i32)
           sample_arena = Fail AssertionFailure).
Proof.
  assert (Hs : (size (Unary 4%nat EqZInt32
                        (Binary 3%nat NeInt32 sample_x sample_zero i32) i32) < 5)%nat)
    by (simpl; lia).
  split; [exact Hs|].
  exact (visit_terminates_without_patterns noEffects neverInvalidates _ 5
           sample_arena Hs).
Defined.

Lemma database_keyed_by_root_witness :
  Forall2 (fun item pattern => pairPattern item = Some pattern)
    [ Block 1%nat "" [input sample_sub_pattern; output sample_sub_pattern] none;
      Block 2%nat "" [input sample_clz_pattern; output sample_clz_pattern] none;
      Block 3%nat "" [input sample_add_pattern; output sample_add_pattern] none ]
    [sample_sub_pattern; sample_clz_pattern; sample_add_pattern]
  /\ (exists patternMap,
        PatternDatabase_patternMap sample_body = Some patternMap
        /\ forall k,
             patternMap !! k
             = nonEmpty (patternsFor k [sample_sub_pattern; sample_clz_pattern;
                                        sample_add_pattern]))
  /\ Nop 9%nat ∈ [Nop 9%nat]
  /\ pairPattern (Nop 9%nat) = None
  /\ PatternDatabase_patternMap (Block 0%nat "" [Nop 9%nat] none) = None.
Proof.
  assert (HF : Forall2 (fun item pattern => pairPattern item = Some pattern)
    [ Block 1%nat "" [input sample_sub_pattern; output sample_sub_pattern] none;
      Block 2%nat "" [input sample_clz_pattern; output sample_clz_pattern] none;
      Block 3%nat "" [input sample_add_pattern; output sample_add_pattern] none ]
    [sample_sub_pattern; sample_clz_pattern; sample_add_pattern])
    by (repeat constructor).
  assert (Hin : Nop 9%nat ∈ [Nop 9%nat]) by (left).
  split; [exact HF|]. split.
  - exact (proj1 (database_keyed_by_root 0%nat "" _ none) _ HF).
  - split; [exact Hin|]. split; [reflexivity|].
    exact (proj2 (database_keyed_by_root 0%nat "" [Nop 9%nat] none)
             (Nop 9%nat) Hin eq_refl).
Defined.

Lemma compare_false_keeps_slots_witness :
  Match.compare (sample_wildcard0 1%nat) sample_y [Some sample_x]
  = (false, [Some sample_x])
  /\ [Some sample_x] = [Some sample_x].
Proof.
  split; [vm_compute; reflexivity|].
  apply (compare_false_keeps_slots (sample_wildcard0 1%nat) sample_y
           [Some sample_x] [Some sample_x]).
  vm_compute; reflexivity.
Defined.

Lemma compare_true_binds_slot_witness :
  Match.compare (CallImport 3%nat ANY_EXPR [Const 4%nat (Lit i32 2)] none)
    sample_y [Some sample_x]
  = (true, [Some sample_x; None; Some sample_y])
  /\ exists ty i b,
       wildcardMarker (CallImport 3%nat ANY_EXPR [Const 4%nat (Lit i32 2)] none)
       = Some (ty, i)
       /\ [Some sample_x; None; Some sample_y] !! i = Some (Some b)
       /\ equal sample_y b = true
       /\ ((forall b0, [Some sample_x] !! i <> Some (Some b0)) -> b = sample_y)
       /\ length [Some sample_x; None; Some sample_y]
          = (length [Some sample_x] `max` S i)%nat
       /\ (forall j, j <> i -> (j < length [Some sample_x])%nat ->
             [Some sample_x; None; Some sample_y] !! j = [Some sample_x] !! j)
       /\ (forall j, j <> i -> (length [Some sample_x] <= j)%nat ->
             (j < length [Some sample_x; None; Some sample_y])%nat ->
             [Some sample_x; None; Some sample_y] !! j = Some None).
Proof.
  split; [vm_compute; reflexivity|].
  apply (compare_true_binds_slot
           (CallImport 3%nat ANY_EXPR [Const 4%nat (Lit i32 2)] none)
           sample_y [Some sample_x] [Some sample_x; None; Some sample_y]).
  vm_compute; reflexivity.
Defined.

Lemma wildcard_type_discipline_witness :
  wildcardMarker (sample_wildcard0 1%nat) = Some (i32, 0%nat)
  /\ (forall b, ([] : Match.Wildcards) !! 0%nat <> Some (Some b))
  /\ ((Match.compare (sample_wildcard0 1%nat) sample_x []).1 = true
      <-> (i32 = none \/ type_of sample_x = i32))
  /\ [Some sample_x] !! 0%nat = Some (Some sample_x)
  /\ ((Match.compare (sample_wildcard0 1%nat) sample_y [Some sample_x]).1 = true
      <-> ((i32 = none \/ type_of sample_y = i32) /\ equal sample_y sample_x = true)).
Proof.
  assert (Hm : wildcardMarker (sample_wildcard0 1%nat) = Some (i32, 0%nat))
    by reflexivity.
  assert (Hu : forall b, ([] : Match.Wildcards) !! 0%nat <> Some (Some b))
    by (intros b E; discriminate E).
  split; [exact Hm|split; [exact Hu|split]].
  - exact (proj1 (wildcard_type_discipline (sample_wildcard0 1%nat) sample_x []
                    i32 0%nat Hm) Hu).
  - split; [reflexivity|].
    exact (proj2 (wildcard_type_discipline (sample_wildcard0 1%nat) sample_y
                    [Some sample_x] i32 0%nat Hm) sample_x eq_refl).
Defined.

Lemma wildcards_are_reserved_calls_witness :
  (Match.compare (sample_wildcard0 1%nat) sample_x []).1 = true
  /\ exists a target ca v t,
       sample_wildcard0 1%nat = CallImport a target [Const ca (Lit i32 v)] t
       /\ target ∈ [I32_EXPR; I64_EXPR; F32_EXPR; F64_EXPR; ANY_EXPR].
Proof.
  assert (Hc : (Match.compare (sample_wildcard0 1%nat) sample_x []).1 = true)
    by (vm_compute; reflexivity).
  split; [exact Hc|].
  exact (wildcards_are_reserved_calls (sample_wildcard0 1%nat) sample_x []
           sample_arena (or_introl Hc)).
Defined.

Lemma sample_clz_pattern_wellFormed : wellFormedPattern sample_clz_pattern.
Proof.
  intros i Hr. inversion Hr as [e ty Hm|e k c Hm Hk Hc]; subst.
  - vm_compute in Hm. inversion Hm; subst.
    eapply (refers_operand _ _ 0%nat); [reflexivity|reflexivity|].
    apply (refers_here _ _ i32). reflexivity.
  - vm_compute in Hm. discriminate Hm.
Qed.

Lemma wellformed_pattern_instantiates_witness :
  wellFormedPattern sample_clz_pattern
  /\ Match.check sample_clz_pattern (Unary 9%nat ClzInt32 sample_x i32)
     = (true, [Some sample_x])
  /\ (forall i, Refers i (output sample_clz_pattern) ->
        exists b, [Some sample_x] !! i = Some (Some b))
  /\ exists e st',
       Match.apply sample_clz_pattern [Some sample_x] sample_arena = Ok (e, st').
Proof.
  assert (Hc : Match.check sample_clz_pattern (Unary 9%nat ClzInt32 sample_x i32)
               = (true, [Some sample_x])) by (vm_compute; reflexivity).
  assert (Hb : forall i, Refers i (output sample_clz_pattern) ->
                 exists b, [Some sample_x] !! i = Some (Some b)).
  { intros i Hr. inversion Hr as [e ty Hm|e k c Hm Hk Hr']; subst.
    - vm_compute in Hm. inversion Hm; subst. exists sample_x. reflexivity.
    - vm_compute in Hm. discriminate Hm. }
  split; [exact sample_clz_pattern_wellFormed|split; [exact Hc|split; [exact Hb|]]].
  destruct (wellformed_pattern_instantiates sample_clz_pattern
              (Unary 9%nat ClzInt32 sample_x i32) [Some sample_x] sample_arena)
    as [H1 H2].
  destruct (H1 Hb) as (e & st' & He).
  exact (H2 sample_clz_pattern_wellFormed Hc).
Defined.

Lemma visit_raises_nothing_witness :
  (forall k patterns pattern,
     ({[ UnaryId := [sample_clz_pattern] ]} : gmap ExpressionId (list Pattern)) !! k
     = Some patterns ->
     pattern ∈ patterns -> wellFormedPattern pattern)
  /\ handOptimize noEffects neverInvalidates
       (Unary 9%nat ClzInt32 sample_eq_i64 i32) sample_arena
     = Ok (Keep (Unary 9%nat ClzInt32 sample_eq_i64 i32), sample_arena)
  /\ Match.check sample_clz_pattern (Unary 9%nat ClzInt32 sample_eq_i64 i32)
     = (true, [Some sample_eq_i64])
  /\ visitStep noEffects neverInvalidates {[ UnaryId := [sample_clz_pattern] ]}
       (TRY_PATTERN_DB (Unary 9%nat ClzInt32 sample_eq_i64 i32)) sample_arena
     = Ok (TRY_HAND_RULES
             (Binary 102%nat EqInt32 (GetLocal 100%nat 0%nat i32)
                (Const 101%nat (Lit i64 0)) i32),
           MkArena 103%nat)
  /\ visitExpression noEffects neverInvalidates {[ UnaryId := [sample_clz_pattern] ]} 4
       (Unary 9%nat ClzInt32 sample_eq_i64 i32) sample_arena
     = Fail AssertionFailure
  /\ (AssertionFailure = AssertionFailure \/ AssertionFailure = OutOfFuel).
Proof.
  assert (Hwf : forall k patterns pattern,
     ({[ UnaryId := [sample_clz_pattern] ]} : gmap ExpressionId (list Pattern)) !! k
     = Some patterns ->
     pattern ∈ patterns -> wellFormedPattern pattern).
  { intros k patterns pattern Hl Hin.
    apply lookup_singleton_Some in Hl as [_ <-].
    apply list_elem_of_singleton in Hin as ->.
    exact sample_clz_pattern_wellFormed. }
  split; [exact Hwf|]. split; [reflexivity|].
  split; [vm_compute; reflexivity|].
  split; [vm_compute; reflexivity|].
  split; [vm_compute; reflexivity|].
  apply (visit_raises_nothing noEffects neverInvalidates
           {[ UnaryId := [sample_clz_pattern] ]} Hwf 4
           (Unary 9%nat ClzInt32 sample_eq_i64 i32)
           sample_arena AssertionFailure).
  vm_compute; reflexivity.
Defined.

Lemma break_condition_normalized_witness :
  exists condition',
    handOptimize noEffects neverInvalidates
      (Break 20%nat "out" None (Some sample_eqz4)) sample_arena
    = Ok (Keep (Break 20%nat "out" None condition'), sample_arena)
    /\ (Some sample_eqz4 = None -> condition' = None)
    /\ (forall c, Some sample_eqz4 = Some c ->
          exists c', condition' = Some c'
          /\ (forall a1 a2 t1 t2 x,
                c = Unary a1 EqZInt32 (Unary a2 EqZInt32 x t2) t1 -> c' = x)
          /\ ((forall a1 a2 t1 t2 x,
                 c <> Unary a1 EqZInt32 (Unary a2 EqZInt32 x t2) t1) ->
              c' = c)).
Proof.
  exact (break_condition_normalized noEffects neverInvalidates 20%nat "out"
           None (Some sample_eqz4) sample_arena).
Defined.
